(** * N-body gravitational integrator with collision handling

    A shallow embedding of the simulation core of the Physics-Engine
    demos: the collision engine (Object3D, CheckCollision,
    ResolveCollision and the physics block of main's frame loop) and the
    solar-system variant of Object3D with its frame loop.

    The C++ code computes on [float].  The embedding is written once over
    an interface of scalar operations, [Scalar], and is used at two
    instances:
    - [binary32], IEEE-754 single precision with round-to-nearest-even on
      every operation (the Standard Library's [SpecFloat] at precision 24),
      on which the code is evaluated at concrete inputs;
    - [R], exact real arithmetic, on which the algebraic properties are
      proved.
    Properties that do not depend on arithmetic are proved for every
    instance.

    Assumptions of the binary32 model: every operation of the source
    rounds once to single precision (no excess precision, no fused
    multiply-add), and the GLM functions are the scalar ones of the
    library's headers. *)

From Stdlib Require Import ZArith Reals Lra Lia Bool.
From Stdlib Require Import Floats.SpecFloat.
From stdpp Require Import base list.

(** ** Scalars *)

(** The operations the code applies to [float] values.  [sc_of_int] is the
    implicit conversion int -> float, [sc_to_int] the cast [(int)x]. *)
Class Scalar (T : Type) := {
  sc_of_int : Z -> T;
  sc_to_int : T -> Z;
  sc_add : T -> T -> T;
  sc_sub : T -> T -> T;
  sc_mul : T -> T -> T;
  sc_div : T -> T -> T;
  sc_neg : T -> T;
  sc_sqrt : T -> T;
  sc_ltb : T -> T -> bool;
  sc_leb : T -> T -> bool
}.

Declare Scope scalar_scope.
Delimit Scope scalar_scope with sc.
Infix "+" := sc_add : scalar_scope.
Infix "-" := sc_sub : scalar_scope.
Infix "*" := sc_mul : scalar_scope.
Infix "/" := sc_div : scalar_scope.
Notation "- x" := (sc_neg x) : scalar_scope.
Infix "<?" := sc_ltb : scalar_scope.
Infix "<=?" := sc_leb : scalar_scope.

(** A decimal literal [n/d] of the source, e.g. [0.98f] is [lit 98 100].
    Both parts are small integers, exact in either instance, and the
    division rounds once, as the compiler does for the literal. *)
Definition lit `{Scalar T} (n d : Z) : T := (sc_of_int n / sc_of_int d)%sc.

(** [a > b] and [a >= b] of the source are [b < a] and [b <= a]. *)
Definition sc_gtb `{Scalar T} (a b : T) : bool := (b <? a)%sc.

(** [std::min(a, b)] is [(b < a) ? b : a]; [std::max(a, b)] is
    [(a < b) ? b : a]. *)
Definition sc_min `{Scalar T} (a b : T) : T := if (b <? a)%sc then b else a.
Definition sc_max `{Scalar T} (a b : T) : T := if (a <? b)%sc then b else a.

(** *** Exact reals *)

(** Truncation toward zero of a real.  The cast of a value outside the
    range of [int] is undefined in C++; over the reals the model truncates
    without a range. *)
Definition Rtrunc (x : R) : Z :=
  if Rle_dec 0 x then Int_part x else (- Int_part (- x))%Z.

Definition Rltb (a b : R) : bool := if Rlt_dec a b then true else false.
Definition Rleb (a b : R) : bool := if Rle_dec a b then true else false.

(** Division in [R] is total ([x / 0] is a real number, not an infinity or
    a NaN), and a literal such as [0.001f] stands for the exact decimal.
    The statements over this instance therefore carry the hypotheses that
    keep the divisors away from zero (positive masses, distinct centres),
    and the inputs on which the code divides by zero are evaluated on the
    binary32 instance. *)
#[export] Instance R_Scalar : Scalar R := {|
  sc_of_int := IZR;
  sc_to_int := Rtrunc;
  sc_add := Rplus;
  sc_sub := Rminus;
  sc_mul := Rmult;
  sc_div := Rdiv;
  sc_neg := Ropp;
  sc_sqrt := sqrt;
  sc_ltb := Rltb;
  sc_leb := Rleb
|}.

(** *** IEEE-754 binary32 *)

Definition binary32 : Type := spec_float.

Definition b32_prec : Z := 24.
Definition b32_emax : Z := 128.

Definition INT_MIN : Z := (- 2 ^ 31)%Z.
Definition INT_MAX : Z := (2 ^ 31 - 1)%Z.

(** [(int)x] truncates toward zero.  A NaN, an infinity or a value outside
    the range of [int] is undefined behaviour in C++; the model returns
    what the x86 conversion instruction does there, INT_MIN. *)
Definition b32_to_int (x : binary32) : Z :=
  match x with
  | S754_zero _ => 0
  | S754_finite s m e =>
      let a := match e with
               | Zneg p => Z.shiftr (Zpos m) (Zpos p)
               | _ => Z.shiftl (Zpos m) e
               end in
      let z := if s then (- a)%Z else a in
      if (INT_MIN <=? z)%Z && (z <=? INT_MAX)%Z then z else INT_MIN
  | _ => INT_MIN
  end.

#[export] Instance binary32_Scalar : Scalar binary32 := {|
  sc_of_int := fun z => binary_normalize b32_prec b32_emax z 0 false;
  sc_to_int := b32_to_int;
  sc_add := SFadd b32_prec b32_emax;
  sc_sub := SFsub b32_prec b32_emax;
  sc_mul := SFmul b32_prec b32_emax;
  sc_div := SFdiv b32_prec b32_emax;
  sc_neg := SFopp;
  sc_sqrt := SFsqrt b32_prec b32_emax;
  sc_ltb := SFltb;
  sc_leb := SFleb
|}.

(** ** glm::vec3 *)

Record vec3 (T : Type) : Type := Vec3 { vx : T; vy : T; vz : T }.
Arguments Vec3 {T} _ _ _.
Arguments vx {T} _.
Arguments vy {T} _.
Arguments vz {T} _.

Section Glm.
Context `{Scalar T}.
Local Open Scope scalar_scope.

(** [glm::vec3(s)] *)
Definition vsplat (s : T) : vec3 T := Vec3 s s s.

Definition vzero : vec3 T := vsplat (sc_of_int 0).

Definition vadd (a b : vec3 T) : vec3 T :=
  Vec3 (vx a + vx b) (vy a + vy b) (vz a + vz b).

Definition vsub (a b : vec3 T) : vec3 T :=
  Vec3 (vx a - vx b) (vy a - vy b) (vz a - vz b).

(** [v * s] *)
Definition vscale (v : vec3 T) (s : T) : vec3 T :=
  Vec3 (vx v * s) (vy v * s) (vz v * s).

(** [s * v] *)
Definition vscale_l (s : T) (v : vec3 T) : vec3 T :=
  Vec3 (s * vx v) (s * vy v) (s * vz v).

(** [v / s] *)
Definition vdivs (v : vec3 T) (s : T) : vec3 T :=
  Vec3 (vx v / s) (vy v / s) (vz v / s).

(** [glm::dot]: the componentwise product summed left to right. *)
Definition dot (a b : vec3 T) : T :=
  (vx a * vx b + vy a * vy b) + vz a * vz b.

(** [glm::length(v)] is [sqrt(dot(v, v))]. *)
Definition vlength (v : vec3 T) : T := sc_sqrt (dot v v).

(** [glm::inversesqrt(x)] is [1 / sqrt(x)]. *)
Definition inversesqrt (x : T) : T := sc_of_int 1 / sc_sqrt x.

(** [glm::normalize(v)] is [v * inversesqrt(dot(v, v))]. *)
Definition normalize (v : vec3 T) : vec3 T :=
  vscale v (inversesqrt (dot v v)).
End Glm.

(** ** The collision engine *)

Module Collision.
Section Engine.
Context `{Scalar T}.
Local Open Scope scalar_scope.

(** *** Simulation control constants *)

(** [float simulationSpeed = 1.0f], never assigned by the program. *)
Definition simulationSpeed : T := sc_of_int 1.
(** [float G = 6.674f] *)
Definition G : T := lit 6674 1000.
(** [const float MAX_TIMESTEP = 0.001f] *)
Definition MAX_TIMESTEP : T := lit 1 1000.
(** [const int maxTrailLength = 1000] *)
Definition maxTrailLength : nat := 1000.

(** *** class Object3D *)

Record Object3D : Type := mkObject3D {
  position : vec3 T;
  velocity : vec3 T;
  acceleration : vec3 T;
  color : vec3 T;
  radius : T;
  mass : T;
  fixed : bool;
  trail : list (vec3 T)
}.

Definition set_position (o : Object3D) (p : vec3 T) : Object3D :=
  mkObject3D p (velocity o) (acceleration o) (color o) (radius o) (mass o)
             (fixed o) (trail o).
Definition set_velocity (o : Object3D) (v : vec3 T) : Object3D :=
  mkObject3D (position o) v (acceleration o) (color o) (radius o) (mass o)
             (fixed o) (trail o).
Definition set_acceleration (o : Object3D) (a : vec3 T) : Object3D :=
  mkObject3D (position o) (velocity o) a (color o) (radius o) (mass o)
             (fixed o) (trail o).

(** The constructor: the acceleration starts at zero, the trail empty. *)
Definition newObject3D (pos vel : vec3 T) (m : T) (col : vec3 T) (r : T)
    (isFixed : bool) : Object3D :=
  mkObject3D pos vel vzero col r m isFixed [].

(** [void applyForce(const glm::vec3 &force)] *)
Definition applyForce (o : Object3D) (force : vec3 T) : Object3D :=
  if fixed o then o
  else set_acceleration o (vadd (acceleration o) (vdivs force (mass o))).

(** [trailCounter++] on the function-local [static int]: one counter
    shared by every object.  Overflow of a signed int is undefined; the
    model wraps. *)
Definition int_wrap (z : Z) : Z := ((z + 2 ^ 31) mod 2 ^ 32 - 2 ^ 31)%Z.

(** [trail.push_back(p); if (trail.size() > maxTrailLength)
    trail.erase(trail.begin());] *)
Definition trail_push (t : list (vec3 T)) (p : vec3 T) : list (vec3 T) :=
  let t' := t ++ [p] in
  if (maxTrailLength <? length t')%nat then tail t' else t'.

(** The timestep the integrator really uses. *)
Definition actualDt (dt : T) : T := sc_min dt MAX_TIMESTEP.

(** [void updatePosition(float dt)], reading the global [isPaused] and
    updating the static [trailCounter]. *)
Definition updatePosition (isPaused : bool) (dt : T) (trailCounter : Z)
    (o : Object3D) : Z * Object3D :=
  if fixed o || isPaused then (trailCounter, o)
  else
    let dt' := actualDt dt in
    let v := vadd (velocity o) (vscale (acceleration o) dt') in
    let p := vadd (position o) (vscale v dt') in
    let trailCounter := int_wrap (trailCounter + 1) in
    let t := if (Z.rem trailCounter 3 =? 0)%Z
             then trail_push (trail o) p else trail o in
    (trailCounter,
     mkObject3D p v vzero (color o) (radius o) (mass o) (fixed o) t).

(** The distance used by the force law: the Euclidean distance, not
    below [(radius + other.radius) * 2.0f]. *)
Definition gravityDistance (self other : Object3D) : T :=
  let direction := vsub (position other) (position self) in
  let distance := vlength direction in
  let minDistance := (radius self + radius other) * sc_of_int 2 in
  sc_max distance minDistance.

(** The vector [force] built by calculateGravitationalForce. *)
Definition gravityForce (self other : Object3D) : vec3 T :=
  let direction := vsub (position other) (position self) in
  let distance := gravityDistance self other in
  let forceMagnitude := G * mass self * mass other / (distance * distance) in
  vscale (normalize direction) forceMagnitude.

(** [objects[this].calculateGravitationalForce(objects[other])]: the
    test [&other == this] compares the two places in the vector. *)
Definition calculateGravitationalForce (objects : list Object3D)
    (this other : nat) : list Object3D :=
  if (other =? this)%nat then objects
  else match objects !! this, objects !! other with
       | Some self, Some o =>
           <[this := applyForce self (gravityForce self o)]> objects
       | _, _ => objects
       end.

(** [bool CheckCollision(const Object3D &a, const Object3D &b)] *)
Definition CheckCollision (a b : Object3D) : bool :=
  let distance := vlength (vsub (position b) (position a)) in
  distance <=? radius a + radius b.

(** *** ResolveCollision *)

Definition collisionDelta (a b : Object3D) : vec3 T :=
  vsub (position b) (position a).
Definition collisionDist (a b : Object3D) : T :=
  vlength (collisionDelta a b).
Definition collisionOverlap (a b : Object3D) : T :=
  radius a + radius b - collisionDist a b.
(** [(dist > 0.001f) ? glm::normalize(delta) : glm::vec3(1.0f, 0.0f, 0.0f)];
    the threshold is the literal at the scalar type: the stored binary32
    value 8589935 / 2^33 in binary32, exactly 1/1000 over the reals. *)
Definition collisionNormal (a b : Object3D) : vec3 T :=
  if sc_gtb (collisionDist a b) (lit 1 1000)
  then normalize (collisionDelta a b)
  else Vec3 (sc_of_int 1) (sc_of_int 0) (sc_of_int 0).
Definition velAlongNormal (a b : Object3D) : T :=
  dot (vsub (velocity b) (velocity a)) (collisionNormal a b).

(** The positional part: separate the objects along the normal. *)
Definition separate (a b : Object3D) : Object3D * Object3D :=
  let separation := vscale (collisionNormal a b) (collisionOverlap a b) in
  if negb (fixed a) && negb (fixed b) then
    let totalMass := mass a + mass b in
    let ratioA := mass b / totalMass in
    let ratioB := mass a / totalMass in
    (set_position a (vsub (position a) (vscale separation ratioA)),
     set_position b (vadd (position b) (vscale separation ratioB)))
  else if fixed a && negb (fixed b) then
    (a, set_position b (vadd (position b) separation))
  else if negb (fixed a) && fixed b then
    (set_position a (vsub (position a) separation), b)
  else (a, b).

Definition invMass (o : Object3D) : T :=
  if fixed o then sc_of_int 0 else sc_of_int 1 / mass o.

(** The impulse scalar [j], with restitution [e = 0.8f]. *)
Definition impulseScalar (a b : Object3D) : T :=
  let e := lit 8 10 in
  - (sc_of_int 1 + e) * velAlongNormal a b / (invMass a + invMass b).

(** The velocity part, entered when the contact is not separating:
    first the impulse, then the damping by [0.98f]. *)
Definition respond (n : vec3 T) (j : T) (a b : Object3D)
    : Object3D * Object3D :=
  let impulse := vscale_l j n in
  let a1 := if fixed a then a
            else set_velocity a (vsub (velocity a) (vscale impulse (invMass a))) in
  let b1 := if fixed b then b
            else set_velocity b (vadd (velocity b) (vscale impulse (invMass b))) in
  let a2 := if fixed a1 then a1
            else set_velocity a1 (vscale (velocity a1) (lit 98 100)) in
  let b2 := if fixed b1 then b1
            else set_velocity b1 (vscale (velocity b1) (lit 98 100)) in
  (a2, b2).

(** [void ResolveCollision(Object3D &a, Object3D &b)]; the normal, the
    overlap and the velocity along the normal are those of the objects
    as passed in (the separation does not touch velocities). *)
Definition ResolveCollision (a b : Object3D) : Object3D * Object3D :=
  if sc_gtb (collisionOverlap a b) (sc_of_int 0) then
    let '(a', b') := separate a b in
    if sc_gtb (velAlongNormal a b) (sc_of_int 0) then (a', b')
    else respond (collisionNormal a b) (impulseScalar a b) a' b'
  else (a, b).

(** *** The physics block of main's frame loop *)

Record World : Type := mkWorld {
  objects : list Object3D;
  isPaused : bool;
  trailCounter : Z
}.

(** [int physicsSteps = std::max(1, (int)(deltaTime * simulationSpeed /
    MAX_TIMESTEP));] *)
Definition physicsSteps (deltaTime : T) : Z :=
  Z.max 1 (sc_to_int (deltaTime * simulationSpeed / MAX_TIMESTEP)).

(** [physicsTimeStep = deltaTime * simulationSpeed / physicsSteps;] *)
Definition physicsTimeStep (deltaTime : T) : T :=
  deltaTime * simulationSpeed / sc_of_int (physicsSteps deltaTime).

(** [for (auto &obj : objects) obj.acceleration = glm::vec3(0.0f);] *)
Definition resetAccelerations (objs : list Object3D) : list Object3D :=
  map (fun o => set_acceleration o vzero) objs.

(** The double loop over [i] and [j] calling
    calculateGravitationalForce. *)
Definition gravityRow (objs : list Object3D) (i : nat) : list Object3D :=
  foldl (fun objs j => calculateGravitationalForce objs i j)
        objs (seq 0 (length objs)).
Definition gravityPass (objs : list Object3D) : list Object3D :=
  foldl gravityRow objs (seq 0 (length objs)).

(** [for (auto &obj : objects) obj.updatePosition(physicsTimeStep);] *)
Fixpoint updatePass (isPaused : bool) (dt : T) (trailCounter : Z)
    (objs : list Object3D) : Z * list Object3D :=
  match objs with
  | [] => (trailCounter, [])
  | o :: rest =>
      let '(tc, o') := updatePosition isPaused dt trailCounter o in
      let '(tc', rest') := updatePass isPaused dt tc rest in
      (tc', o' :: rest')
  end.

(** One pair of the collision loop. *)
Definition collidePair (objs : list Object3D) (i j : nat)
    : list Object3D :=
  match objs !! i, objs !! j with
  | Some a, Some b =>
      if CheckCollision a b then
        let '(a', b') := ResolveCollision a b in
        <[j := b']> (<[i := a']> objs)
      else objs
  | _, _ => objs
  end.

(** [for i: for j = i + 1 ...] *)
Definition collisionRow (objs : list Object3D) (i : nat)
    : list Object3D :=
  foldl (fun objs j => collidePair objs i j)
        objs (seq (S i) (length objs - S i)).
Definition collisionPass (objs : list Object3D) : list Object3D :=
  foldl collisionRow objs (seq 0 (length objs)).

(** The body of [for (int step = 0; step < physicsSteps; step++)]:
  first the accelerations are reset, the forces accumulated and the
  positions updated, then the collisions are detected and resolved. *)
Definition integratePhase (dt : T) (w : World) : World :=
  let objs := gravityPass (resetAccelerations (objects w)) in
  let '(tc, objs) := updatePass (isPaused w) dt (trailCounter w) objs in
  mkWorld objs (isPaused w) tc.

Definition collisionPhase (w : World) : World :=
  mkWorld (collisionPass (objects w)) (isPaused w) (trailCounter w).

Definition physicsStep (dt : T) (w : World) : World :=
  collisionPhase (integratePhase dt w).

(** One frame with [deltaTime] between it and the previous frame. *)
Definition frame (deltaTime : T) (w : World) : World :=
  if isPaused w then w
  else Nat.iter (Z.to_nat (physicsSteps deltaTime))
                (physicsStep (physicsTimeStep deltaTime)) w.

(** What reaches the simulation: a frame, or the space key, which
    toggles the pause. *)
Inductive Event : Type :=
  | Frame (deltaTime : T)
  | KeySpace.

Definition handle (w : World) (ev : Event) : World :=
  match ev with
  | Frame deltaTime => frame deltaTime w
  | KeySpace => mkWorld (objects w) (negb (isPaused w)) (trailCounter w)
  end.

Definition run (w : World) (evs : list Event) : World :=
  foldl handle w evs.

(** The simulated time one frame adds to a moving body: the sum of the
    timesteps the integrator uses over the substeps. *)
Definition simulatedTime (deltaTime : T) : T :=
  Nat.iter (Z.to_nat (physicsSteps deltaTime))
           (fun t => t + actualDt (physicsTimeStep deltaTime))
           (sc_of_int 0).

(** Total momentum [sum of mass * velocity]. *)
Definition momentum (objs : list Object3D) : vec3 T :=
  foldl (fun p o => vadd p (vscale (velocity o) (mass o))) vzero objs.
End Engine.

Arguments Object3D T : clear implicits.
Arguments World T : clear implicits.
Arguments Event T : clear implicits.
End Collision.


(** ** The solar-system variant *)

(** The same class without the [fixed] flag and without collisions; the
    trail grows on every integration call and is capped at 500.  The
    gravitational constant is a [double], so the force magnitude is
    computed in double precision and narrowed to [float]: [D] is the type
    of doubles, [widen] and [narrow] the two conversions. *)
Module SolarSystem.
Section Engine.
Context `{Scalar T} `{Scalar D} (widen : T -> D) (narrow : D -> T).
(** [const double G = 1.993560809749174e-44] *)
Variable G : D.
Local Open Scope scalar_scope.

(** [float simulationSpeed = 1.0f] *)
Definition simulationSpeed : T := sc_of_int 1.
(** [const int maxTrailLength = 500] *)
Definition maxTrailLength : nat := 500.

Record Object3D : Type := mkObject3D {
  position : vec3 T;
  velocity : vec3 T;
  acceleration : vec3 T;
  color : vec3 T;
  radius : T;
  mass : T;
  trail : list (vec3 T)
}.

(** [void applyForce(glm::vec3 force)] *)
Definition applyForce (o : Object3D) (force : vec3 T) : Object3D :=
  mkObject3D (position o) (velocity o)
             (vadd (acceleration o) (vdivs force (mass o)))
             (color o) (radius o) (mass o) (trail o).

(** [trail.push_back(p); if (trail.size() > maxTrailLength)
    trail.erase(trail.begin());] *)
Definition trail_push (t : list (vec3 T)) (p : vec3 T) : list (vec3 T) :=
  let t' := t ++ [p] in
  if (maxTrailLength <? length t')%nat then tail t' else t'.

(** [void updatePosition(float dt)] *)
Definition updatePosition (isPaused : bool) (dt : T) (o : Object3D)
    : Object3D :=
  if isPaused then o
  else
    let v := vadd (velocity o) (vscale (acceleration o) dt) in
    let p := vadd (position o) (vscale v dt) in
    mkObject3D p v vzero (color o) (radius o) (mass o)
               (trail_push (trail o) p).

Definition gravityForce (self other : Object3D) : vec3 T :=
  let direction := vsub (position other) (position self) in
  let distance := vlength direction in
  let distance := sc_max distance (radius self + radius other) in
  let forceMagnitude :=
    narrow (G * widen (mass self) * widen (mass other)
            / widen (distance * distance)) in
  vscale (normalize direction) forceMagnitude.

(** [objects[this].calculateGravitationalForce(objects[other])] *)
Definition calculateGravitationalForce (objects : list Object3D)
    (this other : nat) : list Object3D :=
  if (other =? this)%nat then objects
  else match objects !! this, objects !! other with
       | Some self, Some o =>
           <[this := applyForce self (gravityForce self o)]> objects
       | _, _ => objects
       end.

Record World : Type := mkWorld {
  objects : list Object3D;
  isPaused : bool
}.

Definition gravityRow (objs : list Object3D) (i : nat) : list Object3D :=
  foldl (fun objs j => calculateGravitationalForce objs i j)
        objs (seq 0 (length objs)).
Definition gravityPass (objs : list Object3D) : list Object3D :=
  foldl gravityRow objs (seq 0 (length objs)).

(** The physics block of the frame loop:
    [obj.updatePosition(deltaTime * simulationSpeed)] on every object
    after the force loop. *)
Definition frame (deltaTime : T) (w : World) : World :=
  if isPaused w then w
  else
    let objs := gravityPass (objects w) in
    mkWorld (map (updatePosition (isPaused w) (deltaTime * simulationSpeed))
                 objs)
            (isPaused w).

Inductive Event : Type :=
| Frame (deltaTime : T)
| KeySpace.

Definition handle (w : World) (ev : Event) : World :=
  match ev with
  | Frame deltaTime => frame deltaTime w
  | KeySpace => mkWorld (objects w) (negb (isPaused w))
  end.

Definition run (w : World) (evs : list Event) : World :=
  foldl handle w evs.
End Engine.

Arguments Object3D T : clear implicits.
Arguments World T : clear implicits.
Arguments Event T : clear implicits.
End SolarSystem.


(** ** Notions used by the properties *)

Section Notions.
Context `{Scalar T}.

(** An operation taking [o] to [o'] keeps the [fixed] flag and, on a fixed
    object, the position and the velocity. *)
Definition keepsFixed (o o' : Collision.Object3D T) : Prop :=
  Collision.fixed o' = Collision.fixed o /\
  (Collision.fixed o = true ->
   Collision.position o' = Collision.position o /\
   Collision.velocity o' = Collision.velocity o).

(** The trail bound of the collision engine, and an operation keeping it. *)
Definition trailBounded (o : Collision.Object3D T) : Prop :=
  length (Collision.trail o) <= Collision.maxTrailLength.
Definition keepsTrailBound (o o' : Collision.Object3D T) : Prop :=
  trailBounded o -> trailBounded o'.

(** The trail bound of the solar-system variant. *)
Definition solarTrailBounded (o : SolarSystem.Object3D T) : Prop :=
  length (SolarSystem.trail o) <= SolarSystem.maxTrailLength.

(** Everything but the acceleration is the same. *)
Definition sameButAcceleration (o o' : Collision.Object3D T) : Prop :=
  o' = Collision.set_acceleration o (Collision.acceleration o').

(** What the [j] loop of the force pass does to object [i], reading the
    other objects from [objs]. *)
Definition accumulate (objs : list (Collision.Object3D T)) (i : nat)
    (self : Collision.Object3D T) (js : list nat) : Collision.Object3D T :=
  foldl (fun self j =>
           if (j =? i)%nat then self
           else match objs !! j with
                | Some o =>
                    Collision.applyForce self (Collision.gravityForce self o)
                | None => self
                end)
        self js.

(** No pair of the collision loop is in contact. *)
Definition noCollision (objs : list (Collision.Object3D T)) : Prop :=
  forall i j a b,
    i < j -> objs !! i = Some a -> objs !! j = Some b ->
    Collision.CheckCollision a b = false.

(** No collision occurs during the frame: in each of its substeps the
    collision loop finds no pair in contact after the integration. *)
Definition noCollisionDuring (deltaTime : T) (w : Collision.World T) : Prop :=
  forall k,
    k < Z.to_nat (Collision.physicsSteps deltaTime) ->
    noCollision
      (Collision.objects
         (Collision.integratePhase (Collision.physicsTimeStep deltaTime)
            (Nat.iter k
               (Collision.physicsStep (Collision.physicsTimeStep deltaTime))
               w))).
End Notions.


(** ** Concrete bodies and worlds in binary32 *)

Definition f32 (z : Z) : binary32 := sc_of_int z.
Definition v32 (x y z : Z) : vec3 binary32 := Vec3 (f32 x) (f32 y) (f32 z).

(** The central star of CreateObjects: fixed, mass 5000, radius 1.5. *)
Definition sun : Collision.Object3D binary32 :=
  Collision.newObject3D (v32 0 0 0) (v32 0 0 0) (f32 5000)
                        (Vec3 (f32 1) (lit 9 10) (lit 3 10)) (lit 15 10) true.

(** A second fixed body, overlapping the star. *)
Definition anchor : Collision.Object3D binary32 :=
  Collision.newObject3D (v32 2 0 0) (v32 0 0 0) (f32 100)
                        (v32 1 1 1) (f32 1) true.

(** A movable body of mass [m] and radius 1 at [(x, 0, 0)] with velocity
    [(vx_, vy_, 0)]. *)
Definition ball (x : Z) (vx_ vy_ : Z) (m : Z) : Collision.Object3D binary32 :=
  Collision.newObject3D (v32 x 0 0) (v32 vx_ vy_ 0) (f32 m)
                        (v32 1 1 1) (f32 1) false.

(** One ball moving along [x] with unit speed. *)
Definition oneBall : Collision.World binary32 :=
  Collision.mkWorld [ball 0 1 0 10] false 0.

(** Two balls at rest overlapping each other and a third one far away. *)
Definition threeBalls : Collision.World binary32 :=
  Collision.mkWorld [ball 0 0 0 10; ball 1 0 0 10; ball 10 0 0 10] false 0.

(** The scenario of two equal balls at rest, ten units apart. *)
Definition equalBalls : Collision.World binary32 :=
  Collision.mkWorld [ball 0 0 0 10; ball 10 0 0 10] false 0.


(** ** The force law in the words of the specification *)

Section SpecDefs.
Local Open Scope R_scope.
(** The unit vector from [p] toward [q]. *)
Definition unitToward (p q : vec3 R) : vec3 R :=
  vscale (vsub q p) (1 / vlength (vsub q p)).

(** The Euclidean distance between the centres, not below the floor
    [(r_i + r_j) * 2]. *)
Definition clampedDistance (a b : Collision.Object3D R) : R :=
  Rmax (vlength (vsub (Collision.position b) (Collision.position a)))
       ((Collision.radius a + Collision.radius b) * 2).

(** [G * m_i * m_j / d^2 / m_i] *)
Definition pullMagnitude (a b : Collision.Object3D R) : R :=
  Collision.G * Collision.mass a * Collision.mass b
  / (clampedDistance a b * clampedDistance a b) / Collision.mass a.

Definition specPull (a b : Collision.Object3D R) : vec3 R :=
  vscale (unitToward (Collision.position a) (Collision.position b))
         (pullMagnitude a b).
End SpecDefs.


(** ** Concrete bodies and worlds over the reals *)

Section RealBodies.
Local Open Scope R_scope.

(** A movable body of mass [m] and radius [r] at [(x, 0, 0)] with velocity
    [(vx_, vy_, 0)]. *)
Definition rball (x vx_ vy_ m r : R) : Collision.Object3D R :=
  Collision.newObject3D (Vec3 x 0 0) (Vec3 vx_ vy_ 0) m (Vec3 1 1 1) r false.

(** Two balls at rest, ten units apart. *)
Definition twoBalls : Collision.World R :=
  Collision.mkWorld [rball 0 0 0 1 1; rball 10 0 0 3 1] false 0%Z.
End RealBodies.


(** ** Notions used by the further properties *)

Section DriverNotions.
Context `{Scalar T}.

(** The number of objects the integrator moves. *)
Fixpoint movableCount (objs : list (Collision.Object3D T)) : nat :=
  match objs with
  | [] => 0
  | o :: rest =>
      (if Collision.fixed o then 0 else 1) + movableCount rest
  end.

(** An operation keeps the [fixed] flag and the trail. *)
Definition keepsShape (o o' : Collision.Object3D T) : Prop :=
  Collision.fixed o' = Collision.fixed o /\
  Collision.trail o' = Collision.trail o.
End DriverNotions.

Section SumNotions.
Local Open Scope R_scope.

(** The sum of a list of reals. *)
Definition Rsum (l : list R) : R := foldr Rplus 0 l.

(** The force the force pass applies to object [i] on account of object
    [j], read from the objects [objs]. *)
Definition pairForce (objs : list (Collision.Object3D R)) (i j : nat)
    : vec3 R :=
  if (j =? i)%nat then Vec3 0 0 0
  else match objs !! i, objs !! j with
       | Some a, Some b => Collision.gravityForce a b
       | _, _ => Vec3 0 0 0
       end.

(** The sum of [mass * acceleration] in the coordinate [c] (one of [vx],
    [vy], [vz]). *)
Definition massAcc (c : vec3 R -> R) (objs : list (Collision.Object3D R))
    : R :=
  Rsum (map (fun o => c (Collision.acceleration o) * Collision.mass o) objs).

(** An operation keeps the [fixed] flag and the mass. *)
Definition keepsMass (o o' : Collision.Object3D R) : Prop :=
  Collision.fixed o' = Collision.fixed o /\
  Collision.mass o' = Collision.mass o.
End SumNotions.



(** ** Notions of the solar-system variant *)

Section SolarNotions.
Context `{Scalar T}.
(** Total momentum in the solar-system variant. *)
Definition solarMomentum (objs : list (SolarSystem.Object3D T)) : vec3 T :=
  foldl (fun p o => vadd p (vscale (SolarSystem.velocity o)
                                   (SolarSystem.mass o)))
        vzero objs.

(** Everything but the acceleration is the same. *)
Definition solarSameButAcceleration (o o' : SolarSystem.Object3D T) : Prop :=
  o' = SolarSystem.mkObject3D
         (SolarSystem.position o) (SolarSystem.velocity o)
         (SolarSystem.acceleration o') (SolarSystem.color o)
         (SolarSystem.radius o) (SolarSystem.mass o) (SolarSystem.trail o).

(** A trail that ends with the current position. *)
Definition solarTrailCurrent (o : SolarSystem.Object3D T) : Prop :=
  last (SolarSystem.trail o) = Some (SolarSystem.position o).
End SolarNotions.

Section SolarExactNotions.
Local Open Scope R_scope.
(** The solar-system variant over the reals: [float] and [double] are
    both [R], the conversions are the identity. *)
Definition solarFrame (G : R) : R -> SolarSystem.World R -> SolarSystem.World R :=
  SolarSystem.frame (fun x : R => x) (fun x : R => x) G.
Definition solarRun (G : R)
  : SolarSystem.World R -> list (SolarSystem.Event R) -> SolarSystem.World R :=
  SolarSystem.run (fun x : R => x) (fun x : R => x) G.
Definition solarForce (G : R) (a b : SolarSystem.Object3D R) : vec3 R :=
  SolarSystem.gravityForce (fun x : R => x) (fun x : R => x) G a b.

(** The force the force pass applies to object [i] on account of [j]. *)
Definition solarPairForce (G : R) (objs : list (SolarSystem.Object3D R))
    (i j : nat) : vec3 R :=
  if (j =? i)%nat then Vec3 0 0 0
  else match objs !! i, objs !! j with
       | Some a, Some b => solarForce G a b
       | _, _ => Vec3 0 0 0
       end.

(** The sum of [mass * acceleration] in the coordinate [c]. *)
Definition solarMassAcc (c : vec3 R -> R)
    (objs : list (SolarSystem.Object3D R)) : R :=
  Rsum (map (fun o => c (SolarSystem.acceleration o) * SolarSystem.mass o)
            objs).

(** A body of positive mass whose acceleration is zero, as it is after
    construction and after every integration. *)
Definition solarAtRest (o : SolarSystem.Object3D R) : Prop :=
  0 < SolarSystem.mass o /\ SolarSystem.acceleration o = Vec3 0 0 0.

(** No two bodies have the same centre. *)
Definition solarApart (objs : list (SolarSystem.Object3D R)) : Prop :=
  forall (i j : nat) a b,
    i <> j -> objs !! i = Some a -> objs !! j = Some b ->
    SolarSystem.position a <> SolarSystem.position b.

(** The bodies are apart whenever an event of the run is handled. *)
Fixpoint solarApartDuring (G : R) (w : SolarSystem.World R)
    (evs : list (SolarSystem.Event R)) : Prop :=
  match evs with
  | [] => True
  | ev :: evs =>
      solarApart (SolarSystem.objects w) /\
      solarApartDuring G
        (SolarSystem.handle (fun x : R => x) (fun x : R => x) G w ev) evs
  end.
End SolarExactNotions.

(** Two bodies of the solar-system variant, in binary32 and over the
    reals. *)
Definition solarPair : SolarSystem.World binary32 :=
  SolarSystem.mkWorld
    [SolarSystem.mkObject3D (v32 0 0 0) (v32 0 0 0) (v32 0 0 0)
       (v32 1 1 1) (f32 1) (f32 10) [];
     SolarSystem.mkObject3D (v32 5 0 0) (v32 0 1 0) (v32 0 0 0)
       (v32 1 1 1) (f32 1) (f32 2) []]
    false.

Section SolarRealBodies.
Local Open Scope R_scope.
Definition rplanets : SolarSystem.World R :=
  SolarSystem.mkWorld
    [SolarSystem.mkObject3D (Vec3 0 0 0) (Vec3 0 0 0) (Vec3 0 0 0)
       (Vec3 1 1 1) 1 10 [];
     SolarSystem.mkObject3D (Vec3 5 0 0) (Vec3 0 1 0) (Vec3 0 0 0)
       (Vec3 1 1 1) 1 2 []]
    false.
End SolarRealBodies.


(** ** Stored values of binary32 literals *)

Section StoredLiterals.
Local Open Scope R_scope.

(** The number a finite binary32 value stands for, as a fraction of
    integers (zero for the other values). *)
Definition b32_fraction (x : binary32) : Z * Z :=
  match x with
  | S754_finite s m e =>
      let n := if s then Z.neg m else Z.pos m in
      match e with
      | Z.neg p => (n, 2 ^ Z.pos p)%Z
      | _ => (n * 2 ^ e, 1)%Z
      end
  | _ => (0, 1)%Z
  end.

Definition b32_to_R (x : binary32) : R :=
  IZR (fst (b32_fraction x)) / IZR (snd (b32_fraction x)).

(** The value of the literal [0.001f] of ResolveCollision, the binary32
    number next to one thousandth; it is a little larger than 1/1000. *)
Definition milli32 : R := b32_to_R (lit 1 1000).
End StoredLiterals.

(** ** Bodies of the edge cases in binary32 *)

(** A movable body of mass 1 and radius 0.0006 at [(x / 10000, 0, 0)],
    at rest. *)
Definition speck (x : Z) : Collision.Object3D binary32 :=
  Collision.newObject3D (Vec3 (lit x 10000) (f32 0) (f32 0)) (v32 0 0 0)
                        (f32 1) (v32 1 1 1) (lit 6 10000) false.

(** Two movable balls with the same centre and a third one ten units
    away. *)
Definition coincidentBalls : Collision.World binary32 :=
  Collision.mkWorld [ball 0 0 0 10; ball 0 1 0 10; ball 10 0 0 10] false 0.

(** The vector whose three components are NaN. *)
Definition nan3 : vec3 binary32 := Vec3 S754_nan S754_nan S754_nan.



(** ** The sphere mesh ([GenerateSphere]) *)

(** [int] values are modelled in [Z]: every value the function computes
    lies between 0 and [(stacks + 1) * (sectors + 1)], so that the
    arithmetic is exact whenever that product is an [int].  The two output
    vectors are passed in and returned; [push_back] appends. *)
Module Mesh.
Section Sphere.
Context `{Scalar T} `{Scalar D} (widen : T -> D) (narrow : D -> T).
(** [cosf], [sinf] and the [double] constant [M_PI] of <cmath>. *)
Variables (cosf sinf : T -> T) (M_PI : D).
Local Open Scope scalar_scope.

(** [float sectorStep = 2 * M_PI / sectors] *)
Definition sectorStep (sectors : Z) : T :=
  narrow (sc_of_int 2 * M_PI / sc_of_int sectors).
(** [float stackStep = M_PI / stacks] *)
Definition stackStep (stacks : Z) : T :=
  narrow (M_PI / sc_of_int stacks).
(** [stackAngle = M_PI / 2 - i * stackStep] *)
Definition stackAngle (stacks i : Z) : T :=
  narrow (M_PI / sc_of_int 2 - widen (sc_of_int i * stackStep stacks)).

(** The body of [for (int i = 0; i <= stacks; ++i)] of the vertex loop,
    with its inner loop over [j]. *)
Definition vertexRow (radius : T) (sectors stacks : Z)
    (vertices : list T) (i : Z) : list T :=
  let lengthInv := sc_of_int 1 / radius in
  let xy := radius * cosf (stackAngle stacks i) in
  let z := radius * sinf (stackAngle stacks i) in
  foldl (fun vertices j =>
           let sectorAngle := sc_of_int j * sectorStep sectors in
           let x := xy * cosf sectorAngle in
           let y := xy * sinf sectorAngle in
           let vertices := vertices ++ [x; y; z] in
           let nx := x * lengthInv in
           let ny := y * lengthInv in
           let nz := z * lengthInv in
           vertices ++ [nx; ny; nz])
        vertices (seqZ 0 (sectors + 1)).

Definition sphereVertices (radius : T) (sectors stacks : Z)
    (vertices : list T) : list T :=
  foldl (vertexRow radius sectors stacks) vertices (seqZ 0 (stacks + 1)).

(** The body of [for (int j = 0; j < sectors; ++j, ++k1, ++k2)]. *)
Definition indexCell (stacks i : Z) (st : Z * Z * list Z) (j : Z)
    : Z * Z * list Z :=
  let '(k1, k2, indices) := st in
  let indices :=
    if negb (i =? 0)%Z then indices ++ [k1; k2; (k1 + 1)%Z] else indices in
  let indices :=
    if negb (i =? stacks - 1)%Z
    then indices ++ [(k1 + 1)%Z; k2; (k2 + 1)%Z] else indices in
  ((k1 + 1)%Z, (k2 + 1)%Z, indices).

(** The body of [for (int i = 0; i < stacks; ++i)] of the index loop. *)
Definition indexRow (sectors stacks : Z) (indices : list Z) (i : Z)
    : list Z :=
  let k1 := (i * (sectors + 1))%Z in
  let k2 := (k1 + sectors + 1)%Z in
  snd (foldl (indexCell stacks i) (k1, k2, indices) (seqZ 0 sectors)).

Definition sphereIndices (sectors stacks : Z) (indices : list Z) : list Z :=
  foldl (indexRow sectors stacks) indices (seqZ 0 stacks).

(** [void GenerateSphere(std::vector<float> &vertices,
    std::vector<unsigned int> &indices, float radius, int sectors,
    int stacks)] *)
Definition GenerateSphere (vertices : list T) (indices : list Z)
    (radius : T) (sectors stacks : Z) : list T * list Z :=
  (sphereVertices radius sectors stacks vertices,
   sphereIndices sectors stacks indices).
End Sphere.
End Mesh.

Section MeshNotions.
Context `{Scalar T} `{Scalar D} (widen : T -> D) (narrow : D -> T).
Variables (cosf sinf : T -> T) (M_PI : D).
Local Open Scope scalar_scope.

(** The six floats of the vertex of stack [i] and sector [j]. *)
Definition sphereVertex (radius : T) (sectors stacks i j : Z) : list T :=
  let lengthInv := sc_of_int 1 / radius in
  let xy := radius * cosf (Mesh.stackAngle widen narrow M_PI stacks i) in
  let z := radius * sinf (Mesh.stackAngle widen narrow M_PI stacks i) in
  let sectorAngle := sc_of_int j * Mesh.sectorStep narrow M_PI sectors in
  let x := xy * cosf sectorAngle in
  let y := xy * sinf sectorAngle in
  [x; y; z; x * lengthInv; y * lengthInv; z * lengthInv].

(** The vertex records of the mesh, stack by stack. *)
Definition sphereRecords (radius : T) (sectors stacks : Z) : list (list T) :=
  concat (map (fun i => map (sphereVertex radius sectors stacks i)
                            (seqZ 0 (sectors + 1)))
              (seqZ 0 (stacks + 1))).

(** The [k]-th record of six floats of a vertex buffer, as the vertex
    attributes of [main] read it (stride of six floats). *)
Definition vertexRecord (vertices : list T) (k : nat) : list T :=
  take 6 (drop (6 * k) vertices).
End MeshNotions.

Section MeshExact.
Local Open Scope R_scope.
(** [GenerateSphere] over the reals, called on empty vectors as [main]
    does. *)
Definition sphereMesh (radius : R) (sectors stacks : Z) : list R * list Z :=
  Mesh.GenerateSphere (fun x : R => x) (fun x : R => x) cos sin PI
                      [] [] radius sectors stacks.
End MeshExact.


(** * Properties *)

Import Collision.

(** ** Relations kept by every pass of the collision engine *)

(** A relation between an object before and after an operation that is
    reflexive, transitive and kept by every write to the acceleration is
    kept by the force loop; if the integrator and the resolver keep it too,
    whole frames and runs keep it, object by object. *)
Section Pointwise.
Context `{Scalar T}.
Variable Rel : relation (Object3D T).
Hypothesis Rel_refl : Reflexive Rel.
Hypothesis Rel_trans : Transitive Rel.
Hypothesis Rel_acc : forall o a, Rel o (set_acceleration o a).

Lemma pw_insert (objs : list (Object3D T)) i o o' :
  objs !! i = Some o -> Rel o o' -> Forall2 Rel objs (<[i := o']> objs).
Proof.
  intros Hi Hr.
  rewrite <- (list_insert_id objs i o Hi) at 1.
  apply Forall2_insert; [reflexivity | exact Hr].
Qed.

Lemma pw_foldl {A} (f : list (Object3D T) -> A -> list (Object3D T)) :
  (forall l a, Forall2 Rel l (f l a)) ->
  forall xs l, Forall2 Rel l (foldl f l xs).
Proof.
  intros Hf xs. induction xs as [|x xs IH]; intros l; simpl.
  - reflexivity.
  - etransitivity; [apply (Hf l x) | apply IH].
Qed.

Lemma pw_applyForce (o : Object3D T) force : Rel o (applyForce o force).
Proof.
  unfold applyForce. destruct (fixed o); [reflexivity | apply Rel_acc].
Qed.

Lemma pw_calculateGravitationalForce (objs : list (Object3D T)) i j :
  Forall2 Rel objs (calculateGravitationalForce objs i j).
Proof.
  unfold calculateGravitationalForce.
  destruct (j =? i)%nat; [reflexivity|].
  destruct (objs !! i) as [a|] eqn:Ha; [|reflexivity].
  destruct (objs !! j) as [b|]; [|reflexivity].
  eapply pw_insert; [exact Ha | apply pw_applyForce].
Qed.

Lemma pw_gravityPass (objs : list (Object3D T)) :
  Forall2 Rel objs (gravityPass objs).
Proof.
  unfold gravityPass. apply pw_foldl. intros l i.
  unfold gravityRow. apply pw_foldl. intros l' j.
  apply pw_calculateGravitationalForce.
Qed.

Lemma pw_resetAccelerations (objs : list (Object3D T)) :
  Forall2 Rel objs (resetAccelerations objs).
Proof.
  unfold resetAccelerations.
  induction objs as [|o objs IH]; simpl; constructor; auto.
Qed.

Lemma pw_updatePass isPaused dt :
  (forall tc o, Rel o (updatePosition isPaused dt tc o).2) ->
  forall (objs : list (Object3D T)) tc,
    Forall2 Rel objs (updatePass isPaused dt tc objs).2.
Proof.
  intros Hu objs. induction objs as [|o objs IH]; intros tc; simpl.
  - constructor.
  - specialize (Hu tc o).
    destruct (updatePosition isPaused dt tc o) as [tc1 o'].
    specialize (IH tc1).
    destruct (updatePass isPaused dt tc1 objs) as [tc2 objs'].
    simpl in *. constructor; assumption.
Qed.

Lemma pw_collidePair :
  (forall a b, Rel a (ResolveCollision a b).1 /\
               Rel b (ResolveCollision a b).2) ->
  forall (objs : list (Object3D T)) i j,
    Forall2 Rel objs (collidePair objs i j).
Proof.
  intros Hr objs i j. unfold collidePair.
  destruct (objs !! i) as [a|] eqn:Ha; [|reflexivity].
  destruct (objs !! j) as [b|] eqn:Hb; [|reflexivity].
  destruct (CheckCollision a b); [|reflexivity].
  destruct (Hr a b) as [Hra Hrb].
  destruct (ResolveCollision a b) as [a' b']. simpl in *.
  apply Forall2_same_length_lookup. split.
  - rewrite !length_insert. reflexivity.
  - intros k x y Hx Hy.
    destruct (decide (k = j)) as [->|Hkj].
    + rewrite list_lookup_insert_eq in Hy
        by (rewrite length_insert; eapply lookup_lt_Some; eauto).
      congruence.
    + rewrite list_lookup_insert_ne in Hy by congruence.
      destruct (decide (k = i)) as [->|Hki].
      * rewrite list_lookup_insert_eq in Hy
          by (eapply lookup_lt_Some; eauto).
        congruence.
      * rewrite list_lookup_insert_ne in Hy by congruence.
        assert (x = y) as -> by congruence. reflexivity.
Qed.

Lemma pw_collisionPass :
  (forall a b, Rel a (ResolveCollision a b).1 /\
               Rel b (ResolveCollision a b).2) ->
  forall objs : list (Object3D T), Forall2 Rel objs (collisionPass objs).
Proof.
  intros Hr objs. unfold collisionPass. apply pw_foldl. intros l i.
  unfold collisionRow. apply pw_foldl. intros l' j.
  apply pw_collidePair, Hr.
Qed.

Lemma pw_integratePhase dt (w : World T) :
  (forall tc o, Rel o (updatePosition (isPaused w) dt tc o).2) ->
  Forall2 Rel (objects w) (objects (integratePhase dt w)).
Proof.
  intros Hu. unfold integratePhase.
  pose proof (pw_updatePass (isPaused w) dt Hu
                (gravityPass (resetAccelerations (objects w)))
                (trailCounter w)) as Hup.
  destruct (updatePass _ _ _ _) as [tc objs]. simpl in *.
  etransitivity; [apply pw_resetAccelerations|].
  etransitivity; [apply pw_gravityPass | exact Hup].
Qed.

Hypothesis Rel_update :
  forall isPaused dt tc o, Rel o (updatePosition isPaused dt tc o).2.
Hypothesis Rel_resolve :
  forall a b, Rel a (ResolveCollision a b).1 /\
              Rel b (ResolveCollision a b).2.

Lemma pw_physicsStep dt (w : World T) :
  Forall2 Rel (objects w) (objects (physicsStep dt w)).
Proof.
  unfold physicsStep, collisionPhase. simpl.
  etransitivity; [apply pw_integratePhase; intros; apply Rel_update|].
  apply pw_collisionPass, Rel_resolve.
Qed.

Lemma pw_iter_physicsStep dt n (w : World T) :
  Forall2 Rel (objects w) (objects (Nat.iter n (physicsStep dt) w)).
Proof.
  induction n as [|n IH]; simpl.
  - reflexivity.
  - etransitivity; [exact IH | apply pw_physicsStep].
Qed.

Lemma pw_frame dt (w : World T) :
  Forall2 Rel (objects w) (objects (frame dt w)).
Proof.
  unfold frame. destruct (isPaused w); [reflexivity|].
  apply pw_iter_physicsStep.
Qed.

Lemma pw_run (evs : list (Event T)) (w : World T) :
  Forall2 Rel (objects w) (objects (run w evs)).
Proof.
  unfold run. revert w.
  induction evs as [|ev evs IH]; intros w; simpl.
  - reflexivity.
  - etransitivity; [|apply IH].
    destruct ev; simpl; [apply pw_frame | reflexivity].
Qed.
End Pointwise.


(** ** What ResolveCollision can change *)

Section ResolveFacts.
Context `{Scalar T}.
Implicit Types a b : Object3D T.

Lemma separate_fixed a b :
  fixed (separate a b).1 = fixed a /\ fixed (separate a b).2 = fixed b.
Proof.
  unfold separate. destruct (fixed a) eqn:Ha, (fixed b) eqn:Hb; simpl; auto.
Qed.

Lemma separate_velocity a b :
  velocity (separate a b).1 = velocity a /\
  velocity (separate a b).2 = velocity b.
Proof.
  unfold separate. destruct (fixed a), (fixed b); simpl; auto.
Qed.

Lemma separate_trail a b :
  trail (separate a b).1 = trail a /\ trail (separate a b).2 = trail b.
Proof.
  unfold separate. destruct (fixed a), (fixed b); simpl; auto.
Qed.

Lemma separate_fixed_position_l a b :
  fixed a = true -> position (separate a b).1 = position a.
Proof.
  intros Ha. unfold separate. rewrite Ha. destruct (fixed b); reflexivity.
Qed.

Lemma separate_fixed_position_r a b :
  fixed b = true -> position (separate a b).2 = position b.
Proof.
  intros Hb. unfold separate. rewrite Hb. destruct (fixed a); reflexivity.
Qed.

Lemma separate_both_fixed a b :
  fixed a = true -> fixed b = true -> separate a b = (a, b).
Proof. intros Ha Hb. unfold separate. rewrite Ha, Hb. reflexivity. Qed.

Lemma respond_fixed n j a b :
  fixed (respond n j a b).1 = fixed a /\ fixed (respond n j a b).2 = fixed b.
Proof.
  unfold respond. destruct (fixed a) eqn:Ha, (fixed b) eqn:Hb; simpl;
    rewrite ?Ha, ?Hb; simpl; auto.
Qed.

Lemma respond_position n j a b :
  position (respond n j a b).1 = position a /\
  position (respond n j a b).2 = position b.
Proof.
  unfold respond. destruct (fixed a) eqn:Ha, (fixed b) eqn:Hb; simpl;
    rewrite ?Ha, ?Hb; simpl; auto.
Qed.

Lemma respond_trail n j a b :
  trail (respond n j a b).1 = trail a /\ trail (respond n j a b).2 = trail b.
Proof.
  unfold respond. destruct (fixed a) eqn:Ha, (fixed b) eqn:Hb; simpl;
    rewrite ?Ha, ?Hb; simpl; auto.
Qed.

Lemma respond_fixed_l n j a b :
  fixed a = true -> (respond n j a b).1 = a.
Proof. intros Ha. unfold respond. simpl. rewrite !Ha. reflexivity. Qed.

Lemma respond_fixed_r n j a b :
  fixed b = true -> (respond n j a b).2 = b.
Proof. intros Hb. unfold respond. simpl. rewrite !Hb. reflexivity. Qed.

(** The three shapes of a call. *)
Lemma ResolveCollision_cases a b :
  ResolveCollision a b = (a, b) \/
  ResolveCollision a b = separate a b \/
  ResolveCollision a b =
    respond (collisionNormal a b) (impulseScalar a b)
            (separate a b).1 (separate a b).2.
Proof.
  unfold ResolveCollision.
  destruct (sc_gtb (collisionOverlap a b) (sc_of_int 0)); [|auto].
  destruct (separate a b) as [a' b'] eqn:Hs.
  destruct (sc_gtb (velAlongNormal a b) (sc_of_int 0)); simpl; auto.
Qed.

Lemma ResolveCollision_keepsFixed a b :
  keepsFixed a (ResolveCollision a b).1 /\
  keepsFixed b (ResolveCollision a b).2.
Proof.
  pose proof (separate_fixed a b) as [Hfa Hfb].
  pose proof (separate_velocity a b) as [Hva Hvb].
  pose proof (respond_fixed (collisionNormal a b) (impulseScalar a b)
                (separate a b).1 (separate a b).2) as [Hra Hrb].
  pose proof (respond_position (collisionNormal a b) (impulseScalar a b)
                (separate a b).1 (separate a b).2) as [Hpa Hpb].
  unfold keepsFixed.
  destruct (ResolveCollision_cases a b) as [-> | [-> | ->]].
  - simpl. auto.
  - split; (split; [assumption | intros Hf; split]);
      auto using separate_fixed_position_l, separate_fixed_position_r.
  - split; (split; [congruence | intros Hf; split]).
    + rewrite Hpa. auto using separate_fixed_position_l.
    + rewrite respond_fixed_l by congruence. exact Hva.
    + rewrite Hpb. auto using separate_fixed_position_r.
    + rewrite respond_fixed_r by congruence. exact Hvb.
Qed.

Lemma ResolveCollision_trail a b :
  trail (ResolveCollision a b).1 = trail a /\
  trail (ResolveCollision a b).2 = trail b.
Proof.
  pose proof (separate_trail a b) as [Hta Htb].
  pose proof (respond_trail (collisionNormal a b) (impulseScalar a b)
                (separate a b).1 (separate a b).2) as [Hra Hrb].
  destruct (ResolveCollision_cases a b) as [-> | [-> | ->]];
    [simpl; auto | auto | split; congruence].
Qed.

(** With a positive overlap the positions are those of [separate]. *)
Lemma ResolveCollision_overlap_position a b :
  sc_gtb (collisionOverlap a b) (sc_of_int 0) = true ->
  position (ResolveCollision a b).1 = position (separate a b).1 /\
  position (ResolveCollision a b).2 = position (separate a b).2.
Proof.
  intros Hov. unfold ResolveCollision. rewrite Hov.
  pose proof (respond_position (collisionNormal a b) (impulseScalar a b)
                (separate a b).1 (separate a b).2) as Hp.
  destruct (separate a b) as [a' b'].
  destruct (sc_gtb (velAlongNormal a b) _); [split; reflexivity | exact Hp].
Qed.

Lemma keepsFixed_refl : Reflexive (keepsFixed (T := T)).
Proof. intros o. split; auto. Qed.

Lemma keepsFixed_trans : Transitive (keepsFixed (T := T)).
Proof.
  intros x y z [Hf1 Hp1] [Hf2 Hp2]. split; [congruence|].
  intros Hx. destruct (Hp1 Hx) as [Hp Hv].
  destruct Hp2 as [Hp' Hv']; [congruence|]. split; congruence.
Qed.

Lemma updatePosition_fixed isPaused dt tc (o : Object3D T) :
  fixed o = true -> updatePosition isPaused dt tc o = (tc, o).
Proof. intros Hf. unfold updatePosition. rewrite Hf. reflexivity. Qed.

Lemma updatePosition_keepsFixed isPaused dt tc (o : Object3D T) :
  keepsFixed o (updatePosition isPaused dt tc o).2.
Proof.
  unfold updatePosition.
  destruct (fixed o) eqn:Hf; simpl; [apply keepsFixed_refl|].
  destruct isPaused; simpl; [apply keepsFixed_refl|].
  split; simpl; congruence.
Qed.

Lemma run_keepsFixed (w : World T) evs :
  Forall2 keepsFixed (objects w) (objects (run w evs)).
Proof.
  apply pw_run.
  - exact keepsFixed_refl.
  - exact keepsFixed_trans.
  - intros o a. split; simpl; auto.
  - intros. apply updatePosition_keepsFixed.
  - intros. apply ResolveCollision_keepsFixed.
Qed.
End ResolveFacts.

(** C2. Fixed-body invariance: a body with [fixed = true] never has its
    position or velocity changed, neither by applyForce, nor by
    updatePosition, nor by ResolveCollision on either side with any
    partner, nor by any run of frames and pause toggles of the driver. *)
Theorem fixed_body_invariance `{Scalar T} (o : Object3D T)
    (Hfixed : fixed o = true) :
  (forall force, applyForce o force = o) /\
  (forall isPaused dt tc, updatePosition isPaused dt tc o = (tc, o)) /\
  (forall b, position (ResolveCollision o b).1 = position o /\
             velocity (ResolveCollision o b).1 = velocity o) /\
  (forall a, position (ResolveCollision a o).2 = position o /\
             velocity (ResolveCollision a o).2 = velocity o) /\
  (forall (w : World T) evs i,
      objects w !! i = Some o ->
      exists o', objects (run w evs) !! i = Some o' /\
                 fixed o' = true /\
                 position o' = position o /\
                 velocity o' = velocity o).
Proof.
  split; [|split; [|split; [|split]]].
  - intros force. unfold applyForce. rewrite Hfixed. reflexivity.
  - intros. apply updatePosition_fixed, Hfixed.
  - intros b. apply (ResolveCollision_keepsFixed o b), Hfixed.
  - intros a. apply (ResolveCollision_keepsFixed a o), Hfixed.
  - intros w evs i Hi.
    destruct (Forall2_lookup_l _ _ _ _ _ (run_keepsFixed w evs) Hi)
      as (o' & Ho' & Hf & Hp).
    exists o'. destruct (Hp Hfixed) as [Hpos Hvel].
    repeat split; auto. congruence.
Qed.


(** ** The trail *)

Section TrailFacts.
Context `{Scalar T}.

Lemma trail_push_cases (t : list (vec3 T)) p :
  (length t < maxTrailLength -> trail_push t p = t ++ [p]) /\
  (length t = maxTrailLength -> trail_push t p = tail t ++ [p]) /\
  (length t <= maxTrailLength -> length (trail_push t p) <= maxTrailLength).
Proof.
  assert (Hlen : length (t ++ [p]) = S (length t))
    by (rewrite length_app; simpl; lia).
  assert (Hpos : 0 < maxTrailLength) by (unfold maxTrailLength; lia).
  unfold trail_push.
  destruct (Nat.ltb_spec maxTrailLength (length (t ++ [p]))) as [Hgt|Hle];
    rewrite Hlen in *.
  - split; [lia|]. destruct t as [|x t]; simpl in *; [lia|].
    split; [reflexivity|]. rewrite length_app. simpl. lia.
  - split; [reflexivity|]. split; lia.
Qed.

Lemma updatePosition_keepsTrailBound isPaused dt tc (o : Object3D T) :
  keepsTrailBound o (updatePosition isPaused dt tc o).2.
Proof.
  unfold keepsTrailBound, trailBounded, updatePosition.
  destruct (fixed o || isPaused); simpl; [auto|].
  destruct (Z.rem _ 3 =? 0)%Z; [|auto].
  apply trail_push_cases.
Qed.

Lemma run_keepsTrailBound (w : World T) evs :
  Forall2 keepsTrailBound (objects w) (objects (run w evs)).
Proof.
  apply pw_run.
  - intros o; unfold keepsTrailBound; auto.
  - intros x y z; unfold keepsTrailBound; auto.
  - intros o a. unfold keepsTrailBound, trailBounded. simpl. auto.
  - intros. apply updatePosition_keepsTrailBound.
  - intros a b. destruct (ResolveCollision_trail a b) as [Ha Hb].
    unfold keepsTrailBound, trailBounded. rewrite Ha, Hb. auto.
Qed.

Lemma Forall2_keeps {A} (P : A -> Prop) (l k : list A) :
  Forall2 (fun x y => P x -> P y) l k -> Forall P l -> Forall P k.
Proof.
  induction 1 as [|x y l k Hxy _ IH]; intros Hl; [constructor|].
  inversion Hl; subst. constructor; auto.
Qed.

(** The solar-system variant. *)

Lemma solar_trail_push_cases (t : list (vec3 T)) p :
  (length t < SolarSystem.maxTrailLength ->
   SolarSystem.trail_push t p = t ++ [p]) /\
  (length t = SolarSystem.maxTrailLength ->
   SolarSystem.trail_push t p = tail t ++ [p]) /\
  (length t <= SolarSystem.maxTrailLength ->
   length (SolarSystem.trail_push t p) <= SolarSystem.maxTrailLength).
Proof.
  assert (Hlen : length (t ++ [p]) = S (length t))
    by (rewrite length_app; simpl; lia).
  assert (Hpos : 0 < SolarSystem.maxTrailLength)
    by (unfold SolarSystem.maxTrailLength; lia).
  unfold SolarSystem.trail_push.
  destruct (Nat.ltb_spec SolarSystem.maxTrailLength (length (t ++ [p])))
    as [Hgt|Hle]; rewrite Hlen in *.
  - split; [lia|]. destruct t as [|x t]; simpl in *; [lia|].
    split; [reflexivity|]. rewrite length_app. simpl. lia.
  - split; [reflexivity|]. split; lia.
Qed.

Lemma Forall_foldl {A B} (P : A -> Prop) (f : list A -> B -> list A) :
  (forall l b, Forall P l -> Forall P (f l b)) ->
  forall xs l, Forall P l -> Forall P (foldl f l xs).
Proof.
  intros Hf xs. induction xs as [|x xs IH]; intros l Hl; simpl; auto.
Qed.

Section Solar.
Context `{Scalar D} (widen : T -> D) (narrow : D -> T) (G : D).

Lemma solar_gravityPass_trail (objs : list (SolarSystem.Object3D T)) :
  Forall solarTrailBounded objs ->
  Forall solarTrailBounded (SolarSystem.gravityPass widen narrow G objs).
Proof.
  unfold SolarSystem.gravityPass. apply Forall_foldl. intros l i.
  unfold SolarSystem.gravityRow. apply Forall_foldl. intros l' j Hl'.
  unfold SolarSystem.calculateGravitationalForce.
  destruct (j =? i)%nat; [assumption|].
  destruct (l' !! i) as [a|] eqn:Ha; [|assumption].
  destruct (l' !! j) as [b|]; [|assumption].
  apply Forall_insert; [assumption|].
  unfold solarTrailBounded, SolarSystem.applyForce. simpl.
  exact (proj1 (Forall_lookup _ _) Hl' i a Ha).
Qed.

Lemma solar_updatePosition_trail isPaused dt (o : SolarSystem.Object3D T) :
  solarTrailBounded o ->
  solarTrailBounded (SolarSystem.updatePosition isPaused dt o).
Proof.
  unfold solarTrailBounded, SolarSystem.updatePosition.
  destruct isPaused; simpl; [auto|]. apply solar_trail_push_cases.
Qed.

Lemma solar_run_trail (w : SolarSystem.World T) evs :
  Forall solarTrailBounded (SolarSystem.objects w) ->
  Forall solarTrailBounded
         (SolarSystem.objects (SolarSystem.run widen narrow G w evs)).
Proof.
  unfold SolarSystem.run. revert w.
  induction evs as [|ev evs IH]; intros w Hw; simpl; [assumption|].
  apply IH. destruct ev as [dt|]; simpl; [|assumption].
  unfold SolarSystem.frame. destruct (SolarSystem.isPaused w); [assumption|].
  simpl. apply Forall_fmap. unfold compose.
  eapply Forall_impl; [apply solar_gravityPass_trail, Hw|].
  intros o Ho. apply solar_updatePosition_trail, Ho.
Qed.
End Solar.
End TrailFacts.

(** C6. Trail bound: if every trail is within the maximum (as it is for
    freshly constructed objects, whose trails are empty), then after any run
    of frames every trail is within the maximum, 1000 in the collision
    engine and 500 in the solar-system variant; a push onto a trail already
    at the maximum drops the oldest entry and appends the new one. *)
Theorem trail_length_bounded `{Scalar T} `{Scalar D}
    (widen : T -> D) (narrow : D -> T) (G : D)
    (w : World T) (evs : list (Event T))
    (sw : SolarSystem.World T) (sevs : list (SolarSystem.Event T))
    (Hw : Forall (fun o => length (trail o) <= 1000) (objects w))
    (Hsw : Forall (fun o => length (SolarSystem.trail o) <= 500)
                  (SolarSystem.objects sw)) :
  Forall (fun o => length (trail o) <= 1000) (objects (run w evs)) /\
  Forall (fun o => length (SolarSystem.trail o) <= 500)
         (SolarSystem.objects (SolarSystem.run widen narrow G sw sevs)) /\
  (forall (t : list (vec3 T)) p,
      length t = 1000 -> trail_push t p = tail t ++ [p]) /\
  (forall (t : list (vec3 T)) p,
      length t = 500 -> SolarSystem.trail_push t p = tail t ++ [p]).
Proof.
  split; [|split; [|split]].
  - exact (Forall2_keeps trailBounded _ _ (run_keepsTrailBound w evs) Hw).
  - exact (solar_run_trail widen narrow G sw sevs Hsw).
  - intros t p Ht. apply trail_push_cases, Ht.
  - intros t p Ht. apply solar_trail_push_cases, Ht.
Qed.


(** [fixed_body_invariance] at the central star, colliding with a ball and
    in a world run for two frames. *)
Lemma fixed_body_invariance_witness :
  fixed sun = true /\
  position (ResolveCollision sun (ball 1 (-1) 0 10)).1 = v32 0 0 0 /\
  exists o', objects (run (mkWorld [sun; ball 1 (-1) 0 10] false 0)
                          [Frame (lit 25 10000); Frame (lit 1 1000)]) !! 0%nat
             = Some o' /\
             fixed o' = true /\
             position o' = position sun /\ velocity o' = velocity sun.
Proof.
  split; [reflexivity|].
  destruct (fixed_body_invariance sun eq_refl) as (_ & _ & Hl & _ & Hrun).
  split.
  - exact (proj1 (Hl (ball 1 (-1) 0 10))).
  - apply Hrun. reflexivity.
Defined.

(** [trail_length_bounded] at freshly constructed objects. *)
Lemma trail_length_bounded_witness :
  Forall (fun o => length (trail o) <= 1000)
         (objects (run (mkWorld [sun; ball 5 0 1 10] false 0)
                       [Frame (lit 25 10000); KeySpace; Frame (lit 1 1000)]))
  /\
  Forall (fun o => length (SolarSystem.trail o) <= 500)
         (SolarSystem.objects
            (SolarSystem.run (fun x : binary32 => x) (fun x : binary32 => x)
               (lit 1 1000)
               (SolarSystem.mkWorld
                  [SolarSystem.mkObject3D (v32 0 0 0) (v32 0 0 0) (v32 0 0 0)
                     (v32 1 1 1) (f32 1) (f32 10) []] false)
               [SolarSystem.Frame (lit 1 60)])).
Proof.
  set (w := mkWorld [sun; ball 5 0 1 10] false 0).
  set (sw := SolarSystem.mkWorld
               [SolarSystem.mkObject3D (v32 0 0 0) (v32 0 0 0) (v32 0 0 0)
                  (v32 1 1 1) (f32 1) (f32 10) []] false).
  assert (Hw : Forall (fun o => length (trail o) <= 1000) (objects w))
    by (repeat constructor; simpl; lia).
  assert (Hsw : Forall (fun o => length (SolarSystem.trail o) <= 500)
                       (SolarSystem.objects sw))
    by (repeat constructor; simpl; lia).
  pose proof (trail_length_bounded (fun x : binary32 => x)
                (fun x : binary32 => x) (lit 1 1000) w
                [Frame (lit 25 10000); KeySpace; Frame (lit 1 1000)]
                sw [SolarSystem.Frame (lit 1 60)] Hw Hsw) as (H1 & H2 & _).
  split; assumption.
Defined.

(** ** Contacts that receive no impulse *)

(** C8. Separating-contact skip: when the relative velocity along the
    collision normal is strictly positive, ResolveCollision returns before
    the impulse and the damping; it leaves both velocities unchanged, and
    on an overlapping pair it only separates the positions. *)
Theorem separating_contact_skip `{Scalar T} (a b : Object3D T)
    (Hsep : sc_gtb (velAlongNormal a b) (sc_of_int 0) = true) :
  velocity (ResolveCollision a b).1 = velocity a /\
  velocity (ResolveCollision a b).2 = velocity b /\
  (sc_gtb (collisionOverlap a b) (sc_of_int 0) = true ->
   ResolveCollision a b = separate a b).
Proof.
  unfold ResolveCollision. rewrite Hsep.
  destruct (sc_gtb (collisionOverlap a b) (sc_of_int 0)).
  - pose proof (separate_velocity a b) as [Hva Hvb].
    destruct (separate a b) as [a' b']. simpl in *. auto.
  - simpl. split; [reflexivity|]. split; [reflexivity|]. discriminate.
Qed.

(** [separating_contact_skip] at two overlapping balls flying apart. *)
Lemma separating_contact_skip_witness :
  sc_gtb (collisionOverlap (ball 0 (-1) 0 10) (ball 1 1 0 10)) (f32 0) = true /\
  sc_gtb (velAlongNormal (ball 0 (-1) 0 10) (ball 1 1 0 10)) (f32 0) = true /\
  velocity (ResolveCollision (ball 0 (-1) 0 10) (ball 1 1 0 10)).1
    = v32 (-1) 0 0 /\
  velocity (ResolveCollision (ball 0 (-1) 0 10) (ball 1 1 0 10)).2
    = v32 1 0 0.
Proof.
  split; [vm_compute; reflexivity|].
  split; [vm_compute; reflexivity|].
  pose proof (separating_contact_skip (ball 0 (-1) 0 10) (ball 1 1 0 10))
    as Hskip.
  destruct Hskip as (Ha & Hb & _); [vm_compute; reflexivity|].
  split; assumption.
Defined.

(** C9. Two fixed bodies: ResolveCollision returns both objects exactly as
    they were passed in, position and velocity included.  Both inverse
    masses are zero, so the divisor of the impulse scalar is [0 + 0]; the
    quotient is never stored in either object. *)
Theorem both_fixed_unchanged `{Scalar T} (a b : Object3D T)
    (Ha : fixed a = true) (Hb : fixed b = true) :
  ResolveCollision a b = (a, b) /\
  sc_add (invMass a) (invMass b) = sc_add (sc_of_int 0) (sc_of_int 0).
Proof.
  split.
  - unfold ResolveCollision.
    destruct (sc_gtb (collisionOverlap a b) (sc_of_int 0)); [|reflexivity].
    rewrite separate_both_fixed by assumption.
    destruct (sc_gtb (velAlongNormal a b) (sc_of_int 0)); [reflexivity|].
    unfold respond. rewrite Ha, Hb. simpl. rewrite Ha, Hb. reflexivity.
  - unfold invMass. rewrite Ha, Hb. reflexivity.
Qed.

(** [both_fixed_unchanged] at two overlapping fixed bodies at rest; there
    the impulse scalar is [-0 / 0], a NaN. *)
Lemma both_fixed_unchanged_witness :
  sc_gtb (collisionOverlap sun anchor) (f32 0) = true /\
  impulseScalar sun anchor = S754_nan /\
  ResolveCollision sun anchor = (sun, anchor).
Proof.
  split; [vm_compute; reflexivity|].
  split; [vm_compute; reflexivity|].
  exact (proj1 (both_fixed_unchanged sun anchor eq_refl eq_refl)).
Defined.


(** ** Exact arithmetic *)

Section Exact.
Local Open Scope R_scope.
Implicit Types a b : Object3D R.
Implicit Types u v : vec3 R.

Lemma Rltb_true x y : Rltb x y = true <-> x < y.
Proof.
  unfold Rltb. destruct (Rlt_dec x y); split; intros; auto;
    try discriminate; contradiction.
Qed.

Lemma Rltb_false x y : Rltb x y = false <-> y <= x.
Proof.
  unfold Rltb. destruct (Rlt_dec x y); split; intros; auto;
    try discriminate; lra.
Qed.

Lemma Rleb_true x y : Rleb x y = true <-> x <= y.
Proof.
  unfold Rleb. destruct (Rle_dec x y); split; intros; auto;
    try discriminate; contradiction.
Qed.

Lemma Rleb_false x y : Rleb x y = false <-> y < x.
Proof.
  unfold Rleb. destruct (Rle_dec x y); split; intros; auto;
    try discriminate; lra.
Qed.

Lemma vec3_eq u v : vx u = vx v -> vy u = vy v -> vz u = vz v -> u = v.
Proof. destruct u, v; simpl; intros; subst; reflexivity. Qed.

Lemma dot_self_nonneg v : 0 <= dot v v.
Proof. unfold dot; simpl. nra. Qed.

Lemma vlength_nonneg v : 0 <= vlength v.
Proof. apply sqrt_pos. Qed.

Lemma vlength_sqr v : vlength v * vlength v = dot v v.
Proof. apply sqrt_sqrt, dot_self_nonneg. Qed.

Lemma vlength_vscale v k : 0 <= k -> vlength (vscale v k) = k * vlength v.
Proof.
  intros Hk. unfold vlength, dot, vscale. simpl.
  replace (vx v * k * (vx v * k) + vy v * k * (vy v * k)
           + vz v * k * (vz v * k))
    with (k * k * (vx v * vx v + vy v * vy v + vz v * vz v)) by ring.
  rewrite sqrt_mult_alt by nra. rewrite sqrt_square by assumption.
  reflexivity.
Qed.

Lemma vlength_ge_abs_x v : Rabs (vx v) <= vlength v.
Proof.
  unfold vlength, dot. simpl.
  rewrite <- (sqrt_Rsqr_abs (vx v)). apply sqrt_le_1_alt.
  unfold Rsqr. nra.
Qed.

Lemma sc_gtb_R (x y : R) : sc_gtb x y = Rltb y x.
Proof. reflexivity. Qed.

Lemma separated_delta a b :
  fixed a = false -> fixed b = false -> mass a + mass b <> 0 ->
  vsub (position (separate a b).2) (position (separate a b).1)
  = vadd (collisionDelta a b)
         (vscale (collisionNormal a b) (collisionOverlap a b)).
Proof.
  intros Ha Hb Hm. unfold separate. rewrite Ha, Hb. simpl.
  unfold collisionDelta. apply vec3_eq; simpl; field; exact Hm.
Qed.

Lemma vadd_normalize_scale (v : vec3 R) (o : R) :
  vlength v <> 0 ->
  vadd v (vscale (normalize v) o) = vscale v ((vlength v + o) / vlength v).
Proof.
  unfold normalize, inversesqrt.
  change (sc_sqrt (dot v v)) with (vlength v).
  generalize (vlength v). intros d Hd.
  apply vec3_eq; simpl; field; exact Hd.
Qed.

Lemma collisionOverlap_R a b :
  collisionOverlap a b = radius a + radius b - collisionDist a b.
Proof. reflexivity. Qed.

Lemma separated_distance a b :
  fixed a = false -> fixed b = false -> mass a + mass b <> 0 ->
  0 < collisionOverlap a b ->
  let d' := vlength (vsub (position (separate a b).2)
                          (position (separate a b).1)) in
  radius a + radius b - 2 / 1000 <= d' /\
  (1 / 1000 < collisionDist a b -> d' = radius a + radius b) /\
  (3 / 1000 <= radius a + radius b -> collisionDist a b <= d').
Proof.
  intros Ha Hb Hm Hov d'. subst d'. rewrite separated_delta by assumption.
  pose proof (vlength_nonneg (collisionDelta a b)) as Hd0.
  fold (collisionDist a b) in Hd0.
  pose proof (collisionOverlap_R a b) as Ho.
  unfold collisionNormal. rewrite sc_gtb_R.
  change (lit 1 1000) with (1 / 1000).
  destruct (Rlt_dec (1 / 1000) (collisionDist a b)) as [Hfar|Hnear].
  - rewrite (proj2 (Rltb_true _ _) Hfar).
    rewrite vadd_normalize_scale
      by (fold (collisionDist a b); lra).
    fold (collisionDist a b).
    rewrite vlength_vscale by (apply Rle_mult_inv_pos; lra).
    fold (collisionDist a b).
    assert (Hr : (collisionDist a b + collisionOverlap a b)
                 / collisionDist a b * collisionDist a b
                 = radius a + radius b)
      by (rewrite Ho; field; lra).
    rewrite Hr. repeat split; intros; lra.
  - rewrite (proj2 (Rltb_false _ _)) by lra.
    set (v := vadd (collisionDelta a b) _).
    pose proof (vlength_ge_abs_x v) as Hx.
    pose proof (vlength_ge_abs_x (collisionDelta a b)) as Hdx.
    fold (collisionDist a b) in Hdx.
    assert (Hvx : vx v = vx (collisionDelta a b) + collisionOverlap a b)
      by (subst v; simpl; ring).
    rewrite Hvx, Ho in Hx.
    assert (Hlow : radius a + radius b - 2 * collisionDist a b
                   <= vlength v).
    { revert Hx Hdx. unfold Rabs.
      destruct (Rcase_abs _), (Rcase_abs _); intros; lra. }
    repeat split; intros; lra.
Qed.



Lemma milli32_value : milli32 = 8589935 / 8589934592.
Proof.
  unfold milli32, b32_to_R.
  replace (b32_fraction (lit 1 1000)) with (8589935, 8589934592)%Z
    by (vm_compute; reflexivity).
  reflexivity.
Qed.

Lemma milli32_above : 1 / 1000 < milli32.
Proof. rewrite milli32_value. lra. Qed.

(** C7, amended.  De-penetration: for an overlapping pair of movable
    bodies of positive mass, one call moves [a] against the collision
    normal by [overlap * m_b / (m_a + m_b)] and [b] along it by
    [overlap * m_a / (m_a + m_b)], so the vector between the centres grows
    by [normal * overlap].  Afterwards the distance between the centres is
    at least [r_a + r_b - 2 * 0.001f]; it is exactly [r_a + r_b] when the
    centres were more than [0.001f] apart; and it has not shrunk, that is
    the overlap has not grown, when the centres were more than [0.001f]
    apart or [r_a + r_b >= 3 * 0.001f].  Outside these two cases the
    overlap can grow, see [separation_can_deepen_overlap].

    Exact arithmetic.  The bounds are stated with [milli32], the stored
    value of the literal [0.001f], which is larger than 1/1000: they hold
    whether the threshold of the normal is taken as 1/1000 or as the
    stored value. *)
Theorem separation_restores_distance (a b : Object3D R)
    (Hfa : fixed a = false) (Hfb : fixed b = false)
    (Hma : 0 < mass a) (Hmb : 0 < mass b)
    (Hov : 0 < collisionOverlap a b) :
  let n := collisionNormal a b in
  let o := collisionOverlap a b in
  let a' := (ResolveCollision a b).1 in
  let b' := (ResolveCollision a b).2 in
  position a'
    = vsub (position a) (vscale (vscale n o) (mass b / (mass a + mass b))) /\
  position b'
    = vadd (position b) (vscale (vscale n o) (mass a / (mass a + mass b))) /\
  vsub (position b') (position a') = vadd (collisionDelta a b) (vscale n o) /\
  radius a + radius b - 2 * milli32
    <= vlength (vsub (position b') (position a')) /\
  (milli32 < collisionDist a b ->
   vlength (vsub (position b') (position a')) = radius a + radius b) /\
  (milli32 < collisionDist a b \/ 3 * milli32 <= radius a + radius b ->
   collisionDist a b <= vlength (vsub (position b') (position a'))).
Proof.
  intros n o a' b'. subst n o a' b'.
  assert (Hm : mass a + mass b <> 0) by lra.
  destruct (ResolveCollision_overlap_position a b) as [Hpa Hpb];
    [rewrite sc_gtb_R; apply Rltb_true, Hov|].
  rewrite Hpa, Hpb.
  split; [unfold separate; rewrite Hfa, Hfb; reflexivity|].
  split; [unfold separate; rewrite Hfa, Hfb; reflexivity|].
  split; [apply separated_delta; assumption|].
  destruct (separated_distance a b Hfa Hfb Hm Hov) as (Hlow & Hfar & Hbig).
  pose proof milli32_above as Hmilli.
  pose proof (collisionOverlap_R a b) as Ho.
  split; [lra|]. split.
  - intros Hd. apply Hfar. lra.
  - intros [Hd|Hr].
    + rewrite Hfar by lra. lra.
    + apply Hbig. lra.
Qed.
End Exact.


(** ** The force pass *)

Section GravityFacts.
Context `{Scalar T}.
Implicit Types a b o : Object3D T.
Implicit Types objs : list (Object3D T).

Lemma sameButAcceleration_refl : Reflexive (sameButAcceleration (T := T)).
Proof. intros [ ]; reflexivity. Qed.

Lemma sameButAcceleration_trans : Transitive (sameButAcceleration (T := T)).
Proof.
  intros x y z Hxy Hyz. unfold sameButAcceleration in *.
  rewrite Hyz at 1. rewrite Hxy. reflexivity.
Qed.

Lemma sameButAcceleration_set o acc : sameButAcceleration o (set_acceleration o acc).
Proof. reflexivity. Qed.

Lemma gravityForce_ext a a' b b' :
  sameButAcceleration a a' -> sameButAcceleration b b' ->
  gravityForce a' b' = gravityForce a b.
Proof. intros -> ->. reflexivity. Qed.

Lemma applyForce_sameButAcceleration o force :
  sameButAcceleration o (applyForce o force).
Proof.
  unfold applyForce. destruct (fixed o);
    [apply sameButAcceleration_refl | reflexivity].
Qed.

Lemma gravityPass_sameButAcceleration_rows objs (rows : list nat) :
  Forall2 sameButAcceleration objs (foldl gravityRow objs rows).
Proof.
  apply pw_foldl.
  - exact sameButAcceleration_refl.
  - exact sameButAcceleration_trans.
  - intros l i. unfold gravityRow. apply pw_foldl.
    + exact sameButAcceleration_refl.
    + exact sameButAcceleration_trans.
    + intros l' j. apply pw_calculateGravitationalForce.
      * exact sameButAcceleration_refl.
      * exact sameButAcceleration_set.
Qed.

(** The [j] loop for object [i] only rewrites place [i]. *)
Lemma gravityRow_fold objs i (js : list nat) self :
  i < length objs ->
  foldl (fun objs j => calculateGravitationalForce objs i j)
        (<[i := self]> objs) js
  = <[i := accumulate objs i self js]> objs.
Proof.
  intros Hi. revert self.
  induction js as [|j js IH]; intros self; simpl; [reflexivity|].
  unfold calculateGravitationalForce at 2.
  destruct (j =? i)%nat eqn:Hji; [apply IH|].
  apply Nat.eqb_neq in Hji.
  rewrite list_lookup_insert_eq by assumption.
  rewrite list_lookup_insert_ne by congruence.
  destruct (objs !! j) as [o|]; [|apply IH].
  rewrite list_insert_insert_eq. apply IH.
Qed.

Lemma gravityRow_spec objs i self :
  objs !! i = Some self ->
  gravityRow objs i
  = <[i := accumulate objs i self (seq 0 (length objs))]> objs.
Proof.
  intros Hi. unfold gravityRow.
  rewrite <- (list_insert_id objs i self Hi) at 1.
  apply gravityRow_fold. eapply lookup_lt_Some, Hi.
Qed.

Lemma gravityRow_none objs i :
  objs !! i = None -> gravityRow objs i = objs.
Proof.
  intros Hi. unfold gravityRow. generalize (seq 0 (length objs)).
  intros js. induction js as [|j js IH]; simpl; [reflexivity|].
  unfold calculateGravitationalForce at 2. rewrite Hi.
  destruct (j =? i)%nat; exact IH.
Qed.

Lemma accumulate_ext objs objs' i (js : list nat) self :
  Forall2 sameButAcceleration objs objs' ->
  accumulate objs' i self js = accumulate objs i self js.
Proof.
  intros Hs. revert self. unfold accumulate.
  induction js as [|j js IH]; intros self; simpl; [reflexivity|].
  destruct (j =? i)%nat; [apply IH|].
  destruct (objs !! j) as [o|] eqn:Ho.
  - destruct (Forall2_lookup_l _ _ _ _ _ Hs Ho) as (o' & -> & Hoo').
    rewrite (gravityForce_ext self self o o'); auto using sameButAcceleration_refl.
  - apply lookup_ge_None in Ho. rewrite (Forall2_length _ _ _ Hs) in Ho.
    apply lookup_ge_None in Ho. rewrite Ho. apply IH.
Qed.

Lemma gravityRow_lookup_ne objs r i :
  r <> i -> gravityRow objs r !! i = objs !! i.
Proof.
  intros Hri. destruct (objs !! r) as [x|] eqn:Hr.
  - rewrite (gravityRow_spec objs r x Hr).
    apply list_lookup_insert_ne. congruence.
  - rewrite gravityRow_none by assumption. reflexivity.
Qed.

(** Rows other than [i] leave object [i] alone. *)
Lemma gravityRows_lookup_notin (rows : list nat) objs i :
  i ∉ rows -> foldl gravityRow objs rows !! i = objs !! i.
Proof.
  revert objs. induction rows as [|r rows IH]; intros objs Hi; simpl.
  - reflexivity.
  - apply not_elem_of_cons in Hi as [Hir Hi].
    rewrite IH by assumption. apply gravityRow_lookup_ne. congruence.
Qed.

(** Object [i] after the whole force pass. *)
Lemma gravityPass_lookup objs i self :
  objs !! i = Some self ->
  gravityPass objs !! i
  = Some (accumulate objs i self (seq 0 (length objs))).
Proof.
  intros Hi. pose proof (lookup_lt_Some _ _ _ Hi) as Hlt.
  unfold gravityPass.
  replace (length objs) with (i + S (length objs - S i)) at 1 by lia.
  rewrite seq_app, foldl_app. simpl.
  pose proof (gravityPass_sameButAcceleration_rows objs (seq 0 i)) as Hsame.
  set (cur := foldl gravityRow objs (seq 0 i)) in *.
  assert (Hcur : cur !! i = Some self).
  { unfold cur. rewrite gravityRows_lookup_notin; [exact Hi|].
    rewrite elem_of_seq. lia. }
  rewrite gravityRows_lookup_notin by (rewrite elem_of_seq; lia).
  rewrite (gravityRow_spec cur i self Hcur).
  rewrite list_lookup_insert_eq by (eapply lookup_lt_Some, Hcur).
  rewrite <- (Forall2_length _ _ _ Hsame).
  rewrite (accumulate_ext objs cur) by assumption. reflexivity.
Qed.

(** On a movable object the loop adds the forces divided by the mass, in
    the order of the indices. *)
Lemma accumulate_movable objs i self (js : list nat) :
  fixed self = false ->
  accumulate objs i self js
  = set_acceleration self
      (foldl (fun acc j =>
                if (j =? i)%nat then acc
                else match objs !! j with
                     | Some o => vadd acc (vdivs (gravityForce self o) (mass self))
                     | None => acc
                     end)
             (acceleration self) js).
Proof.
  intros Hf. unfold accumulate. revert self Hf.
  induction js as [|j js IH]; intros self Hf; simpl.
  - destruct self; reflexivity.
  - destruct (j =? i)%nat; [apply IH, Hf|].
    destruct (objs !! j) as [o|]; [|apply IH, Hf].
    unfold applyForce at 2. rewrite Hf.
    rewrite IH by exact Hf. simpl. f_equal.
Qed.

Lemma accumulate_fixed objs i self (js : list nat) :
  fixed self = true -> accumulate objs i self js = self.
Proof.
  intros Hf. unfold accumulate.
  induction js as [|j js IH]; simpl; [reflexivity|].
  destruct (j =? i)%nat; [exact IH|].
  destruct (objs !! j); [|exact IH].
  unfold applyForce at 2. rewrite Hf. exact IH.
Qed.
End GravityFacts.


(** ** The force law *)

Section ExactGravity.
Local Open Scope R_scope.
Implicit Types a b : Object3D R.
Implicit Types u v : vec3 R.

Lemma sc_max_R (x y : R) : sc_max x y = Rmax x y.
Proof.
  unfold sc_max, Rmax. change (@sc_ltb R R_Scalar) with Rltb.
  destruct (Rle_dec x y) as [Hle|Hnle].
  - destruct (Rlt_dec x y) as [Hlt|Hnlt].
    + rewrite (proj2 (Rltb_true _ _) Hlt). reflexivity.
    + rewrite (proj2 (Rltb_false _ _)) by lra. lra.
  - rewrite (proj2 (Rltb_false _ _)) by lra. reflexivity.
Qed.

Lemma gravityDistance_R a b : gravityDistance a b = clampedDistance a b.
Proof. unfold gravityDistance. apply sc_max_R. Qed.

Lemma gravity_pull a b :
  vdivs (gravityForce a b) (mass a) = specPull a b.
Proof.
  unfold gravityForce, specPull, pullMagnitude. rewrite gravityDistance_R.
  unfold unitToward, normalize, inversesqrt, vlength.
  apply vec3_eq; simpl; unfold Rdiv; ring.
Qed.

Lemma vlength_zero v : vlength v = 0 -> v = Vec3 0 0 0.
Proof.
  intros Hv. pose proof (vlength_sqr v) as Hs. rewrite Hv in Hs.
  unfold dot in Hs. simpl in Hs.
  apply vec3_eq; simpl; nra.
Qed.

Lemma vsub_zero u v : vsub u v = Vec3 0 0 0 -> u = v.
Proof.
  intros Hs. apply vec3_eq.
  - apply (f_equal vx) in Hs. simpl in Hs. lra.
  - apply (f_equal vy) in Hs. simpl in Hs. lra.
  - apply (f_equal vz) in Hs. simpl in Hs. lra.
Qed.

Lemma vlength_pos_distinct u v : u <> v -> 0 < vlength (vsub u v).
Proof.
  intros Hne. pose proof (vlength_nonneg (vsub u v)) as H0.
  destruct (Req_dec (vlength (vsub u v)) 0) as [Hz|Hnz]; [|lra].
  exfalso. apply Hne. apply vsub_zero, vlength_zero, Hz.
Qed.

Lemma unitToward_length u v : v <> u -> vlength (unitToward u v) = 1.
Proof.
  intros Hne. pose proof (vlength_pos_distinct v u Hne) as Hpos.
  unfold unitToward. rewrite vlength_vscale.
  - field. lra.
  - apply Rlt_le. apply Rdiv_lt_0_compat; lra.
Qed.

Lemma G_pos : 0 < G (T := R).
Proof. unfold G, lit. simpl. lra. Qed.

Lemma clampedDistance_pos a b :
  position b <> position a -> 0 < clampedDistance a b.
Proof.
  intros Hne. pose proof (vlength_pos_distinct _ _ Hne) as Hpos.
  unfold clampedDistance.
  pose proof (Rmax_l (vlength (vsub (position b) (position a)))
                     ((radius a + radius b) * 2)). lra.
Qed.

Lemma pullMagnitude_nonneg a b :
  position b <> position a -> 0 < mass a -> 0 < mass b ->
  0 < pullMagnitude a b.
Proof.
  intros Hne Ha Hb. pose proof (clampedDistance_pos a b Hne) as Hd.
  pose proof G_pos as HG. unfold pullMagnitude.
  apply Rdiv_lt_0_compat; [apply Rdiv_lt_0_compat|assumption].
  - apply Rmult_lt_0_compat; [apply Rmult_lt_0_compat|]; assumption.
  - apply Rmult_lt_0_compat; assumption.
Qed.

Lemma accumulate_pulls (objs : list (Object3D R)) i a (js : list nat) :
  foldl (fun acc j =>
           if (j =? i)%nat then acc
           else match objs !! j with
                | Some o => vadd acc (vdivs (gravityForce a o) (mass a))
                | None => acc
                end) (acceleration a) js
  = foldl (fun acc j =>
           if (j =? i)%nat then acc
           else match objs !! j with
                | Some o => vadd acc (specPull a o)
                | None => acc
                end) (acceleration a) js.
Proof.
  generalize (acceleration a).
  induction js as [|j js IH]; intros acc; simpl; [reflexivity|].
  destruct (j =? i)%nat; [apply IH|].
  destruct (objs !! j); [|apply IH]. rewrite gravity_pull. apply IH.
Qed.

(** The force law between distinct centres, the part of C4 that the
    code satisfies: when no other body has its centre where the movable
    body [i] has its own, one force pass leaves [i] unchanged but for its
    acceleration, to which it adds, for every other body [j] in the order
    of the indices, the vector [specPull]: the unit vector from [i] toward
    [j] scaled by [G * m_i * m_j / d^2 / m_i], with [d] the distance of
    the centres clamped below by [(r_i + r_j) * 2].  For positive masses
    the unit vector has length one and the added vector has exactly that
    magnitude.  (Exact arithmetic.) *)
Theorem gravity_pass_contribution (objs : list (Object3D R)) i a
    (Hi : objs !! i = Some a) (Hmov : fixed a = false)
    (Hapart : forall j b,
        j <> i -> objs !! j = Some b -> position b <> position a) :
  (exists a',
      gravityPass objs !! i = Some a' /\
      sameButAcceleration a a' /\
      acceleration a'
      = foldl (fun acc j =>
                 if (j =? i)%nat then acc
                 else match objs !! j with
                      | Some b => vadd acc (specPull a b)
                      | None => acc
                      end)
              (acceleration a) (seq 0 (length objs))) /\
  (forall j b,
      j <> i -> objs !! j = Some b -> 0 < mass a -> 0 < mass b ->
      vlength (unitToward (position a) (position b)) = 1 /\
      vlength (specPull a b)
      = G * mass a * mass b
        / (clampedDistance a b * clampedDistance a b) / mass a).
Proof.
  split.
  - eexists. split; [apply gravityPass_lookup, Hi|].
    rewrite accumulate_movable by assumption.
    split; [reflexivity|]. simpl. apply accumulate_pulls.
  - intros j b Hj Hb Ha Hmb.
    pose proof (Hapart j b Hj Hb) as Hne.
    pose proof (unitToward_length _ _ Hne) as Hu.
    split; [exact Hu|].
    unfold specPull. rewrite vlength_vscale.
    + rewrite Hu. unfold pullMagnitude. ring.
    + apply Rlt_le, pullMagnitude_nonneg; assumption.
Qed.
End ExactGravity.


(** ** Two bodies without collisions *)

Section TwoBodies.
Context `{Scalar T}.
Implicit Types a b : Object3D T.

Lemma foldl_fixpoint {A B} (f : A -> B -> A) (x : A) (ys : list B) :
  (forall y, y ∈ ys -> f x y = x) -> foldl f x ys = x.
Proof.
  induction ys as [|y ys IH]; intros Hf; simpl; [reflexivity|].
  rewrite (Hf y) by (apply elem_of_cons; auto).
  apply IH. intros y' Hy'. apply Hf, elem_of_cons. auto.
Qed.

Lemma collisionPass_noCollision (objs : list (Object3D T)) :
  noCollision objs -> collisionPass objs = objs.
Proof.
  intros Hno. unfold collisionPass. apply foldl_fixpoint. intros i _.
  unfold collisionRow. apply foldl_fixpoint. intros j Hj.
  apply elem_of_seq in Hj. unfold collidePair.
  destruct (objs !! i) as [a|] eqn:Ha; [|reflexivity].
  destruct (objs !! j) as [b|] eqn:Hb; [|reflexivity].
  rewrite (Hno i j a b) by (assumption || lia). reflexivity.
Qed.

Lemma gravityForce_applyForce a b force :
  gravityForce a (applyForce b force) = gravityForce a b.
Proof. unfold applyForce. destruct (fixed b); reflexivity. Qed.

Lemma gravityPass_two a b :
  gravityPass [a; b]
  = [applyForce a (gravityForce a b); applyForce b (gravityForce b a)].
Proof.
  transitivity
    [applyForce a (gravityForce a b);
     applyForce b (gravityForce b (applyForce a (gravityForce a b)))].
  - reflexivity.
  - rewrite gravityForce_applyForce. reflexivity.
Qed.

(** The integration phase on a world of two objects. *)
Lemma integratePhase_two dt (w : World T) a b :
  objects w = [a; b] ->
  let a1 := applyForce (set_acceleration a vzero) (gravityForce a b) in
  let b1 := applyForce (set_acceleration b vzero) (gravityForce b a) in
  let ra := updatePosition (isPaused w) dt (trailCounter w) a1 in
  let rb := updatePosition (isPaused w) dt ra.1 b1 in
  objects (integratePhase dt w) = [ra.2; rb.2].
Proof.
  intros Hobjs a1 b1 ra rb. unfold integratePhase. rewrite Hobjs.
  change (resetAccelerations [a; b])
    with [set_acceleration a vzero; set_acceleration b vzero].
  rewrite gravityPass_two.
  change (gravityForce (set_acceleration a vzero) (set_acceleration b vzero))
    with (gravityForce a b).
  change (gravityForce (set_acceleration b vzero) (set_acceleration a vzero))
    with (gravityForce b a).
  fold a1 b1. simpl updatePass. fold ra.
  destruct ra as [tc1 a2] eqn:Era. simpl in rb. fold rb.
  destruct rb as [tc2 b2]. reflexivity.
Qed.
End TwoBodies.

Section ExactMomentum.
Local Open Scope R_scope.
Implicit Types a b : Object3D R.

Lemma vlength_vsub_sym (u v : vec3 R) :
  vlength (vsub u v) = vlength (vsub v u).
Proof. unfold vlength. f_equal. unfold dot, vsub. simpl. ring. Qed.

(** The two forces of a pair are opposite. *)
Lemma gravityForce_opposite a b :
  gravityForce b a = vscale (gravityForce a b) (-1).
Proof.
  unfold gravityForce. rewrite !gravityDistance_R. unfold clampedDistance.
  rewrite (vlength_vsub_sym (position a) (position b)).
  rewrite (Rplus_comm (radius b) (radius a)).
  generalize (Rmax (vlength (vsub (position b) (position a)))
                   ((radius a + radius b) * 2)). intros d.
  unfold normalize, inversesqrt.
  change (sc_sqrt (dot (vsub (position a) (position b))
                       (vsub (position a) (position b))))
    with (vlength (vsub (position a) (position b))).
  change (sc_sqrt (dot (vsub (position b) (position a))
                       (vsub (position b) (position a))))
    with (vlength (vsub (position b) (position a))).
  rewrite (vlength_vsub_sym (position a) (position b)).
  generalize (vlength (vsub (position b) (position a))). intros s.
  apply vec3_eq; simpl; unfold Rdiv; ring.
Qed.




End ExactMomentum.

(** ** Evaluating the driver over the reals *)

Section ExactDriver.
Local Open Scope R_scope.

Lemma Int_part_unique (x : R) (z : Z) :
  IZR z <= x < IZR z + 1 -> Int_part x = z.
Proof.
  intros [Hlo Hhi]. destruct (base_Int_part x) as [Hle Hgt].
  assert (H1 : (Int_part x < z + 1)%Z).
  { apply lt_IZR. rewrite plus_IZR. simpl. lra. }
  assert (H2 : (z < Int_part x + 1)%Z).
  { apply lt_IZR. rewrite plus_IZR. simpl. lra. }
  lia.
Qed.

Lemma Rtrunc_nonneg (x : R) (z : Z) :
  0 <= x -> IZR z <= x < IZR z + 1 -> Rtrunc x = z.
Proof.
  intros H0 Hz. unfold Rtrunc. destruct (Rle_dec 0 x); [|contradiction].
  apply Int_part_unique, Hz.
Qed.

Lemma Rtrunc_nonpos (x : R) : x <= 0 -> (Rtrunc x <= 0)%Z.
Proof.
  intros Hx. unfold Rtrunc. destruct (Rle_dec 0 x) as [H0|H0].
  - assert (x = 0) as -> by lra. rewrite (Int_part_unique 0 0); [lia|simpl; lra].
  - destruct (base_Int_part (- x)) as [Hle Hgt].
    assert (0 <= Int_part (- x))%Z; [|lia].
    apply le_IZR. apply Rnot_le_lt in H0.
    assert (H1 : (-1 < Int_part (- x))%Z); [|apply IZR_le; lia].
    apply lt_IZR. simpl. lra.
Qed.

Lemma steps_milli : physicsSteps (1 / 1000 : R) = 1%Z.
Proof.
  unfold physicsSteps, simulationSpeed, MAX_TIMESTEP, lit.
  change (@sc_to_int R R_Scalar) with Rtrunc. simpl.
  rewrite (Rtrunc_nonneg _ 1); [reflexivity| |]; simpl; lra.
Qed.


Lemma along_x (v : vec3 R) :
  vy v = 0 -> vz v = 0 -> 0 < vx v ->
  vlength v = vx v /\ normalize v = Vec3 1 0 0.
Proof.
  destruct v as [x y z]. simpl. intros -> -> Hx.
  assert (Hl : vlength (Vec3 x 0 0) = x).
  { unfold vlength, dot. simpl.
    replace (x * x + 0 * 0 + 0 * 0) with (x * x) by ring.
    apply sqrt_square. lra. }
  split; [exact Hl|].
  unfold normalize, inversesqrt.
  change (sc_sqrt (dot (Vec3 x 0 0) (Vec3 x 0 0))) with (vlength (Vec3 x 0 0)).
  rewrite Hl. apply vec3_eq; simpl; field; lra.
Qed.

Lemma twoBalls_force :
  gravityForce (rball 0 0 0 1 1) (rball 10 0 0 3 1)
  = Vec3 (6674 / 1000 * 3 / 100) 0 0.
Proof.
  unfold gravityForce. rewrite gravityDistance_R. unfold clampedDistance.
  destruct (along_x (vsub (position (rball 10 0 0 3 1))
                          (position (rball 0 0 0 1 1)))) as [Hl Hn];
    [simpl; lra | simpl; lra | simpl; lra |].
  rewrite Hl, Hn. simpl.
  rewrite Rmax_left by lra.
  unfold G, lit. apply vec3_eq; simpl; field.
Qed.

Lemma twoBalls_noCollision : noCollisionDuring (1 / 1000) twoBalls.
Proof.
  unfold noCollisionDuring. rewrite steps_milli.
  intros k Hk. assert (k = 0%nat) as -> by (simpl in Hk; lia). simpl Nat.iter.
  assert (Hts : physicsTimeStep (1/1000 : R) = 1 / 1000).
  { unfold physicsTimeStep. rewrite steps_milli. unfold simulationSpeed. simpl. field. }
  rewrite Hts.
  rewrite (integratePhase_two (1/1000) twoBalls _ _ eq_refl).
  rewrite (gravityForce_opposite (rball 0 0 0 1 1) (rball 10 0 0 3 1)).
  rewrite twoBalls_force.
  assert (Hh : actualDt (1 / 1000 : R) = 1 / 1000).
  { unfold actualDt, sc_min, MAX_TIMESTEP, lit.
    change (@sc_ltb R R_Scalar) with Rltb. simpl.
    rewrite (proj2 (Rltb_false _ _)) by lra. reflexivity. }
  unfold updatePosition. simpl. rewrite Hh.
  intros i j a b Hij Hi Hj.
  destruct i as [|[|i]], j as [|[|j]]; simpl in Hi, Hj; try lia; try discriminate.
  injection Hi as <-. injection Hj as <-.
  unfold CheckCollision. change (@sc_leb R R_Scalar) with Rleb.
  apply Rleb_false. simpl radius. simpl position.
  eapply Rlt_le_trans; [|apply vlength_ge_abs_x].
  eapply Rlt_le_trans; [|apply Rle_abs]. simpl. lra.
Qed.

End ExactDriver.


(** ** Witnesses over the reals *)

Section ExactWitnesses.
Local Open Scope R_scope.

Lemma rball_distinct x x' u v m r u' v' m' r' :
  x' <> x -> position (rball x' u' v' m' r') <> position (rball x u v m r).
Proof. intros Hx Heq. apply (f_equal vx) in Heq. simpl in Heq. lra. Qed.

Lemma rball_overlap u v m u' v' m' :
  collisionOverlap (rball 0 u v m 1) (rball 1 u' v' m' 1) = 1.
Proof.
  rewrite collisionOverlap_R. unfold collisionDist, collisionDelta.
  destruct (along_x (vsub (position (rball 1 u' v' m' 1))
                          (position (rball 0 u v m 1)))) as [Hl _];
    [simpl; lra | simpl; lra | simpl; lra |].
  rewrite Hl. simpl. lra.
Qed.

(** [gravity_pass_contribution] at the first of two balls ten units
    apart. *)
Lemma gravity_pass_contribution_witness :
  (exists a',
      gravityPass (objects twoBalls) !! 0%nat = Some a' /\
      acceleration a'
      = vadd (Vec3 0 0 0)
             (specPull (rball 0 0 0 1 1) (rball 10 0 0 3 1))) /\
  vlength (specPull (rball 0 0 0 1 1) (rball 10 0 0 3 1))
  = G * 1 * 3
    / (clampedDistance (rball 0 0 0 1 1) (rball 10 0 0 3 1)
       * clampedDistance (rball 0 0 0 1 1) (rball 10 0 0 3 1)) / 1.
Proof.
  assert (Hapart : forall (j : nat) b,
             j <> 0%nat -> objects twoBalls !! j = Some b ->
             position b <> position (rball 0 0 0 1 1)).
  { intros [|[|j]] b Hj Hb; [congruence| |discriminate].
    injection Hb as <-. apply rball_distinct. lra. }
  destruct (gravity_pass_contribution (objects twoBalls) 0
              (rball 0 0 0 1 1) eq_refl eq_refl Hapart) as [Hpass Hmag].
  split.
  - destruct Hpass as (a' & Ha' & _ & Hacc). exists a'. split; assumption.
  - apply (Hmag 1%nat (rball 10 0 0 3 1)).
    + discriminate.
    + reflexivity.
    + simpl. lra.
    + simpl. lra.
Defined.

(** [separation_restores_distance] at two overlapping balls of masses 1
    and 3 whose centres are one unit apart. *)
Lemma separation_restores_distance_witness :
  1 + 1 - 2 * milli32
  <= vlength
       (vsub (position (ResolveCollision (rball 0 0 0 1 1)
                                         (rball 1 0 0 3 1)).2)
             (position (ResolveCollision (rball 0 0 0 1 1)
                                         (rball 1 0 0 3 1)).1)).
Proof.
  assert (Hov : 0 < collisionOverlap (rball 0 0 0 1 1) (rball 1 0 0 3 1))
    by (rewrite rball_overlap; lra).
  assert (Hma : 0 < mass (rball 0 0 0 1 1)) by (simpl; lra).
  assert (Hmb : 0 < mass (rball 1 0 0 3 1)) by (simpl; lra).
  exact (proj1 (proj2 (proj2 (proj2
           (separation_restores_distance (rball 0 0 0 1 1) (rball 1 0 0 3 1)
              eq_refl eq_refl Hma Hmb Hov))))).
Defined.

End ExactWitnesses.

(** The same grazing contact evaluated in binary32: the impulse scalar is
    a zero and both velocities are scaled by [0.98f]. *)
Example grazing_contact_binary32 :
  velAlongNormal (ball 0 0 1 10) (ball 1 0 1 10) = f32 0 /\
  impulseScalar (ball 0 0 1 10) (ball 1 0 1 10) = S754_zero true /\
  velocity (ResolveCollision (ball 0 0 1 10) (ball 1 0 1 10)).1
  = Vec3 (f32 0) (lit 98 100) (f32 0) /\
  velocity (ResolveCollision (ball 0 0 1 10) (ball 1 0 1 10)).2
  = Vec3 (f32 0) (lit 98 100) (f32 0).
Proof. vm_compute. repeat split. Qed.

(** ** Substeps *)

(** C1. Evaluating the driver in binary32 at a frame of [0.0025f]: the
    quotient by MAX_TIMESTEP is above 2, yet the cast truncates it and the
    frame runs 2 substeps, not 3; each substep hands [0.00125f] to
    updatePosition, which integrates with [0.001f]; the simulated time is
    [0.002f], short of the frame time, and a ball of unit speed ends at
    [x = 0.002f]. *)
Theorem substep_time_lost :
  let deltaTime : binary32 := lit 25 10000 in
  sc_ltb (f32 2) (sc_div (sc_mul deltaTime simulationSpeed) MAX_TIMESTEP)
    = true /\
  physicsSteps deltaTime = 2%Z /\
  physicsTimeStep deltaTime = lit 125 100000 /\
  actualDt (physicsTimeStep deltaTime) = lit 1 1000 /\
  simulatedTime deltaTime = lit 2 1000 /\
  sc_ltb (simulatedTime deltaTime) deltaTime = true /\
  map position (objects (frame deltaTime oneBall))
    = [Vec3 (lit 2 1000) (f32 0) (f32 0)].
Proof. vm_compute. repeat split. Qed.

(** C5, as stated, fails: a frame with [deltaTime = 0] on three balls at
    rest, two of them overlapping, runs one substep; the overlapping balls
    are pushed apart, damped, and the third update appends to a trail. *)
Lemma zero_dt_frame_changes_state :
  sc_leb (f32 0) (f32 0) = true /\
  isPaused threeBalls = false /\
  map position (objects threeBalls) = [v32 0 0 0; v32 1 0 0; v32 10 0 0] /\
  map position (objects (frame (f32 0) threeBalls))
    = [Vec3 (lit (-5) 10) (f32 0) (f32 0);
       Vec3 (lit 15 10) (f32 0) (f32 0); v32 10 0 0] /\
  map (fun o => length (trail o)) (objects threeBalls) = [0; 0; 0]%nat /\
  map (fun o => length (trail o)) (objects (frame (f32 0) threeBalls))
    = [0; 0; 1]%nat /\
  frame (f32 0) threeBalls <> threeBalls.
Proof.
  repeat split; try (vm_compute; reflexivity).
  intros Heq.
  apply (f_equal (fun w => map (fun o => length (trail o)) (objects w))) in Heq.
  vm_compute in Heq. discriminate.
Qed.

Section ExactSubsteps.
Local Open Scope R_scope.

(** C5, amended. A frame whose [deltaTime] is zero or negative is not
    skipped: unless the simulation is paused it runs exactly one substep,
    with [deltaTime] itself as the timestep; only a paused frame leaves the
    world as it is.  (Exact arithmetic.) *)
Theorem nonpositive_dt_runs_one_substep (deltaTime : R) (w : World R)
    (Hdt : deltaTime <= 0) :
  physicsSteps deltaTime = 1%Z /\
  physicsTimeStep deltaTime = deltaTime /\
  (isPaused w = false -> frame deltaTime w = physicsStep deltaTime w) /\
  (isPaused w = true -> frame deltaTime w = w).
Proof.
  assert (Hsteps : physicsSteps deltaTime = 1%Z).
  { unfold physicsSteps, simulationSpeed, MAX_TIMESTEP, lit.
    change (@sc_to_int R R_Scalar) with Rtrunc. simpl.
    assert (Hq : deltaTime * 1 / (1 / 1000) <= 0)
      by (replace (deltaTime * 1 / (1 / 1000)) with (deltaTime * 1000)
            by field; lra).
    pose proof (Rtrunc_nonpos _ Hq). lia. }
  assert (Hts : physicsTimeStep deltaTime = deltaTime).
  { unfold physicsTimeStep. rewrite Hsteps. unfold simulationSpeed.
    simpl. field. }
  split; [exact Hsteps|]. split; [exact Hts|]. split.
  - intros Hp. unfold frame. rewrite Hp, Hsteps, Hts. reflexivity.
  - intros Hp. unfold frame. rewrite Hp. reflexivity.
Qed.

(** [nonpositive_dt_runs_one_substep] at a frame one millisecond back in
    time on the two balls. *)
Lemma nonpositive_dt_runs_one_substep_witness :
  frame (- 1 / 1000) twoBalls = physicsStep (- 1 / 1000) twoBalls.
Proof.
  assert (Hdt : - 1 / 1000 <= 0) by lra.
  exact (proj1 (proj2 (proj2
           (nonpositive_dt_runs_one_substep (- 1 / 1000) twoBalls Hdt)))
         eq_refl).
Defined.
End ExactSubsteps.


(** ** The same properties evaluated in binary32 *)

(** Two balls of mass 10 and radius 1 at rest, ten units apart: after one
    frame of one millisecond both move toward each other with velocities
    equal in magnitude and opposite in sign. *)
Example equal_balls_attract_binary32 :
  match objects (frame (lit 1 1000) equalBalls) with
  | [a; b] =>
      sc_ltb (f32 0) (vx (velocity a)) = true /\
      vx (velocity b) = sc_neg (vx (velocity a)) /\
      vy (velocity a) = f32 0 /\ vz (velocity a) = f32 0 /\
      vy (velocity b) = f32 0 /\ vz (velocity b) = f32 0
  | _ => False
  end.
Proof. vm_compute. repeat split. Qed.

(** Two overlapping balls of masses 10 and 30 whose centres are one unit
    apart: the lighter one moves by 0.75, the heavier one by 0.25, and the
    centres end two units apart. *)
Example separation_binary32 :
  map position (let '(a, b) := ResolveCollision (ball 0 0 0 10) (ball 1 0 0 30)
                in [a; b])
  = [Vec3 (lit (-75) 100) (f32 0) (f32 0); Vec3 (lit 125 100) (f32 0) (f32 0)].
Proof. vm_compute. reflexivity. Qed.


(** The frame of 2.5 milliseconds over the reals: the loss of simulated
    time does not come from rounding. *)
Example substep_time_lost_exact :
  physicsSteps (25 / 10000 : R) = 2%Z /\
  physicsTimeStep (25 / 10000 : R) = (125 / 100000)%R /\
  simulatedTime (25 / 10000 : R) = (2 / 1000)%R.
Proof.
  assert (Hsteps : physicsSteps (25 / 10000 : R) = 2%Z).
  { unfold physicsSteps, simulationSpeed, MAX_TIMESTEP, lit.
    change (@sc_to_int R R_Scalar) with Rtrunc. simpl.
    rewrite (Rtrunc_nonneg _ 2); [reflexivity| |]; simpl; lra. }
  assert (Hts : physicsTimeStep (25 / 10000 : R) = (125 / 100000)%R).
  { unfold physicsTimeStep. rewrite Hsteps. unfold simulationSpeed.
    simpl. field. }
  split; [exact Hsteps|]. split; [exact Hts|].
  unfold simulatedTime. rewrite Hsteps, Hts.
  assert (Hh : actualDt (125 / 100000 : R) = (1 / 1000)%R).
  { unfold actualDt, sc_min, MAX_TIMESTEP, lit.
    change (@sc_ltb R R_Scalar) with Rltb. simpl.
    rewrite (proj2 (Rltb_true _ _)) by lra. reflexivity. }
  rewrite Hh. simpl. lra.
Qed.


(** ** Edge cases evaluated in binary32 *)

(** C7, as stated, fails: two movable bodies of mass 1 and radius 0.0006
    whose centres are 0.0008 apart, the second on the negative [x] side of
    the first.  They overlap by 0.0004; the centres are not more than
    [0.001f] apart, so the normal is the fixed axis [(1, 0, 0)], which
    points from the second body to the first.  One call pushes the bodies
    toward each other: the distance of the centres falls from 0.0008 to
    0.0004 and the overlap grows from 0.0004 to 0.0008. *)
Lemma separation_can_deepen_overlap :
  let a := speck 0 in
  let b := speck (-8) in
  let a' := (ResolveCollision a b).1 in
  let b' := (ResolveCollision a b).2 in
  fixed a = false /\ fixed b = false /\
  CheckCollision a b = true /\
  sc_gtb (collisionOverlap a b) (f32 0) = true /\
  sc_gtb (collisionDist a b) (lit 1 1000) = false /\
  collisionNormal a b = v32 1 0 0 /\
  collisionDist a b = lit 8 10000 /\
  sc_ltb (collisionDist a' b') (collisionDist a b) = true /\
  sc_ltb (collisionOverlap a b) (collisionOverlap a' b') = true /\
  sc_ltb (collisionDist a' b') (lit 40001 100000000) = true /\
  sc_ltb (lit 79999 100000000) (collisionOverlap a' b') = true.
Proof. vm_compute. repeat split. Qed.

(** C4, as stated, fails in the code when two centres coincide: for two
    movable balls of radius 1 and mass 10 with the same centre the clamped
    distance is the floor 4 and the magnitude [G * m_i * m_j / d^2] is
    finite, but the direction is [glm::normalize] of the zero vector,
    [0 * inversesqrt(0)], which is NaN in every component.  The force is
    NaN, one force pass leaves a NaN acceleration in both bodies (the pull
    of the third ball is lost in it), and one frame leaves them with NaN
    velocities and positions. *)
Theorem coincident_centres_poison_gravity :
  let a := ball 0 0 0 10 in
  let b := ball 0 1 0 10 in
  objects coincidentBalls = [a; b; ball 10 0 0 10] /\
  position b = position a /\ fixed a = false /\ fixed b = false /\
  gravityDistance a b = f32 4 /\
  sc_ltb (f32 41)
         (sc_div (sc_mul (sc_mul G (mass a)) (mass b))
                 (sc_mul (gravityDistance a b) (gravityDistance a b)))
    = true /\
  sc_ltb (sc_div (sc_mul (sc_mul G (mass a)) (mass b))
                 (sc_mul (gravityDistance a b) (gravityDistance a b)))
         (f32 42)
    = true /\
  inversesqrt (dot (vsub (position b) (position a))
                   (vsub (position b) (position a)))
    = S754_infinity false /\
  normalize (vsub (position b) (position a)) = nan3 /\
  gravityForce a b = nan3 /\
  take 2 (map acceleration (gravityPass (objects coincidentBalls)))
    = [nan3; nan3] /\
  take 2 (map velocity (objects (frame (lit 1 1000) coincidentBalls)))
    = [nan3; nan3] /\
  take 2 (map position (objects (frame (lit 1 1000) coincidentBalls)))
    = [nan3; nan3].
Proof. vm_compute. repeat split. Qed.

Section ExactOverlapGrowth.
Local Open Scope R_scope.

Lemma separate_radius (a b : Object3D R) :
  radius (separate a b).1 = radius a /\ radius (separate a b).2 = radius b.
Proof.
  unfold separate. destruct (fixed a), (fixed b); split; reflexivity.
Qed.

Lemma respond_radius (n : vec3 R) (j : R) (x y : Object3D R) :
  radius (respond n j x y).1 = radius x /\
  radius (respond n j x y).2 = radius y.
Proof.
  destruct x as [? ? ? ? ? ? [ ] ?], y as [? ? ? ? ? ? [ ] ?];
    split; reflexivity.
Qed.

Lemma ResolveCollision_radius (a b : Object3D R) :
  radius (ResolveCollision a b).1 = radius a /\
  radius (ResolveCollision a b).2 = radius b.
Proof.
  destruct (separate_radius a b) as [Hsa Hsb].
  destruct (ResolveCollision_cases a b) as [Hr|[Hr|Hr]]; rewrite Hr.
  - split; reflexivity.
  - split; assumption.
  - destruct (respond_radius (collisionNormal a b) (impulseScalar a b)
                (separate a b).1 (separate a b).2) as [H1 H2].
    rewrite H1, H2. split; assumption.
Qed.

Lemma distance_on_x (x x' : R) :
  vlength (vsub (Vec3 x' 0 0) (Vec3 x 0 0)) = Rabs (x' - x).
Proof.
  unfold vlength, dot, vsub. simpl.
  replace ((x' - x) * (x' - x) + (0 - 0) * (0 - 0) + (0 - 0) * (0 - 0))
    with (Rsqr (x' - x)) by (unfold Rsqr; ring).
  apply sqrt_Rsqr_abs.
Qed.

(** The same contact over the reals: the growth of the overlap does not
    come from rounding. *)
Example separation_can_deepen_overlap_exact :
  let a := rball 0 0 0 1 (6 / 10000) in
  let b := rball (- 8 / 10000) 0 0 1 (6 / 10000) in
  let a' := (ResolveCollision a b).1 in
  let b' := (ResolveCollision a b).2 in
  collisionDist a b = 8 / 10000 /\
  collisionOverlap a b = 4 / 10000 /\
  position a' = Vec3 (- 2 / 10000) 0 0 /\
  position b' = Vec3 (- 6 / 10000) 0 0 /\
  collisionDist a' b' = 4 / 10000 /\
  collisionOverlap a' b' = 8 / 10000.
Proof.
  intros a b a' b'.
  assert (Hd : collisionDist a b = 8 / 10000).
  { unfold collisionDist, collisionDelta.
    change (position b) with (Vec3 (- 8 / 10000) 0 0).
    change (position a) with (Vec3 0 0 0).
    rewrite distance_on_x, Rabs_left by lra. lra. }
  assert (Ho : collisionOverlap a b = 4 / 10000).
  { rewrite collisionOverlap_R, Hd.
    change (radius a) with (6 / 10000). change (radius b) with (6 / 10000).
    lra. }
  assert (Hn : collisionNormal a b = Vec3 1 0 0).
  { unfold collisionNormal. rewrite sc_gtb_R, Hd.
    change (lit 1 1000) with (1 / 1000).
    rewrite (proj2 (Rltb_false _ _)) by lra. reflexivity. }
  destruct (ResolveCollision_overlap_position a b) as [Hpa Hpb];
    [rewrite sc_gtb_R, Ho; apply Rltb_true; simpl; lra|].
  assert (Ha' : position a' = Vec3 (- 2 / 10000) 0 0).
  { subst a'. rewrite Hpa. unfold separate. rewrite Hn, Ho.
    apply vec3_eq; simpl; field. }
  assert (Hb' : position b' = Vec3 (- 6 / 10000) 0 0).
  { subst b'. rewrite Hpb. unfold separate. rewrite Hn, Ho.
    apply vec3_eq; simpl; field. }
  assert (Hd' : collisionDist a' b' = 4 / 10000).
  { unfold collisionDist, collisionDelta. rewrite Ha', Hb'.
    rewrite distance_on_x, Rabs_left by lra. lra. }
  repeat split; try assumption.
  destruct (ResolveCollision_radius a b) as [Hra Hrb].
  rewrite collisionOverlap_R, Hd'. subst a' b'. rewrite Hra, Hrb.
  change (radius a) with (6 / 10000). change (radius b) with (6 / 10000).
  lra.
Qed.
End ExactOverlapGrowth.


(** * Further properties *)

(** ** The driver *)

Section DriverFacts.
Context `{Scalar T}.
Implicit Types o a b : Object3D T.
Implicit Types objs : list (Object3D T).
Implicit Types w : World T.

(** *** Accelerations *)

Lemma ResolveCollision_acceleration a b :
  acceleration (ResolveCollision a b).1 = acceleration a /\
  acceleration (ResolveCollision a b).2 = acceleration b.
Proof.
  assert (Hs : acceleration (separate a b).1 = acceleration a /\
               acceleration (separate a b).2 = acceleration b)
    by (unfold separate; destruct (fixed a), (fixed b); simpl; auto).
  assert (Hr : forall n j x y,
             acceleration (respond n j x y).1 = acceleration x /\
             acceleration (respond n j x y).2 = acceleration y).
  { intros n j x y. unfold respond.
    destruct (fixed x) eqn:Hx, (fixed y) eqn:Hy; simpl;
      rewrite ?Hx, ?Hy; simpl; auto. }
  destruct Hs as [Hsa Hsb].
  destruct (Hr (collisionNormal a b) (impulseScalar a b)
               (separate a b).1 (separate a b).2) as [Hra Hrb].
  destruct (ResolveCollision_cases a b) as [-> | [-> | ->]];
    [simpl; auto | auto | split; congruence].
Qed.

Lemma collisionPass_acceleration objs :
  Forall2 (fun o o' => acceleration o' = acceleration o)
          objs (collisionPass objs).
Proof.
  apply pw_collisionPass.
  - intros o. reflexivity.
  - intros x y z Hxy Hyz. congruence.
  - intros a b. apply ResolveCollision_acceleration.
Qed.

Lemma gravityPass_fixed_acceleration objs :
  Forall (fun o => fixed o = true -> acceleration o = vzero) objs ->
  Forall (fun o => fixed o = true -> acceleration o = vzero)
         (gravityPass objs).
Proof.
  unfold gravityPass. apply Forall_foldl. intros l i.
  unfold gravityRow. apply Forall_foldl. intros l' j Hl'.
  unfold calculateGravitationalForce.
  destruct (j =? i)%nat; [assumption|].
  destruct (l' !! i) as [a|] eqn:Ha; [|assumption].
  destruct (l' !! j) as [b|]; [|assumption].
  apply Forall_insert; [assumption|].
  pose proof (proj1 (Forall_lookup _ _) Hl' i a Ha) as Hacc.
  unfold applyForce. destruct (fixed a) eqn:Hf; [exact Hacc|].
  simpl. rewrite Hf. discriminate.
Qed.

Lemma updatePass_clears dt tc objs :
  Forall (fun o => fixed o = true -> acceleration o = vzero) objs ->
  Forall (fun o => acceleration o = vzero) (updatePass false dt tc objs).2.
Proof.
  revert tc. induction objs as [|o objs IH]; intros tc Hall; simpl.
  - constructor.
  - inversion Hall as [|? ? Ho Hrest]; subst.
    destruct (updatePosition false dt tc o) as [tc1 o'] eqn:Hu.
    specialize (IH tc1 Hrest).
    destruct (updatePass false dt tc1 objs) as [tc2 objs']. simpl in *.
    constructor; [|exact IH].
    unfold updatePosition in Hu.
    destruct (fixed o) eqn:Hf; simpl in Hu; injection Hu as _ <-; auto.
Qed.

Lemma physicsStep_isPaused dt w : isPaused (physicsStep dt w) = isPaused w.
Proof.
  unfold physicsStep, collisionPhase, integratePhase.
  destruct (updatePass _ _ _ _). reflexivity.
Qed.

Lemma iter_physicsStep_isPaused dt n w :
  isPaused (Nat.iter n (physicsStep dt) w) = isPaused w.
Proof.
  induction n as [|n IH]; [reflexivity|].
  rewrite Nat.iter_succ, physicsStep_isPaused. exact IH.
Qed.

Lemma physicsStep_clears dt w :
  isPaused w = false ->
  Forall (fun o => acceleration o = vzero) (objects (physicsStep dt w)).
Proof.
  intros Hp. unfold physicsStep, collisionPhase, integratePhase. rewrite Hp.
  pose proof (updatePass_clears dt (trailCounter w)
                (gravityPass (resetAccelerations (objects w)))) as Hup.
  destruct (updatePass _ _ _ _) as [tc objs]. simpl in *.
  assert (Hobjs : Forall (fun o => acceleration o = vzero) objs).
  { apply Hup. apply gravityPass_fixed_acceleration.
    unfold resetAccelerations. apply Forall_fmap, Forall_true.
    intros o _. reflexivity. }
  pose proof (collisionPass_acceleration objs) as Hcol.
  revert Hcol Hobjs. generalize (collisionPass objs). intros objs' Hcol.
  induction Hcol as [|x y l k Hxy _ IH]; intros Hl; [constructor|].
  inversion Hl; subst. constructor; [congruence | auto].
Qed.

Lemma physicsSteps_pos (deltaTime : T) :
  exists n, Z.to_nat (physicsSteps deltaTime) = S n.
Proof.
  unfold physicsSteps.
  exists (Z.to_nat (Z.max 1 (sc_to_int
            (sc_div (sc_mul deltaTime simulationSpeed) MAX_TIMESTEP))) - 1).
  lia.
Qed.

(** X1. Accelerations are transient: after every frame of a running
    simulation each object, fixed or movable, has acceleration zero, so the
    next force pass starts from zero. *)
Theorem accelerations_cleared_after_frame deltaTime w
    (Hrun : isPaused w = false) :
  Forall (fun o => acceleration o = vzero) (objects (frame deltaTime w)).
Proof.
  unfold frame. rewrite Hrun.
  destruct (physicsSteps_pos deltaTime) as [n ->]. rewrite Nat.iter_succ.
  apply physicsStep_clears. rewrite iter_physicsStep_isPaused. exact Hrun.
Qed.

(** *** Pausing *)

(** X2. Pausing is lossless: from a running world, the space key followed
    by any frames leaves objects and trail counter as they were with the
    pause flag set, and a second space key restores the world exactly. *)
Theorem pause_is_lossless w (dts : list T) (Hrun : isPaused w = false) :
  run w (KeySpace :: map Frame dts ++ [KeySpace]) = w /\
  run w (KeySpace :: map Frame dts)
  = mkWorld (objects w) true (trailCounter w).
Proof.
  assert (Hp : forall w', isPaused w' = true ->
                          run w' (map Frame dts) = w').
  { intros w' Hw'. unfold run.
    induction dts as [|dt dts IH]; simpl; [reflexivity|].
    assert (frame dt w' = w') as ->
      by (unfold frame; rewrite Hw'; reflexivity).
    exact IH. }
  assert (Hmid : run w (KeySpace :: map Frame dts)
                 = mkWorld (objects w) true (trailCounter w)).
  { change (run w (KeySpace :: map Frame dts))
      with (run (mkWorld (objects w) (negb (isPaused w)) (trailCounter w))
                (map Frame dts)).
    rewrite Hrun. simpl negb. apply Hp. reflexivity. }
  split; [|exact Hmid].
  change (KeySpace :: map Frame dts ++ [KeySpace])
    with ((KeySpace :: map Frame dts) ++ [KeySpace]).
  unfold run in *. rewrite foldl_app, Hmid. simpl.
  destruct w as [os p tc]. simpl in *. subst p. reflexivity.
Qed.
End DriverFacts.

(** ** The shared trail counter *)

Section TrailCounter.
Context `{Scalar T}.
Implicit Types o a b : Object3D T.
Implicit Types objs : list (Object3D T).
Implicit Types w : World T.
Local Open Scope Z_scope.

Lemma int_wrap_id z : INT_MIN <= z <= INT_MAX -> int_wrap z = z.
Proof.
  unfold INT_MIN, INT_MAX, int_wrap. intros Hz.
  rewrite Z.mod_small by lia. lia.
Qed.

Lemma updatePosition_counter dt tc o :
  INT_MIN <= tc ->
  tc + Z.of_nat (if fixed o then 0 else 1)%nat <= INT_MAX ->
  (updatePosition false dt tc o).1
  = tc + Z.of_nat (if fixed o then 0 else 1)%nat.
Proof.
  intros Hlo Hhi. unfold updatePosition.
  destruct (fixed o); simpl in *; [lia|].
  apply int_wrap_id. lia.
Qed.

Lemma updatePass_counter dt objs tc :
  INT_MIN <= tc -> tc + Z.of_nat (movableCount objs) <= INT_MAX ->
  (updatePass false dt tc objs).1 = tc + Z.of_nat (movableCount objs).
Proof.
  revert tc. induction objs as [|o objs IH]; intros tc Hlo Hhi; simpl.
  - lia.
  - simpl in Hhi. rewrite Nat2Z.inj_add in *.
    pose proof (updatePosition_counter dt tc o Hlo) as Hc.
    destruct (updatePosition false dt tc o) as [tc1 o'].
    simpl in Hc. rewrite Hc by lia.
    specialize (IH (tc + Z.of_nat (if fixed o then 0 else 1)%nat)).
    destruct (updatePass false dt _ objs) as [tc2 objs']. simpl in *.
    rewrite IH by lia. lia.
Qed.

(** Object [i] is integrated with the counter advanced by the number of
    movable objects before it. *)
Lemma updatePass_lookup dt objs tc (i : nat) o :
  INT_MIN <= tc -> tc + Z.of_nat (movableCount objs) <= INT_MAX ->
  objs !! i = Some o ->
  (updatePass false dt tc objs).2 !! i
  = Some (updatePosition false dt
            (tc + Z.of_nat (movableCount (take i objs))) o).2.
Proof.
  revert tc i. induction objs as [|x objs IH]; intros tc i Hlo Hhi Hi;
    [discriminate|].
  simpl in Hhi. rewrite Nat2Z.inj_add in Hhi. simpl updatePass.
  pose proof (updatePosition_counter dt tc x Hlo) as Hc.
  destruct (updatePosition false dt tc x) as [tc1 x'] eqn:Hx.
  simpl in Hc. rewrite Hc by lia.
  specialize (IH (tc + Z.of_nat (if fixed x then 0 else 1)%nat)).
  destruct (updatePass false dt _ objs) as [tc2 objs'] eqn:Hrest.
  destruct i as [|i]; simpl in *.
  - injection Hi as ->. rewrite Z.add_0_r, Hx. reflexivity.
  - rewrite (IH i) by (assumption || lia).
    rewrite Nat2Z.inj_add. do 3 f_equal. lia.
Qed.

Lemma keepsShape_refl : Reflexive (keepsShape (T := T)).
Proof. intros o. split; reflexivity. Qed.

Lemma keepsShape_trans : Transitive (keepsShape (T := T)).
Proof. intros x y z [? ?] [? ?]. split; congruence. Qed.

Lemma force_passes_keepShape objs :
  Forall2 keepsShape objs (gravityPass (resetAccelerations objs)).
Proof.
  pose proof keepsShape_trans as Htrans. etransitivity.
  - apply pw_resetAccelerations. intros o a. split; reflexivity.
  - apply pw_gravityPass.
    + exact keepsShape_refl.
    + exact keepsShape_trans.
    + intros o a. split; reflexivity.
Qed.

Lemma collisionPass_keepsShape objs :
  Forall2 keepsShape objs (collisionPass objs).
Proof.
  apply pw_collisionPass.
  - exact keepsShape_refl.
  - exact keepsShape_trans.
  - intros a b. destruct (ResolveCollision_trail a b) as [Hta Htb].
    destruct (ResolveCollision_keepsFixed a b) as [[Hfa _] [Hfb _]].
    split; split; assumption.
Qed.

Lemma movableCount_keepsShape objs objs' (i : nat) :
  Forall2 keepsShape objs objs' ->
  movableCount (take i objs') = movableCount (take i objs).
Proof.
  intros Hs. revert i.
  induction Hs as [|x y l k [Hf _] _ IH]; intros i;
    [rewrite !take_nil; reflexivity|].
  destruct i as [|i]; simpl; [reflexivity|].
  rewrite Hf, IH. reflexivity.
Qed.

Lemma movableCount_keepsShape_all objs objs' :
  Forall2 keepsShape objs objs' -> movableCount objs' = movableCount objs.
Proof.
  intros Hs. pose proof (movableCount_keepsShape objs objs' (length objs') Hs).
  rewrite take_ge in H0 by lia.
  rewrite take_ge in H0 by (rewrite (Forall2_length _ _ _ Hs); lia).
  exact H0.
Qed.

(** X3. Trail sampling: one substep of a running simulation advances the
    shared trail counter by the number of movable objects (while it stays
    within [int]); object [i] records a trail point exactly when it is
    movable and the counter, advanced by the movable objects up to and
    including [i], is a multiple of 3. *)
Theorem trail_sampling_step dt w (i : nat) o
    (Hrun : isPaused w = false)
    (Hlo : INT_MIN <= trailCounter w)
    (Hhi : trailCounter w + Z.of_nat (movableCount (objects w)) <= INT_MAX)
    (Hi : objects w !! i = Some o) :
  trailCounter (physicsStep dt w)
  = trailCounter w + Z.of_nat (movableCount (objects w)) /\
  exists o',
    objects (physicsStep dt w) !! i = Some o' /\
    fixed o' = fixed o /\
    let c := trailCounter w
             + Z.of_nat (movableCount (take (S i) (objects w))) in
    if fixed o || negb (Z.rem c 3 =? 0) then trail o' = trail o
    else exists p, trail o' = trail_push (trail o) p.
Proof.
  pose proof (force_passes_keepShape (objects w)) as Hforce.
  set (objs1 := gravityPass (resetAccelerations (objects w))) in *.
  pose proof (movableCount_keepsShape_all _ _ Hforce) as Hcount.
  destruct (Forall2_lookup_l _ _ _ _ _ Hforce Hi) as (o1 & Ho1 & Hf1 & Ht1).
  pose proof (updatePass_counter dt objs1 (trailCounter w) Hlo) as Hc.
  pose proof (updatePass_lookup dt objs1 (trailCounter w) i o1 Hlo) as Hl.
  rewrite Hcount in Hc, Hl. specialize (Hc Hhi). specialize (Hl Hhi Ho1).
  rewrite (movableCount_keepsShape _ _ i Hforce) in Hl.
  unfold physicsStep, collisionPhase, integratePhase. rewrite Hrun.
  fold objs1.
  destruct (updatePass false dt (trailCounter w) objs1) as [tc2 objs2].
  simpl in *. split; [exact Hc|].
  pose proof (collisionPass_keepsShape objs2) as Hcol.
  destruct (Forall2_lookup_l _ _ _ _ _ Hcol Hl) as (o3 & Ho3 & Hf3 & Ht3).
  exists o3. split; [exact Ho3|].
  rewrite Hf3, Ht3.
  assert (Htake : movableCount (take (S i) (objects w))
                  = (movableCount (take i (objects w))
                     + if fixed o then 0 else 1)%nat).
  { rewrite (take_S_r _ _ _ Hi).
    generalize (take i (objects w)). intros l.
    induction l as [|x l IHl]; simpl; [lia|]. rewrite IHl. lia. }
  rewrite Htake. clear Htake.
  assert (Hrange : Z.of_nat (movableCount (take i (objects w)))
                   + Z.of_nat (if fixed o then 0 else 1)%nat
                   <= Z.of_nat (movableCount (objects w))).
  { assert (Hall : movableCount (objects w)
                    = movableCount (take i (objects w) ++ o
                                    :: drop (S i) (objects w)))
      by (rewrite take_drop_middle by exact Hi; reflexivity).
    rewrite Hall. clear Hall.
    generalize (take i (objects w)) (drop (S i) (objects w)). intros l k.
    induction l as [|x l IHl]; simpl; [destruct (fixed o); lia|].
    destruct (fixed x); lia. }
  unfold updatePosition. rewrite Hf1. simpl orb.
  destruct (fixed o) eqn:Hfo; simpl.
  - split; [exact Hf1 | exact Ht1].
  - split; [reflexivity|].
    rewrite int_wrap_id
      by (simpl in Hrange; unfold INT_MIN, INT_MAX in *; lia).
    replace (trailCounter w
             + Z.of_nat (movableCount (take i (objects w)) + 1))
      with (trailCounter w
            + Z.of_nat (movableCount (take i (objects w))) + 1) by lia.
    destruct (Z.rem _ 3 =? 0); simpl.
    + eexists. rewrite Ht1. reflexivity.
    + exact Ht1.
Qed.

Lemma movableCount_all_movable objs :
  Forall (fun o => fixed o = false) objs ->
  movableCount objs = length objs.
Proof.
  induction 1 as [|o objs Ho _ IH]; simpl; [reflexivity|].
  rewrite Ho, IH. reflexivity.
Qed.

Lemma physicsStep_keepsFixed dt w :
  Forall2 keepsFixed (objects w) (objects (physicsStep dt w)).
Proof.
  apply pw_physicsStep.
  - exact keepsFixed_refl.
  - exact keepsFixed_trans.
  - intros o a. split; simpl; auto.
  - intros. apply updatePosition_keepsFixed.
  - intros. apply ResolveCollision_keepsFixed.
Qed.

Lemma physicsStep_all_movable dt w :
  Forall (fun o => fixed o = false) (objects w) ->
  Forall (fun o => fixed o = false) (objects (physicsStep dt w)).
Proof.
  intros Hall. pose proof (physicsStep_keepsFixed dt w) as Hk.
  revert Hall. induction Hk as [|x y l k [Hf _] _ IH]; intros Hall;
    [constructor|].
  inversion Hall; subst. constructor; [congruence | auto].
Qed.

(** X4. Trail starvation: when all objects are movable, their number is a
    multiple of 3 and the counter starts at a non-negative multiple of 3,
    then through any number of substeps (while the counter stays within
    [int]) the objects at positions not congruent to 2 modulo 3 never
    record a trail point. *)
Theorem trail_starvation dt w (m n : nat)
    (Hrun : isPaused w = false)
    (Hmov : Forall (fun o => fixed o = false) (objects w))
    (Hlen : length (objects w) = (3 * m)%nat)
    (Hlo : 0 <= trailCounter w)
    (Hrem : Z.rem (trailCounter w) 3 = 0)
    (Hhi : trailCounter w + Z.of_nat (3 * m * n) <= INT_MAX) :
  forall (i : nat) o,
    (i mod 3 <> 2)%nat ->
    objects w !! i = Some o ->
    exists o',
      objects (Nat.iter n (physicsStep dt) w) !! i = Some o' /\
      trail o' = trail o.
Proof.
  intros i o Hi3 Hi.
  assert (Hinv :
    isPaused (Nat.iter n (physicsStep dt) w) = false /\
    Forall (fun o => fixed o = false)
           (objects (Nat.iter n (physicsStep dt) w)) /\
    length (objects (Nat.iter n (physicsStep dt) w)) = (3 * m)%nat /\
    trailCounter (Nat.iter n (physicsStep dt) w)
    = trailCounter w + Z.of_nat (3 * m * n) /\
    exists o', objects (Nat.iter n (physicsStep dt) w) !! i = Some o' /\
               trail o' = trail o).
  { induction n as [|n IH].
    - simpl. repeat split; try assumption; [lia|]. exists o. auto.
    - destruct IH as (Hp & Hm & Hl & Hc & o1 & Ho1 & Ht1); [lia|].
      rewrite Nat.iter_succ.
      set (w1 := Nat.iter n (physicsStep dt) w) in *.
      assert (Hcount : movableCount (objects w1) = (3 * m)%nat)
        by (rewrite movableCount_all_movable by assumption; exact Hl).
      destruct (trail_sampling_step dt w1 i o1 Hp) as (Hc' & o2 & Ho2 & _ & Ht2);
        [unfold INT_MIN; lia | rewrite Hcount, Hc; lia | exact Ho1 |].
      split; [rewrite physicsStep_isPaused; exact Hp|].
      split; [apply physicsStep_all_movable, Hm|].
      split; [rewrite <- (Forall2_length _ _ _ (physicsStep_keepsFixed dt w1));
              exact Hl|].
      split; [rewrite Hc', Hcount, Hc; lia|].
      exists o2. split; [exact Ho2|]. rewrite <- Ht1.
      assert (Hfo1 : fixed o1 = false)
        by (exact (proj1 (Forall_lookup _ _) Hm i o1 Ho1)).
      rewrite Hfo1 in Ht2. simpl in Ht2.
      assert (Htake : movableCount (take (S i) (objects w1)) = S i).
      { rewrite movableCount_all_movable
          by (apply Forall_take; exact Hm).
        rewrite length_take. pose proof (lookup_lt_Some _ _ _ Ho1). lia. }
      rewrite Htake, Hc in Ht2.
      assert (Hne : (Z.rem (trailCounter w + Z.of_nat (3 * m * n)
                            + Z.of_nat (S i)) 3 =? 0) = false).
      { apply Z.eqb_neq. rewrite Z.rem_mod_nonneg by lia.
        rewrite Z.rem_mod_nonneg in Hrem by lia.
        assert (Hi' : (Z.of_nat i) mod 3 <> 2).
        { intros Hc2. apply Hi3.
          apply Nat2Z.inj. rewrite Nat2Z.inj_mod. exact Hc2. }
        replace (trailCounter w + Z.of_nat (3 * m * n) + Z.of_nat (S i))
          with (Z.of_nat i + 1 + (trailCounter w / 3 + Z.of_nat (m * n)) * 3).
        - rewrite Z.mod_add by lia.
          pose proof (Z.mod_pos_bound (Z.of_nat i) 3 ltac:(lia)).
          rewrite Z.add_mod by lia.
          intros Hz.
          assert (Hcases : Z.of_nat i mod 3 = 0 \/ Z.of_nat i mod 3 = 1) by lia.
          destruct Hcases as [Hc0|Hc1].
          + rewrite Hc0 in Hz. discriminate Hz.
          + rewrite Hc1 in Hz. discriminate Hz.
        - pose proof (Z.div_mod (trailCounter w) 3 ltac:(lia)). lia. }
      rewrite Hne in Ht2. exact Ht2. }
  destruct Hinv as (_ & _ & _ & _ & Hex). exact Hex.
Qed.
End TrailCounter.

(** ** Contacts *)

Section ExactContacts.
Local Open Scope R_scope.
Implicit Types a b : Object3D R.
Implicit Types u v : vec3 R.

Lemma CheckCollision_R a b :
  CheckCollision a b = Rleb (collisionDist a b) (radius a + radius b).
Proof. reflexivity. Qed.

Lemma ResolveCollision_no_overlap `{Scalar T} (x y : Object3D T) :
  sc_gtb (collisionOverlap x y) (sc_of_int 0) = false ->
  ResolveCollision x y = (x, y).
Proof. intros Hno. unfold ResolveCollision. rewrite Hno. reflexivity. Qed.

(** X5. Detection and resolution agree: a pair with positive overlap is
    always detected by CheckCollision; a pair that is not detected would
    not be changed by ResolveCollision, so the guard in the collision loop
    never suppresses a resolution; a pair exactly touching is detected but
    left unchanged.  (Exact arithmetic.) *)
Theorem contact_detection_consistent a b :
  (0 < collisionOverlap a b -> CheckCollision a b = true) /\
  (CheckCollision a b = false -> ResolveCollision a b = (a, b)) /\
  (collisionDist a b = radius a + radius b ->
   CheckCollision a b = true /\ ResolveCollision a b = (a, b)) /\
  (forall (objs : list (Object3D R)) (i j : nat),
      i <> j -> objs !! i = Some a -> objs !! j = Some b ->
      collidePair objs i j
      = <[j := (ResolveCollision a b).2]>
          (<[i := (ResolveCollision a b).1]> objs)).
Proof.
  pose proof (collisionOverlap_R a b) as Ho.
  assert (H1 : 0 < collisionOverlap a b -> CheckCollision a b = true).
  { intros Hov. rewrite CheckCollision_R. apply Rleb_true. lra. }
  assert (H2 : CheckCollision a b = false -> ResolveCollision a b = (a, b)).
  { intros Hc. rewrite CheckCollision_R in Hc. apply Rleb_false in Hc.
    apply ResolveCollision_no_overlap. rewrite sc_gtb_R.
    apply Rltb_false. change (@sc_of_int R R_Scalar 0%Z) with 0. lra. }
  split; [exact H1|]. split; [exact H2|]. split.
  - intros Htouch. split.
    + rewrite CheckCollision_R. apply Rleb_true. lra.
    + apply ResolveCollision_no_overlap. rewrite sc_gtb_R.
      apply Rltb_false. change (@sc_of_int R R_Scalar 0%Z) with 0. lra.
  - intros objs i j Hij Hi Hj. unfold collidePair. rewrite Hi, Hj.
    destruct (CheckCollision a b) eqn:Hc.
    + destruct (ResolveCollision a b); reflexivity.
    + rewrite (H2 eq_refl). simpl.
      rewrite (list_insert_id objs i a Hi).
      rewrite (list_insert_id objs j b Hj). reflexivity.
Qed.

Lemma normalize_unit v : vlength v <> 0 -> dot (normalize v) (normalize v) = 1.
Proof.
  intros Hv. pose proof (vlength_sqr v) as Hs.
  unfold normalize, inversesqrt.
  change (sc_sqrt (dot v v)) with (vlength v).
  revert Hv Hs. generalize (vlength v). intros d Hd Hs.
  unfold dot in *. destruct v as [x y z]. simpl in *.
  replace (x * (1 / d) * (x * (1 / d)) + y * (1 / d) * (y * (1 / d))
           + z * (1 / d) * (z * (1 / d)))
    with ((x * x + y * y + z * z) / (d * d)) by (field; exact Hd).
  rewrite <- Hs. field. exact Hd.
Qed.

Lemma collisionNormal_unit a b :
  dot (collisionNormal a b) (collisionNormal a b) = 1.
Proof.
  unfold collisionNormal. rewrite sc_gtb_R.
  change (lit 1 1000) with (1 / 1000).
  destruct (Rlt_dec (1 / 1000) (collisionDist a b)) as [Hfar|Hnear].
  - rewrite (proj2 (Rltb_true _ _) Hfar). apply normalize_unit.
    fold (collisionDist a b). lra.
  - rewrite (proj2 (Rltb_false _ _)) by lra. unfold dot. simpl. ring.
Qed.

Lemma ResolveCollision_approaching a b :
  0 < collisionOverlap a b -> velAlongNormal a b <= 0 ->
  ResolveCollision a b
  = respond (collisionNormal a b) (impulseScalar a b)
            (separate a b).1 (separate a b).2.
Proof.
  intros Hov Hv. unfold ResolveCollision. rewrite !sc_gtb_R.
  change (@sc_of_int R R_Scalar 0%Z) with 0.
  rewrite (proj2 (Rltb_true _ _) Hov).
  rewrite (proj2 (Rltb_false _ _) Hv).
  destruct (separate a b); reflexivity.
Qed.

Lemma respond_movable_velocities n j a b :
  fixed a = false -> fixed b = false ->
  velocity (respond n j a b).1
  = vscale (vsub (velocity a) (vscale (vscale_l j n) (1 / mass a))) (98 / 100)
  /\
  velocity (respond n j a b).2
  = vscale (vadd (velocity b) (vscale (vscale_l j n) (1 / mass b))) (98 / 100).
Proof.
  intros Ha Hb. unfold respond, invMass. rewrite Ha, Hb. simpl.
  rewrite Ha, Hb. split; reflexivity.
Qed.

Lemma impulse_times_inverse_masses a b :
  fixed a = false -> fixed b = false -> 0 < mass a -> 0 < mass b ->
  impulseScalar a b * (1 / mass a + 1 / mass b)
  = - (1 + 8 / 10) * velAlongNormal a b.
Proof.
  intros Ha Hb Hma Hmb. unfold impulseScalar, invMass. rewrite Ha, Hb.
  change (lit 8 10) with (8 / 10).
  change (@sc_of_int R R_Scalar 1%Z) with 1.
  generalize (velAlongNormal a b). intros v. simpl.
  assert (Hs : 1 / mass a + 1 / mass b <> 0).
  { assert (0 < 1 / mass a) by (apply Rdiv_lt_0_compat; lra).
    assert (0 < 1 / mass b) by (apply Rdiv_lt_0_compat; lra). lra. }
  revert Hs. generalize (1 / mass a + 1 / mass b). intros s Hs.
  field. exact Hs.
Qed.

(** X6. Restitution: for two overlapping movable bodies of positive mass
    that are not separating, the relative velocity along the collision
    normal after the call is [-0.8 * 0.98] times the one before, so the
    bodies no longer approach.  (Exact arithmetic.) *)
Theorem approaching_contact_rebounds a b
    (Hfa : fixed a = false) (Hfb : fixed b = false)
    (Hma : 0 < mass a) (Hmb : 0 < mass b)
    (Hov : 0 < collisionOverlap a b)
    (Happroach : velAlongNormal a b <= 0) :
  let a' := (ResolveCollision a b).1 in
  let b' := (ResolveCollision a b).2 in
  dot (vsub (velocity b') (velocity a')) (collisionNormal a b)
  = - (8 / 10 * (98 / 100)) * velAlongNormal a b /\
  0 <= dot (vsub (velocity b') (velocity a')) (collisionNormal a b).
Proof.
  intros a' b'. subst a' b'.
  rewrite ResolveCollision_approaching by assumption.
  pose proof (separate_velocity a b) as [Hva Hvb].
  pose proof (separate_fixed a b) as [Hsa Hsb].
  assert (Hmass : mass (separate a b).1 = mass a /\
                  mass (separate a b).2 = mass b)
    by (unfold separate; rewrite Hfa, Hfb; simpl; auto).
  destruct Hmass as [Hm1 Hm2].
  destruct (respond_movable_velocities (collisionNormal a b)
              (impulseScalar a b) (separate a b).1 (separate a b).2)
    as [Hra Hrb]; [congruence | congruence |].
  rewrite Hra, Hrb, Hva, Hvb, Hm1, Hm2.
  pose proof (impulse_times_inverse_masses a b Hfa Hfb Hma Hmb) as Hj.
  pose proof (collisionNormal_unit a b) as Hn.
  assert (Heq : dot (vsub
      (vscale (vadd (velocity b)
                 (vscale (vscale_l (impulseScalar a b) (collisionNormal a b))
                    (1 / mass b))) (98 / 100))
      (vscale (vsub (velocity a)
                 (vscale (vscale_l (impulseScalar a b) (collisionNormal a b))
                    (1 / mass a))) (98 / 100)))
      (collisionNormal a b)
    = 98 / 100 * (velAlongNormal a b
                  + impulseScalar a b * (1 / mass a + 1 / mass b)
                    * dot (collisionNormal a b) (collisionNormal a b))).
  { unfold velAlongNormal.
    generalize (impulseScalar a b) (collisionNormal a b). intros j n.
    unfold dot, vsub, vadd, vscale, vscale_l. simpl. field. lra. }
  rewrite Heq, Hn, Rmult_1_r, Hj. split; [field|]. nra.
Qed.

Lemma momentum_pair (x y : Object3D R) :
  momentum [x; y]
  = vadd (vadd vzero (vscale (velocity x) (mass x)))
         (vscale (velocity y) (mass y)).
Proof. reflexivity. Qed.

(** X7. A resolved contact does not conserve momentum: for two
    overlapping movable bodies of positive mass that are not separating,
    the impulses cancel and the damping scales the total momentum of the
    pair by 0.98.  (Exact arithmetic.) *)
Theorem resolved_contact_scales_momentum a b
    (Hfa : fixed a = false) (Hfb : fixed b = false)
    (Hma : 0 < mass a) (Hmb : 0 < mass b)
    (Hov : 0 < collisionOverlap a b)
    (Happroach : velAlongNormal a b <= 0) :
  momentum [(ResolveCollision a b).1; (ResolveCollision a b).2]
  = vscale (momentum [a; b]) (98 / 100).
Proof.
  rewrite ResolveCollision_approaching by assumption.
  pose proof (separate_velocity a b) as [Hva Hvb].
  pose proof (separate_fixed a b) as [Hsa Hsb].
  assert (Hmass : mass (separate a b).1 = mass a /\
                  mass (separate a b).2 = mass b)
    by (unfold separate; rewrite Hfa, Hfb; simpl; auto).
  destruct Hmass as [Hm1 Hm2].
  assert (Hrm : forall (n : vec3 R) (j : R) (x y : Object3D R),
             mass (respond n j x y).1 = mass x /\
                                mass (respond n j x y).2 = mass y).
  { intros n j x y. unfold respond.
    destruct (fixed x) eqn:Hx, (fixed y) eqn:Hy; simpl;
      rewrite ?Hx, ?Hy; simpl; auto. }
  destruct (Hrm (collisionNormal a b) (impulseScalar a b)
              (separate a b).1 (separate a b).2) as [Hrm1 Hrm2].
  destruct (respond_movable_velocities (collisionNormal a b)
              (impulseScalar a b) (separate a b).1 (separate a b).2)
    as [Hra Hrb]; [congruence | congruence |].
  rewrite !momentum_pair.
  rewrite Hra, Hrb, Hrm1, Hrm2, Hva, Hvb, Hm1, Hm2.
  generalize (impulseScalar a b) (collisionNormal a b). intros j n.
  apply vec3_eq; simpl; field; lra.
Qed.
End ExactContacts.

(** ** Bounds *)

Section ExactBounds.
Local Open Scope R_scope.
Implicit Types a b : Object3D R.
Implicit Types u v : vec3 R.

Lemma normalize_length_le_1 v : vlength (normalize v) <= 1.
Proof.
  destruct (Req_dec (vlength v) 0) as [Hz|Hnz].
  - rewrite (vlength_zero v Hz). unfold normalize.
    generalize (inversesqrt (dot (Vec3 0 0 0) (Vec3 0 0 0))). intros k.
    unfold vlength, dot, vscale. simpl.
    match goal with |- sqrt ?e <= 1 => replace e with 0 by ring end.
    rewrite sqrt_0. lra.
  - pose proof (vlength_nonneg v) as H0.
    unfold normalize, inversesqrt.
    change (sc_sqrt (dot v v)) with (vlength v).
    rewrite vlength_vscale.
    + change (sc_div (sc_of_int 1) (vlength v)) with (1 / vlength v).
      apply Req_le. field. exact Hnz.
    + change (sc_div (sc_of_int 1) (vlength v)) with (1 / vlength v).
      apply Rlt_le, Rdiv_lt_0_compat; lra.
Qed.

(** X8. Bounded force: between two bodies of non-negative mass and
    positive radius sum whose centres are distinct, however close, the
    force is at most [G * m_a * m_b / ((r_a + r_b) * 2)^2].  (Exact
    arithmetic; at coincident centres the direction is the normalised
    zero vector, which is NaN in the code.) *)
Theorem gravity_force_bounded a b
    (Hne : position b <> position a)
    (Hr : 0 < radius a + radius b)
    (Hma : 0 <= mass a) (Hmb : 0 <= mass b) :
  vlength (gravityForce a b)
  <= G * mass a * mass b
     / ((radius a + radius b) * 2 * ((radius a + radius b) * 2)).
Proof.
  unfold gravityForce. rewrite gravityDistance_R.
  pose proof (Rmax_r (vlength (vsub (position b) (position a)))
                     ((radius a + radius b) * 2)) as Hfloor.
  fold (clampedDistance a b) in Hfloor.
  set (d := clampedDistance a b) in *.
  set (f := (radius a + radius b) * 2) in *.
  assert (Hf : 0 < f) by (unfold f; lra).
  pose proof G_pos as HG.
  assert (Hnum : 0 <= G * mass a * mass b).
  { apply Rmult_le_pos; [apply Rmult_le_pos|]; lra. }
  assert (Hdd : f * f <= d * d) by nra.
  assert (Hfm : 0 <= G * mass a * mass b / (d * d)).
  { apply Rle_mult_inv_pos; [exact Hnum | nra]. }
  change (sc_div (sc_mul (sc_mul G (mass a)) (mass b)) (sc_mul d d))
    with (G * mass a * mass b / (d * d)).
  rewrite vlength_vscale by exact Hfm.
  pose proof (normalize_length_le_1 (vsub (position b) (position a))) as Hn.
  pose proof (vlength_nonneg (normalize (vsub (position b) (position a))))
    as Hn0.
  apply Rle_trans with (G * mass a * mass b / (d * d) * 1).
  - apply Rmult_le_compat_l; assumption.
  - rewrite Rmult_1_r. unfold Rdiv.
    apply Rmult_le_compat_l; [exact Hnum|].
    apply Rinv_le_contravar; nra.
Qed.

(** *** Simulated time *)







End ExactBounds.

(** ** Momentum of many bodies *)

Section Sums.
Local Open Scope R_scope.

Lemma Rsum_map_add {A} (g h : A -> R) (l : list A) :
  Rsum (map (fun x => g x + h x) l) = Rsum (map g l) + Rsum (map h l).
Proof. induction l as [|x l IH]; simpl; [lra|]. rewrite IH. lra. Qed.

Lemma Rsum_map_zero {A} (g : A -> R) (l : list A) :
  (forall x, g x = 0) -> Rsum (map g l) = 0.
Proof.
  intros Hg. induction l as [|x l IH]; simpl; [reflexivity|].
  rewrite Hg, IH. lra.
Qed.

Lemma Rsum_map_ext {A} (g h : A -> R) (l : list A) :
  (forall x, g x = h x) -> Rsum (map g l) = Rsum (map h l).
Proof.
  intros Hgh. induction l as [|x l IH]; simpl; [reflexivity|].
  rewrite Hgh, IH. reflexivity.
Qed.

Lemma Rsum_app (l k : list R) : Rsum (l ++ k) = Rsum l + Rsum k.
Proof. induction l as [|x l IH]; simpl; [lra|]. rewrite IH. lra. Qed.

(** A double sum of an antisymmetric function vanishes. *)
Lemma Rsum_double_antisym {A} (f : A -> A -> R) (l : list A) :
  (forall i j, f j i = - f i j) ->
  Rsum (map (fun i => Rsum (map (f i) l)) l) = 0.
Proof.
  intros Hanti.
  assert (Hdiag : forall x, f x x = 0)
    by (intros x; pose proof (Hanti x x); lra).
  induction l as [|x l IH]; simpl; [reflexivity|].
  rewrite Hdiag.
  rewrite (Rsum_map_add (fun i => f i x) (fun i => Rsum (map (f i) l))), IH.
  assert (Hpair : Rsum (map (f x) l) + Rsum (map (fun i => f i x) l) = 0).
  { rewrite <- Rsum_map_add. apply Rsum_map_zero.
    intros j. rewrite (Hanti x j). lra. }
  lra.
Qed.

Lemma foldl_add_Rsum {A} (g : A -> R) (l : list A) (s : R) :
  foldl (fun acc x => acc + g x) s l = s + Rsum (map g l).
Proof.
  revert s. induction l as [|x l IH]; intros s; simpl; [lra|].
  rewrite IH. lra.
Qed.
End Sums.

(** A linear coordinate of a vector: one of [vx], [vy], [vz]. *)
Section Coordinate.
Local Open Scope R_scope.
Variable c : vec3 R -> R.
Hypothesis c_vadd : forall u v, c (vadd u v) = c u + c v.
Hypothesis c_vscale : forall v k, c (vscale v k) = c v * k.
Hypothesis c_vdivs : forall v k, c (vdivs v k) = c v / k.
Hypothesis c_zero : c (Vec3 0 0 0) = 0.
Implicit Types o a b : Object3D R.
Implicit Types objs base cur : list (Object3D R).

Lemma c_momentum objs :
  c (momentum objs) = Rsum (map (fun o => c (velocity o) * mass o) objs).
Proof.
  unfold momentum.
  assert (Hgen : forall p,
    c (foldl (fun p o => vadd p (vscale (velocity o) (mass o))) p objs)
    = c p + Rsum (map (fun o => c (velocity o) * mass o) objs)).
  { induction objs as [|o objs IH]; intros p; simpl; [lra|].
    rewrite IH, c_vadd, c_vscale. lra. }
  rewrite Hgen. change (@vzero R R_Scalar) with (Vec3 0 0 0).
  rewrite c_zero. lra.
Qed.

Lemma massAcc_insert objs (i : nat) o o' :
  objs !! i = Some o ->
  massAcc c (<[i := o']> objs)
  = massAcc c objs - c (acceleration o) * mass o + c (acceleration o') * mass o'.
Proof.
  intros Hi. unfold massAcc.
  rewrite insert_take_drop by (eapply lookup_lt_Some, Hi).
  rewrite <- (take_drop_middle objs i o Hi) at 3.
  rewrite !map_app, !Rsum_app. simpl. lra.
Qed.

Lemma calculate_massAcc base cur (i j : nat) :
  Forall2 sameButAcceleration base cur ->
  Forall (fun o => fixed o = false /\ 0 < mass o) base ->
  massAcc c (calculateGravitationalForce cur i j)
  = massAcc c cur + c (pairForce base i j).
Proof.
  intros Hsame Hbase. unfold calculateGravitationalForce, pairForce.
  destruct (j =? i)%nat; [rewrite c_zero; lra|].
  destruct (base !! i) as [a|] eqn:Ha.
  - destruct (Forall2_lookup_l _ _ _ _ _ Hsame Ha) as (a' & Ha' & Haa').
    rewrite Ha'.
    destruct (base !! j) as [b|] eqn:Hb.
    + destruct (Forall2_lookup_l _ _ _ _ _ Hsame Hb) as (b' & Hb' & Hbb').
      rewrite Hb'.
      rewrite (massAcc_insert cur i a' _ Ha').
      rewrite (gravityForce_ext a a' b b' Haa' Hbb').
      destruct (proj1 (Forall_lookup _ _) Hbase i a Ha) as [Hfa Hma].
      assert (Hfa' : fixed a' = false) by (rewrite Haa'; exact Hfa).
      assert (Hma' : mass a' = mass a) by (rewrite Haa'; reflexivity).
      unfold applyForce. rewrite Hfa'. simpl.
      rewrite c_vadd, c_vdivs, Hma'. field. lra.
    + apply lookup_ge_None in Hb.
      rewrite (Forall2_length _ _ _ Hsame) in Hb.
      apply lookup_ge_None in Hb. rewrite Hb, c_zero. lra.
  - apply lookup_ge_None in Ha.
    rewrite (Forall2_length _ _ _ Hsame) in Ha.
    apply lookup_ge_None in Ha. rewrite Ha, c_zero. lra.
Qed.

Lemma sameButAcceleration_calculate base cur (i j : nat) :
  Forall2 sameButAcceleration base cur ->
  Forall2 sameButAcceleration base (calculateGravitationalForce cur i j).
Proof.
  intros Hsame. pose proof (sameButAcceleration_trans (T := R)) as Htr.
  etransitivity; [exact Hsame|].
  apply pw_calculateGravitationalForce.
  - exact sameButAcceleration_refl.
  - exact sameButAcceleration_set.
Qed.

Lemma row_massAcc base (i : nat) (js : list nat) cur :
  Forall2 sameButAcceleration base cur ->
  Forall (fun o => fixed o = false /\ 0 < mass o) base ->
  Forall2 sameButAcceleration base
    (foldl (fun objs j => calculateGravitationalForce objs i j) cur js) /\
  massAcc c (foldl (fun objs j => calculateGravitationalForce objs i j) cur js)
  = massAcc c cur + Rsum (map (fun j => c (pairForce base i j)) js).
Proof.
  intros Hsame Hbase. revert cur Hsame.
  induction js as [|j js IH]; intros cur Hsame; simpl.
  - split; [exact Hsame | lra].
  - destruct (IH (calculateGravitationalForce cur i j)
                 (sameButAcceleration_calculate base cur i j Hsame))
      as [Hs Hm].
    split; [exact Hs|].
    rewrite Hm, (calculate_massAcc base cur i j Hsame Hbase). lra.
Qed.

Lemma rows_massAcc base (rows : list nat) cur :
  Forall2 sameButAcceleration base cur ->
  Forall (fun o => fixed o = false /\ 0 < mass o) base ->
  massAcc c (foldl gravityRow cur rows)
  = massAcc c cur
    + Rsum (map (fun i => Rsum (map (fun j => c (pairForce base i j))
                                    (seq 0 (length base)))) rows).
Proof.
  intros Hsame Hbase. revert cur Hsame.
  induction rows as [|i rows IH]; intros cur Hsame; simpl; [lra|].
  destruct (row_massAcc base i (seq 0 (length cur)) cur Hsame Hbase)
    as [Hs Hm].
  rewrite (IH (gravityRow cur i) Hs). unfold gravityRow.
  rewrite Hm, (Forall2_length _ _ _ Hsame). lra.
Qed.

Lemma pairForce_antisym base (i j : nat) :
  c (pairForce base j i) = - c (pairForce base i j).
Proof.
  unfold pairForce. rewrite (Nat.eqb_sym i j).
  destruct (j =? i)%nat; [rewrite c_zero; lra|].
  destruct (base !! i) as [a|], (base !! j) as [b|];
    rewrite ?c_zero; try lra.
  rewrite (gravityForce_opposite b a), c_vscale. lra.
Qed.

(** After the force pass on objects whose accelerations were reset, the
    mass-weighted accelerations sum to zero. *)
Lemma gravityPass_massAcc objs :
  Forall (fun o => fixed o = false /\ 0 < mass o) objs ->
  massAcc c (gravityPass (resetAccelerations objs)) = 0.
Proof.
  intros Hobjs.
  set (base := resetAccelerations objs).
  assert (Hbase : Forall (fun o => fixed o = false /\ 0 < mass o) base).
  { unfold base, resetAccelerations. apply Forall_fmap.
    eapply Forall_impl; [exact Hobjs|]. intros o Ho. exact Ho. }
  unfold gravityPass.
  rewrite (rows_massAcc base (seq 0 (length base)) base);
    [|apply Forall2_same_length_lookup; split; [reflexivity|];
      intros i x y Hx Hy; assert (x = y) as -> by congruence;
      apply sameButAcceleration_refl | exact Hbase].
  rewrite (Rsum_double_antisym (fun i j => c (pairForce base i j)))
    by (intros i j; apply pairForce_antisym).
  unfold massAcc, base, resetAccelerations.
  rewrite <- list_fmap_compose. rewrite Rsum_map_zero; [lra|].
  intros o. simpl. change (@vzero R R_Scalar) with (Vec3 0 0 0).
  rewrite c_zero. lra.
Qed.

(** The integrator adds [massAcc * h] to the momentum. *)
Lemma updatePass_momentum dt tc objs :
  Forall (fun o => fixed o = false /\ 0 < mass o) objs ->
  Rsum (map (fun o => c (velocity o) * mass o)
            (updatePass false dt tc objs).2)
  = Rsum (map (fun o => c (velocity o) * mass o) objs)
    + massAcc c objs * actualDt dt.
Proof.
  unfold massAcc. revert tc.
  induction objs as [|o objs IH]; intros tc Hobjs; simpl; [lra|].
  inversion Hobjs as [|? ? [Hf Hm] Hrest]; subst.
  destruct (updatePosition false dt tc o) as [tc1 o'] eqn:Hu.
  specialize (IH tc1 Hrest).
  destruct (updatePass false dt tc1 objs) as [tc2 objs']. simpl in *.
  rewrite IH.
  unfold updatePosition in Hu. rewrite Hf in Hu. simpl in Hu.
  injection Hu as _ <-. simpl. rewrite c_vadd, c_vscale. lra.
Qed.

Lemma sameButAcceleration_momentum objs objs' :
  Forall2 sameButAcceleration objs objs' ->
  Rsum (map (fun o => c (velocity o) * mass o) objs')
  = Rsum (map (fun o => c (velocity o) * mass o) objs).
Proof.
  induction 1 as [|x y l k Hxy _ IH]; simpl; [reflexivity|].
  rewrite IH, Hxy. reflexivity.
Qed.

Lemma integratePhase_momentum dt (w : World R) :
  isPaused w = false ->
  Forall (fun o => fixed o = false /\ 0 < mass o) (objects w) ->
  c (momentum (objects (integratePhase dt w))) = c (momentum (objects w)).
Proof.
  intros Hp Hobjs. rewrite !c_momentum.
  unfold integratePhase. rewrite Hp.
  set (objs1 := gravityPass (resetAccelerations (objects w))).
  assert (Hsame : Forall2 sameButAcceleration (objects w) objs1).
  { pose proof (sameButAcceleration_trans (T := R)) as Htr.
    etransitivity.
    - apply pw_resetAccelerations. exact sameButAcceleration_set.
    - apply pw_gravityPass.
      + exact sameButAcceleration_refl.
      + exact sameButAcceleration_trans.
      + exact sameButAcceleration_set. }
  assert (Hobjs1 : Forall (fun o => fixed o = false /\ 0 < mass o) objs1).
  { revert Hobjs. induction Hsame as [|x y l k Hxy _ IH]; intros Hl;
      [constructor|].
    inversion Hl as [|? ? [Hf Hm] Hrest]; subst.
    constructor; [|auto]. rewrite Hxy. simpl. auto. }
  pose proof (updatePass_momentum dt (trailCounter w) objs1 Hobjs1) as Hup.
  destruct (updatePass false dt (trailCounter w) objs1) as [tc objs2].
  simpl in *. rewrite Hup.
  rewrite (sameButAcceleration_momentum _ _ Hsame).
  unfold objs1. rewrite (gravityPass_massAcc (objects w) Hobjs). lra.
Qed.
End Coordinate.

Section ManyBodies.
Local Open Scope R_scope.
Implicit Types w : World R.

Lemma keepsMass_physicsStep dt w :
  Forall2 keepsMass (objects w) (objects (physicsStep dt w)).
Proof.
  apply pw_physicsStep.
  - intros o. split; reflexivity.
  - intros x y z [? ?] [? ?]. split; congruence.
  - intros o a. split; reflexivity.
  - intros p d tc o. unfold updatePosition.
    destruct (fixed o || p); split; reflexivity.
  - intros a b.
    destruct (ResolveCollision_keepsFixed a b) as [[Hfa _] [Hfb _]].
    assert (Hs : mass (separate a b).1 = mass a /\
                 mass (separate a b).2 = mass b)
      by (unfold separate; destruct (fixed a), (fixed b); simpl; auto).
    assert (Hr : forall (n : vec3 R) (j : R) (x y : Object3D R),
               mass (respond n j x y).1 = mass x /\
               mass (respond n j x y).2 = mass y).
    { intros n j x y. unfold respond.
      destruct (fixed x) eqn:Hx, (fixed y) eqn:Hy; simpl;
        rewrite ?Hx, ?Hy; simpl; auto. }
    destruct Hs as [Hsa Hsb].
    destruct (Hr (collisionNormal a b) (impulseScalar a b)
                 (separate a b).1 (separate a b).2) as [Hra Hrb].
    unfold keepsMass.
    destruct (ResolveCollision_cases a b) as [He | [He | He]];
      rewrite He in *; simpl in *; repeat split; congruence.
Qed.

Lemma keepsMass_bodies (l k : list (Object3D R)) :
  Forall2 keepsMass l k ->
  Forall (fun o => fixed o = false /\ 0 < mass o) l ->
  Forall (fun o => fixed o = false /\ 0 < mass o) k.
Proof.
  induction 1 as [|x y l k [Hf Hmass] _ IH]; intros Hl; [constructor|].
  inversion Hl as [|? ? [Hfx Hmx] Hrest]; subst.
  constructor; [split; [congruence | rewrite Hmass; exact Hmx] | auto].
Qed.

Lemma physicsStep_momentum dt w :
  isPaused w = false ->
  Forall (fun o => fixed o = false /\ 0 < mass o) (objects w) ->
  noCollision (objects (integratePhase dt w)) ->
  momentum (objects (physicsStep dt w)) = momentum (objects w).
Proof.
  intros Hp Hobjs Hno. unfold physicsStep, collisionPhase. simpl.
  rewrite collisionPass_noCollision by exact Hno.
  apply vec3_eq.
  - exact (integratePhase_momentum vx (fun _ _ => eq_refl) (fun _ _ => eq_refl)
             (fun _ _ => eq_refl) eq_refl dt w Hp Hobjs).
  - exact (integratePhase_momentum vy (fun _ _ => eq_refl) (fun _ _ => eq_refl)
             (fun _ _ => eq_refl) eq_refl dt w Hp Hobjs).
  - exact (integratePhase_momentum vz (fun _ _ => eq_refl) (fun _ _ => eq_refl)
             (fun _ _ => eq_refl) eq_refl dt w Hp Hobjs).
Qed.

(** X10. Momentum of any number of bodies: in a world of movable bodies
    of positive mass and non-negative radius, no two of them in contact, a
    frame during which the collision loop finds no pair in contact leaves
    the total momentum unchanged.  Bodies that are not in contact have
    distinct centres, so the force pass divides by no zero.  (Exact
    arithmetic.) *)
Theorem momentum_conserved_many_bodies (deltaTime : R) w
    (Hbodies : Forall (fun o => fixed o = false /\ 0 < mass o) (objects w))
    (Hradii : Forall (fun o => 0 <= radius o) (objects w))
    (Hstart : noCollision (objects w))
    (Hno : noCollisionDuring deltaTime w) :
  momentum (objects (frame deltaTime w)) = momentum (objects w).
Proof.
  unfold frame. destruct (isPaused w) eqn:Hp; [reflexivity|].
  unfold noCollisionDuring in Hno.
  set (dt := physicsTimeStep deltaTime) in *.
  revert Hno. generalize (Z.to_nat (physicsSteps deltaTime)). intros n Hno.
  assert (Hinv :
    Forall (fun o => fixed o = false /\ 0 < mass o)
           (objects (Nat.iter n (physicsStep dt) w)) /\
    momentum (objects (Nat.iter n (physicsStep dt) w))
    = momentum (objects w)).
  { induction n as [|n IH]; [split; [exact Hbodies | reflexivity]|].
    destruct IH as [Hb Hm]; [intros k Hk; apply Hno; lia|].
    rewrite Nat.iter_succ.
    set (w1 := Nat.iter n (physicsStep dt) w) in *.
    split.
    - exact (keepsMass_bodies _ _ (keepsMass_physicsStep dt w1) Hb).
    - rewrite <- Hm. apply physicsStep_momentum.
      + unfold w1. clear -Hp. induction n as [|n IHn]; [exact Hp|].
        rewrite Nat.iter_succ.
        unfold physicsStep, collisionPhase, integratePhase.
        destruct (updatePass _ _ _ _). exact IHn.
      + exact Hb.
      + apply Hno. lia. }
  exact (proj2 Hinv).
Qed.
End ManyBodies.


(** ** Witnesses of the further properties *)

(** [accelerations_cleared_after_frame] at the three balls. *)
Lemma accelerations_cleared_after_frame_witness :
  Forall (fun o => acceleration o = vzero)
         (objects (frame (lit 1 1000) threeBalls)).
Proof.
  apply (accelerations_cleared_after_frame (lit 1 1000) threeBalls).
  reflexivity.
Defined.

(** [pause_is_lossless] at the two equal balls, paused over two frames. *)
Lemma pause_is_lossless_witness :
  run equalBalls
      (KeySpace :: map Frame [lit 1 1000; lit 25 10000] ++ [KeySpace])
  = equalBalls.
Proof.
  exact (proj1 (pause_is_lossless equalBalls [lit 1 1000; lit 25 10000]
                  eq_refl)).
Defined.

(** [trail_sampling_step] at the third of the three balls, the one that
    records a point in the first substep. *)
Lemma trail_sampling_step_witness :
  trailCounter (physicsStep (lit 1 1000) threeBalls) = 3%Z.
Proof.
  assert (Hlo : (INT_MIN <= trailCounter threeBalls)%Z)
    by (vm_compute; discriminate).
  assert (Hhi : (trailCounter threeBalls
                 + Z.of_nat (movableCount (objects threeBalls))
                 <= INT_MAX)%Z)
    by (vm_compute; discriminate).
  exact (proj1 (trail_sampling_step (lit 1 1000) threeBalls 2
                  (ball 10 0 0 10) eq_refl Hlo Hhi eq_refl)).
Defined.

(** [trail_starvation] at the first of the three balls, over two
    substeps. *)
Lemma trail_starvation_witness :
  exists o',
    objects (Nat.iter 2 (physicsStep (lit 1 1000)) threeBalls) !! 0%nat
    = Some o' /\ trail o' = [].
Proof.
  assert (Hmov : Forall (fun o => fixed o = false) (objects threeBalls))
    by (repeat constructor).
  assert (Hlo : (0 <= trailCounter threeBalls)%Z) by (simpl; lia).
  assert (Hhi : (trailCounter threeBalls + Z.of_nat (3 * 1 * 2)
                 <= INT_MAX)%Z)
    by (vm_compute; discriminate).
  assert (Hmod : (0 mod 3 <> 2)%nat) by (simpl; lia).
  exact (trail_starvation (lit 1 1000) threeBalls 1 2 eq_refl Hmov eq_refl
           Hlo eq_refl Hhi 0%nat (ball 0 0 0 10) Hmod eq_refl).
Defined.

Section FurtherExactWitnesses.
Local Open Scope R_scope.

Lemma rball_delta_along_x x x' u v m r u' v' m' r' :
  x < x' ->
  collisionDist (rball x u v m r) (rball x' u' v' m' r') = x' - x /\
  normalize (collisionDelta (rball x u v m r) (rball x' u' v' m' r'))
  = Vec3 1 0 0.
Proof.
  intros Hx. unfold collisionDist.
  destruct (along_x (collisionDelta (rball x u v m r)
                                    (rball x' u' v' m' r'))) as [Hl Hn];
    [simpl; lra | simpl; lra | simpl; lra |].
  split; [rewrite Hl; reflexivity | exact Hn].
Qed.

(** [contact_detection_consistent] at two balls of radius 1 whose centres
    are exactly two units apart. *)
Lemma contact_detection_consistent_witness :
  CheckCollision (rball 0 0 0 1 1) (rball 2 0 0 3 1) = true /\
  ResolveCollision (rball 0 0 0 1 1) (rball 2 0 0 3 1)
  = (rball 0 0 0 1 1, rball 2 0 0 3 1).
Proof.
  assert (Htouch : collisionDist (rball 0 0 0 1 1) (rball 2 0 0 3 1)
                   = radius (rball 0 0 0 1 1) + radius (rball 2 0 0 3 1)).
  { rewrite (proj1 (rball_delta_along_x 0 2 0 0 1 1 0 0 3 1 ltac:(lra))).
    simpl. lra. }
  exact (proj1 (proj2 (proj2
           (contact_detection_consistent (rball 0 0 0 1 1)
                                         (rball 2 0 0 3 1)))) Htouch).
Defined.

Lemma rball_head_on :
  0 < collisionOverlap (rball 0 1 0 1 1) (rball 1 (-1) 0 3 1) /\
  velAlongNormal (rball 0 1 0 1 1) (rball 1 (-1) 0 3 1) <= 0.
Proof.
  split; [rewrite rball_overlap; lra|].
  destruct (rball_delta_along_x 0 1 1 0 1 1 (-1) 0 3 1 ltac:(lra))
    as [Hd Hn].
  unfold velAlongNormal, collisionNormal. rewrite sc_gtb_R, Hd, Hn.
  change (lit 1 1000) with (1 / 1000).
  rewrite (proj2 (Rltb_true _ _)) by lra.
  unfold dot. simpl. lra.
Qed.

(** [approaching_contact_rebounds] at two overlapping balls flying at each
    other. *)
Lemma approaching_contact_rebounds_witness :
  0 <= dot (vsub (velocity (ResolveCollision (rball 0 1 0 1 1)
                                             (rball 1 (-1) 0 3 1)).2)
                 (velocity (ResolveCollision (rball 0 1 0 1 1)
                                             (rball 1 (-1) 0 3 1)).1))
           (collisionNormal (rball 0 1 0 1 1) (rball 1 (-1) 0 3 1)).
Proof.
  destruct rball_head_on as [Hov Hv].
  assert (Hma : 0 < mass (rball 0 1 0 1 1)) by (simpl; lra).
  assert (Hmb : 0 < mass (rball 1 (-1) 0 3 1)) by (simpl; lra).
  exact (proj2 (approaching_contact_rebounds (rball 0 1 0 1 1)
                  (rball 1 (-1) 0 3 1) eq_refl eq_refl Hma Hmb Hov Hv)).
Defined.

(** [resolved_contact_scales_momentum] at the same two balls. *)
Lemma resolved_contact_scales_momentum_witness :
  momentum [(ResolveCollision (rball 0 1 0 1 1) (rball 1 (-1) 0 3 1)).1;
            (ResolveCollision (rball 0 1 0 1 1) (rball 1 (-1) 0 3 1)).2]
  = vscale (momentum [rball 0 1 0 1 1; rball 1 (-1) 0 3 1]) (98 / 100).
Proof.
  destruct rball_head_on as [Hov Hv].
  assert (Hma : 0 < mass (rball 0 1 0 1 1)) by (simpl; lra).
  assert (Hmb : 0 < mass (rball 1 (-1) 0 3 1)) by (simpl; lra).
  exact (resolved_contact_scales_momentum (rball 0 1 0 1 1)
           (rball 1 (-1) 0 3 1) eq_refl eq_refl Hma Hmb Hov Hv).
Defined.

(** [gravity_force_bounded] at the two balls ten units apart. *)
Lemma gravity_force_bounded_witness :
  vlength (gravityForce (rball 0 0 0 1 1) (rball 10 0 0 3 1))
  <= G * 1 * 3 / ((1 + 1) * 2 * ((1 + 1) * 2)).
Proof.
  assert (Hr : 0 < radius (rball 0 0 0 1 1) + radius (rball 10 0 0 3 1))
    by (simpl; lra).
  assert (Hma : 0 <= mass (rball 0 0 0 1 1)) by (simpl; lra).
  assert (Hmb : 0 <= mass (rball 10 0 0 3 1)) by (simpl; lra).
  assert (Hne : position (rball 10 0 0 3 1) <> position (rball 0 0 0 1 1))
    by (apply rball_distinct; lra).
  exact (gravity_force_bounded (rball 0 0 0 1 1) (rball 10 0 0 3 1)
           Hne Hr Hma Hmb).
Defined.


Lemma twoBalls_apart : noCollision (objects twoBalls).
Proof.
  intros i j a b Hij Hi Hj.
  destruct i as [|[|i]], j as [|[|j]]; simpl in Hi, Hj;
    try lia; try discriminate.
  injection Hi as <-. injection Hj as <-.
  unfold CheckCollision. change (@sc_leb R R_Scalar) with Rleb.
  apply Rleb_false. simpl radius. simpl position.
  eapply Rlt_le_trans; [|apply vlength_ge_abs_x].
  eapply Rlt_le_trans; [|apply Rle_abs]. simpl. lra.
Qed.

(** [momentum_conserved_many_bodies] at the two balls ten units apart. *)
Lemma momentum_conserved_many_bodies_witness :
  momentum (objects (frame (1 / 1000) twoBalls)) = momentum (objects twoBalls).
Proof.
  assert (Hbodies : Forall (fun o => fixed o = false /\ 0 < mass o)
                           (objects twoBalls))
    by (repeat constructor; simpl; lra).
  assert (Hradii : Forall (fun o => 0 <= radius o) (objects twoBalls))
    by (repeat constructor; simpl; lra).
  exact (momentum_conserved_many_bodies (1 / 1000) twoBalls Hbodies Hradii
           twoBalls_apart twoBalls_noCollision).
Defined.
End FurtherExactWitnesses.



(** ** The solar-system variant *)

Section SolarFacts.
Context `{Scalar T} `{Scalar D} (widen : T -> D) (narrow : D -> T) (G : D).
Implicit Types o a b : SolarSystem.Object3D T.
Implicit Types objs : list (SolarSystem.Object3D T).
Implicit Types w : SolarSystem.World T.

Lemma solar_trail_push_last (t : list (vec3 T)) p :
  last (SolarSystem.trail_push t p) = Some p.
Proof.
  unfold SolarSystem.trail_push.
  destruct (Nat.ltb_spec SolarSystem.maxTrailLength (length (t ++ [p])))
    as [Hgt|Hle]; [|apply last_snoc].
  destruct t as [|x t]; simpl.
  - rewrite length_app in Hgt. simpl in Hgt.
    unfold SolarSystem.maxTrailLength in Hgt. lia.
  - apply last_snoc.
Qed.

Lemma solar_trail_push_length (t : list (vec3 T)) p :
  length t <= SolarSystem.maxTrailLength ->
  length (SolarSystem.trail_push t p)
  = Nat.min (S (length t)) SolarSystem.maxTrailLength.
Proof.
  intros Ht.
  destruct (solar_trail_push_cases t p) as (Hlt & Heq & _).
  destruct (decide (length t = SolarSystem.maxTrailLength)) as [He|Hne].
  - rewrite (Heq He). destruct t as [|x t]; cbn [tail length] in *.
    + unfold SolarSystem.maxTrailLength in He. lia.
    + rewrite length_app. cbn [length]. lia.
  - rewrite Hlt by lia. rewrite length_app. cbn [length]. lia.
Qed.

Lemma Forall2_foldl_keeps {A B} (R : relation A)
    (f : list A -> B -> list A) :
  Reflexive R -> Transitive R ->
  (forall l y, Forall2 R l (f l y)) ->
  forall xs l, Forall2 R l (foldl f l xs).
Proof.
  intros Hrefl Htrans Hf xs.
  induction xs as [|x xs IH]; intros l; simpl; [reflexivity|].
  etransitivity; [apply (Hf l x) | apply IH].
Qed.

Lemma solar_gravityPass_keeps (R : relation (SolarSystem.Object3D T)) objs :
  Reflexive R -> Transitive R ->
  (forall o force, R o (SolarSystem.applyForce o force)) ->
  Forall2 R objs (SolarSystem.gravityPass widen narrow G objs).
Proof.
  intros Hrefl Htrans Happly. unfold SolarSystem.gravityPass.
  apply Forall2_foldl_keeps; [assumption | assumption |]. intros l i.
  unfold SolarSystem.gravityRow.
  apply Forall2_foldl_keeps; [assumption | assumption |]. intros l' j.
  unfold SolarSystem.calculateGravitationalForce.
  destruct (j =? i)%nat; [reflexivity|].
  destruct (l' !! i) as [a|] eqn:Ha; [|reflexivity].
  destruct (l' !! j) as [b|]; [|reflexivity].
  rewrite <- (list_insert_id l' i a Ha) at 1.
  apply Forall2_insert; [reflexivity | apply Happly].
Qed.

Lemma solar_gravityPass_trail_eq objs :
  Forall2 (fun o o' => SolarSystem.trail o' = SolarSystem.trail o)
          objs (SolarSystem.gravityPass widen narrow G objs).
Proof.
  apply solar_gravityPass_keeps.
  - intros o. reflexivity.
  - intros x y z Hxy Hyz. congruence.
  - intros o force. reflexivity.
Qed.

(** X11. In the solar-system variant an unpaused frame leaves every body
    with zero acceleration and a trail that ends with its new position; a
    trail within the cap of 500 grows by one point until it holds 500. *)
Theorem solar_frame_records_positions deltaTime w
    (Hrun : SolarSystem.isPaused w = false)
    (Hcap : Forall solarTrailBounded (SolarSystem.objects w)) :
  Forall (fun o => SolarSystem.acceleration o = vzero /\ solarTrailCurrent o)
         (SolarSystem.objects (SolarSystem.frame widen narrow G deltaTime w))
  /\
  Forall2 (fun o o' =>
             length (SolarSystem.trail o')
             = Nat.min (S (length (SolarSystem.trail o))) 500)
          (SolarSystem.objects w)
          (SolarSystem.objects (SolarSystem.frame widen narrow G deltaTime w)).
Proof.
  unfold SolarSystem.frame. rewrite Hrun. simpl. split.
  - apply Forall_fmap, Forall_true. intros o.
    unfold compose, SolarSystem.updatePosition, solarTrailCurrent. simpl.
    split; [reflexivity | apply solar_trail_push_last].
  - pose proof (solar_gravityPass_trail_eq (SolarSystem.objects w)) as Htr.
    revert Hcap.
    induction Htr as [|x y l k Hxy _ IH]; intros Hcap; simpl;
      [constructor|].
    inversion Hcap as [|? ? Hx Hrest]; subst.
    constructor; [|auto].
    unfold SolarSystem.updatePosition. simpl. rewrite Hxy.
    apply solar_trail_push_length. exact Hx.
Qed.
End SolarFacts.

Section SolarExact.
Local Open Scope R_scope.
Variable G : R.
Implicit Types o a b : SolarSystem.Object3D R.
Implicit Types objs base cur : list (SolarSystem.Object3D R).

Lemma solarSame_refl : Reflexive (solarSameButAcceleration (T := R)).
Proof. intros [ ]; reflexivity. Qed.

Lemma solarSame_trans : Transitive (solarSameButAcceleration (T := R)).
Proof.
  intros x y z Hxy Hyz. unfold solarSameButAcceleration in *.
  rewrite Hyz at 1. rewrite Hxy. reflexivity.
Qed.

Lemma solarSame_applyForce o force :
  solarSameButAcceleration o (SolarSystem.applyForce o force).
Proof. reflexivity. Qed.

Lemma solarForce_ext a a' b b' :
  solarSameButAcceleration a a' -> solarSameButAcceleration b b' ->
  solarForce G a' b' = solarForce G a b.
Proof. intros -> ->. reflexivity. Qed.

Lemma solarForce_opposite a b :
  solarForce G b a = vscale (solarForce G a b) (-1).
Proof.
  unfold solarForce, SolarSystem.gravityForce.
  rewrite (vlength_vsub_sym (SolarSystem.position a) (SolarSystem.position b)).
  change (sc_add (SolarSystem.radius b) (SolarSystem.radius a))
    with (SolarSystem.radius b + SolarSystem.radius a).
  rewrite (Rplus_comm (SolarSystem.radius b) (SolarSystem.radius a)).
  change (SolarSystem.radius a + SolarSystem.radius b)
    with (sc_add (SolarSystem.radius a) (SolarSystem.radius b)).
  generalize (sc_max (vlength (vsub (SolarSystem.position b)
                                    (SolarSystem.position a)))
                     (sc_add (SolarSystem.radius a) (SolarSystem.radius b))).
  intros d.
  unfold normalize, inversesqrt.
  change (sc_sqrt (dot (vsub (SolarSystem.position a) (SolarSystem.position b))
                       (vsub (SolarSystem.position a) (SolarSystem.position b))))
    with (vlength (vsub (SolarSystem.position a) (SolarSystem.position b))).
  change (sc_sqrt (dot (vsub (SolarSystem.position b) (SolarSystem.position a))
                       (vsub (SolarSystem.position b) (SolarSystem.position a))))
    with (vlength (vsub (SolarSystem.position b) (SolarSystem.position a))).
  rewrite (vlength_vsub_sym (SolarSystem.position a) (SolarSystem.position b)).
  generalize (vlength (vsub (SolarSystem.position b) (SolarSystem.position a))).
  intros s.
  apply vec3_eq; simpl; unfold Rdiv; ring.
Qed.

Section SolarCoordinate.
Variable c : vec3 R -> R.
Hypothesis c_vadd : forall u v, c (vadd u v) = c u + c v.
Hypothesis c_vscale : forall v k, c (vscale v k) = c v * k.
Hypothesis c_vdivs : forall v k, c (vdivs v k) = c v / k.
Hypothesis c_zero : c (Vec3 0 0 0) = 0.

Lemma c_solarMomentum objs :
  c (solarMomentum objs)
  = Rsum (map (fun o => c (SolarSystem.velocity o) * SolarSystem.mass o) objs).
Proof.
  unfold solarMomentum.
  assert (Hgen : forall p,
    c (foldl (fun p o => vadd p (vscale (SolarSystem.velocity o)
                                        (SolarSystem.mass o))) p objs)
    = c p + Rsum (map (fun o => c (SolarSystem.velocity o)
                                 * SolarSystem.mass o) objs)).
  { induction objs as [|o objs IH]; intros p; simpl; [lra|].
    rewrite IH, c_vadd, c_vscale. lra. }
  rewrite Hgen. change (@vzero R R_Scalar) with (Vec3 0 0 0).
  rewrite c_zero. lra.
Qed.

Lemma solarMassAcc_insert objs (i : nat) o o' :
  objs !! i = Some o ->
  solarMassAcc c (<[i := o']> objs)
  = solarMassAcc c objs
    - c (SolarSystem.acceleration o) * SolarSystem.mass o
    + c (SolarSystem.acceleration o') * SolarSystem.mass o'.
Proof.
  intros Hi. unfold solarMassAcc.
  rewrite insert_take_drop by (eapply lookup_lt_Some, Hi).
  rewrite <- (take_drop_middle objs i o Hi) at 3.
  rewrite !map_app, !Rsum_app. simpl. lra.
Qed.

Lemma solar_calculate_massAcc base cur (i j : nat) :
  Forall2 solarSameButAcceleration base cur ->
  Forall (fun o => 0 < SolarSystem.mass o) base ->
  Forall2 solarSameButAcceleration base
    (SolarSystem.calculateGravitationalForce (fun x : R => x)
       (fun x : R => x) G cur i j) /\
  solarMassAcc c (SolarSystem.calculateGravitationalForce (fun x : R => x)
                    (fun x : R => x) G cur i j)
  = solarMassAcc c cur + c (solarPairForce G base i j).
Proof.
  intros Hsame Hbase.
  unfold SolarSystem.calculateGravitationalForce, solarPairForce.
  destruct (j =? i)%nat; [split; [exact Hsame | rewrite c_zero; lra]|].
  destruct (base !! i) as [a|] eqn:Ha.
  - destruct (Forall2_lookup_l _ _ _ _ _ Hsame Ha) as (a' & Ha' & Haa').
    rewrite Ha'.
    destruct (base !! j) as [b|] eqn:Hb.
    + destruct (Forall2_lookup_l _ _ _ _ _ Hsame Hb) as (b' & Hb' & Hbb').
      rewrite Hb'. split.
      * rewrite <- (list_insert_id base i a Ha).
        apply Forall2_insert; [exact Hsame|].
        rewrite Haa'. reflexivity.
      * rewrite (solarMassAcc_insert cur i a' _ Ha').
        fold (solarForce G a' b').
        rewrite (solarForce_ext a a' b b' Haa' Hbb').
        pose proof (proj1 (Forall_lookup _ _) Hbase i a Ha) as Hma.
        assert (Hma' : SolarSystem.mass a' = SolarSystem.mass a)
          by (rewrite Haa'; reflexivity).
        unfold SolarSystem.applyForce. simpl.
        rewrite c_vadd, c_vdivs, Hma'. simpl in Hma. field. lra.
    + apply lookup_ge_None in Hb.
      rewrite (Forall2_length _ _ _ Hsame) in Hb.
      apply lookup_ge_None in Hb. rewrite Hb.
      split; [exact Hsame | rewrite c_zero; lra].
  - apply lookup_ge_None in Ha.
    rewrite (Forall2_length _ _ _ Hsame) in Ha.
    apply lookup_ge_None in Ha. rewrite Ha.
    split; [exact Hsame | rewrite c_zero; lra].
Qed.

Lemma solar_row_massAcc base (i : nat) (js : list nat) cur :
  Forall2 solarSameButAcceleration base cur ->
  Forall (fun o => 0 < SolarSystem.mass o) base ->
  Forall2 solarSameButAcceleration base
    (foldl (fun objs j =>
              SolarSystem.calculateGravitationalForce (fun x : R => x)
                (fun x : R => x) G objs i j) cur js) /\
  solarMassAcc c
    (foldl (fun objs j =>
              SolarSystem.calculateGravitationalForce (fun x : R => x)
                (fun x : R => x) G objs i j) cur js)
  = solarMassAcc c cur
    + Rsum (map (fun j => c (solarPairForce G base i j)) js).
Proof.
  intros Hsame Hbase. revert cur Hsame.
  induction js as [|j js IH]; intros cur Hsame; simpl.
  - split; [exact Hsame | lra].
  - destruct (solar_calculate_massAcc base cur i j Hsame Hbase) as [Hs1 Hm1].
    destruct (IH _ Hs1) as [Hs Hm].
    split; [exact Hs|]. rewrite Hm, Hm1. lra.
Qed.

Lemma solar_rows_massAcc base (rows : list nat) cur :
  Forall2 solarSameButAcceleration base cur ->
  Forall (fun o => 0 < SolarSystem.mass o) base ->
  Forall2 solarSameButAcceleration base
    (foldl (SolarSystem.gravityRow (fun x : R => x) (fun x : R => x) G)
           cur rows) /\
  solarMassAcc c
    (foldl (SolarSystem.gravityRow (fun x : R => x) (fun x : R => x) G)
           cur rows)
  = solarMassAcc c cur
    + Rsum (map (fun i => Rsum (map (fun j => c (solarPairForce G base i j))
                                    (seq 0 (length base)))) rows).
Proof.
  intros Hsame Hbase. revert cur Hsame.
  induction rows as [|i rows IH]; intros cur Hsame; simpl.
  - split; [exact Hsame | lra].
  - destruct (solar_row_massAcc base i (seq 0 (length cur)) cur Hsame Hbase)
      as [Hs Hm].
    destruct (IH (SolarSystem.gravityRow (fun x : R => x) (fun x : R => x)
                    G cur i) Hs) as [Hs' Hm'].
    split; [exact Hs'|]. rewrite Hm'. unfold SolarSystem.gravityRow.
    rewrite Hm, (Forall2_length _ _ _ Hsame). lra.
Qed.

Lemma solarPairForce_antisym base (i j : nat) :
  c (solarPairForce G base j i) = - c (solarPairForce G base i j).
Proof.
  unfold solarPairForce. rewrite (Nat.eqb_sym i j).
  destruct (j =? i)%nat; [rewrite c_zero; lra|].
  destruct (base !! i) as [a|], (base !! j) as [b|];
    rewrite ?c_zero; try lra.
  rewrite (solarForce_opposite b a), c_vscale. lra.
Qed.

Lemma solar_update_momentum (dt : R) objs :
  Rsum (map (fun o => c (SolarSystem.velocity o) * SolarSystem.mass o)
            (map (SolarSystem.updatePosition false dt) objs))
  = Rsum (map (fun o => c (SolarSystem.velocity o) * SolarSystem.mass o) objs)
    + solarMassAcc c objs * dt.
Proof.
  unfold solarMassAcc.
  induction objs as [|o objs IH]; simpl; [lra|].
  rewrite IH, c_vadd, c_vscale. lra.
Qed.

Lemma solarSame_momentum objs objs' :
  Forall2 solarSameButAcceleration objs objs' ->
  Rsum (map (fun o => c (SolarSystem.velocity o) * SolarSystem.mass o) objs')
  = Rsum (map (fun o => c (SolarSystem.velocity o) * SolarSystem.mass o) objs).
Proof.
  induction 1 as [|x y l k Hxy _ IH]; simpl; [reflexivity|].
  rewrite IH, Hxy. reflexivity.
Qed.

Lemma solarAtRest_massAcc objs :
  Forall solarAtRest objs -> solarMassAcc c objs = 0.
Proof.
  unfold solarMassAcc.
  induction 1 as [|o l [_ Ho] _ IH]; simpl; [reflexivity|].
  rewrite Ho, c_zero, IH. lra.
Qed.

Lemma solarFrame_momentum deltaTime (w : SolarSystem.World R) :
  SolarSystem.isPaused w = false ->
  Forall solarAtRest (SolarSystem.objects w) ->
  c (solarMomentum (SolarSystem.objects (solarFrame G deltaTime w)))
  = c (solarMomentum (SolarSystem.objects w)).
Proof.
  intros Hp Hobjs. rewrite !c_solarMomentum.
  unfold solarFrame, SolarSystem.frame. rewrite Hp.
  cbn [SolarSystem.objects].
  set (base := SolarSystem.objects w) in *.
  assert (Hmass : Forall (fun o => 0 < SolarSystem.mass o) base)
    by (eapply Forall_impl; [exact Hobjs | intros o [Hm _]; exact Hm]).
  assert (Hrefl : Forall2 solarSameButAcceleration base base).
  { apply Forall2_same_length_lookup. split; [reflexivity|].
    intros i x y Hx Hy. assert (x = y) as -> by congruence.
    apply solarSame_refl. }
  destruct (solar_rows_massAcc base (seq 0 (length base)) base Hrefl Hmass)
    as [Hsame Hm].
  fold (SolarSystem.gravityPass (fun x : R => x) (fun x : R => x) G base)
    in Hsame, Hm.
  rewrite (Rsum_double_antisym (fun i j => c (solarPairForce G base i j)))
    in Hm by (intros i j; apply solarPairForce_antisym).
  rewrite (solarAtRest_massAcc base Hobjs) in Hm.
  rewrite solar_update_momentum, Hm, (solarSame_momentum _ _ Hsame). lra.
Qed.
End SolarCoordinate.

Lemma solarFrame_atRest deltaTime (w : SolarSystem.World R) :
  Forall solarAtRest (SolarSystem.objects w) ->
  Forall solarAtRest (SolarSystem.objects (solarFrame G deltaTime w)).
Proof.
  intros Hobjs. unfold solarFrame, SolarSystem.frame.
  destruct (SolarSystem.isPaused w); [exact Hobjs|].
  cbn [SolarSystem.objects].
  pose proof (solar_gravityPass_keeps (fun x : R => x) (fun x : R => x) G
                (fun o o' => SolarSystem.mass o' = SolarSystem.mass o)
                (SolarSystem.objects w)) as Hmass.
  specialize (Hmass ltac:(intros o; reflexivity)
                    ltac:(intros x y z Hxy Hyz; congruence)
                    ltac:(intros o force; reflexivity)).
  revert Hobjs.
  induction Hmass as [|x y l k Hxy _ IH]; intros Hobjs; simpl;
    [constructor|].
  inversion Hobjs as [|? ? [Hx _] Hrest]; subst.
  constructor; [|auto].
  split; [simpl; rewrite Hxy; exact Hx | reflexivity].
Qed.

Lemma solarHandle_atRest (w : SolarSystem.World R) ev :
  Forall solarAtRest (SolarSystem.objects w) ->
  Forall solarAtRest
    (SolarSystem.objects
       (SolarSystem.handle (fun x : R => x) (fun x : R => x) G w ev)).
Proof.
  destruct ev as [deltaTime|]; [apply solarFrame_atRest | intros Hobjs; exact Hobjs].
Qed.

Lemma solarHandle_momentum (w : SolarSystem.World R) ev :
  Forall solarAtRest (SolarSystem.objects w) ->
  solarMomentum
    (SolarSystem.objects
       (SolarSystem.handle (fun x : R => x) (fun x : R => x) G w ev))
  = solarMomentum (SolarSystem.objects w).
Proof.
  intros Hobjs. destruct ev as [deltaTime|]; [|reflexivity].
  cbn [SolarSystem.handle]. fold (solarFrame G deltaTime w).
  destruct (SolarSystem.isPaused w) eqn:Hp.
  { unfold solarFrame, SolarSystem.frame. rewrite Hp. reflexivity. }
  apply vec3_eq.
  - apply (solarFrame_momentum vx); auto; intros [ ]; reflexivity.
  - apply (solarFrame_momentum vy); auto; intros [ ]; reflexivity.
  - apply (solarFrame_momentum vz); auto; intros [ ]; reflexivity.
Qed.

(** X12. In the solar-system variant over exact reals, bodies of positive
    mass that start with zero acceleration keep their total momentum
    through every run of frames and pause toggles, whatever the frame
    times, as long as no two centres coincide when an event is handled
    (between distinct centres the force pass divides by no zero). *)
Theorem solar_momentum_conserved (w : SolarSystem.World R) evs
    (Hrest : Forall solarAtRest (SolarSystem.objects w))
    (Hapart : solarApartDuring G w evs) :
  Forall solarAtRest (SolarSystem.objects (solarRun G w evs))
  /\ solarMomentum (SolarSystem.objects (solarRun G w evs))
     = solarMomentum (SolarSystem.objects w).
Proof.
  unfold solarRun, SolarSystem.run. revert w Hrest Hapart.
  induction evs as [|ev evs IH]; intros w Hobjs Hapart;
    [split; [exact Hobjs|reflexivity]|].
  cbn [foldl]. destruct Hapart as [_ Hapart].
  destruct (IH _ (solarHandle_atRest w ev Hobjs) Hapart) as [Hrest Hmom].
  split; [exact Hrest|].
  rewrite Hmom. apply solarHandle_momentum, Hobjs.
Qed.
End SolarExact.

(** ** Witnesses of the solar-system properties *)

(** [solar_frame_records_positions] at two bodies in binary32. *)
Lemma solar_frame_records_positions_witness :
  Forall (fun o => SolarSystem.acceleration o = vzero /\ solarTrailCurrent o)
         (SolarSystem.objects
            (SolarSystem.frame (fun x : binary32 => x) (fun x : binary32 => x)
               (lit 1 1000) (lit 1 60) solarPair)).
Proof.
  assert (Hcap : Forall solarTrailBounded (SolarSystem.objects solarPair))
    by (repeat constructor; vm_compute; lia).
  exact (proj1 (solar_frame_records_positions (fun x : binary32 => x)
                  (fun x : binary32 => x) (lit 1 1000) (lit 1 60) solarPair
                  eq_refl Hcap)).
Defined.

Section SolarExactWitnesses.
Local Open Scope R_scope.

Lemma rplanets_apart : solarApart (SolarSystem.objects rplanets).
Proof.
  intros [|[|i]] [|[|j]] a b Hij Ha Hb; try discriminate; try congruence;
    injection Ha as <-; injection Hb as <-; intros Heq;
    apply (f_equal vx) in Heq; simpl in Heq; lra.
Qed.

(** [solar_momentum_conserved] at two planets: a frame while paused and,
    after the pause, a frame of a sixtieth of a second. *)
Lemma solar_momentum_conserved_witness :
  solarMomentum
    (SolarSystem.objects
       (solarRun 1 rplanets
          [SolarSystem.KeySpace; SolarSystem.Frame (1 / 60);
           SolarSystem.KeySpace; SolarSystem.Frame (1 / 60)]))
  = solarMomentum (SolarSystem.objects rplanets).
Proof.
  assert (Hrest : Forall solarAtRest (SolarSystem.objects rplanets))
    by (repeat constructor; simpl; lra).
  assert (Hapart : solarApartDuring 1 rplanets
            [SolarSystem.KeySpace; SolarSystem.Frame (1 / 60);
             SolarSystem.KeySpace; SolarSystem.Frame (1 / 60)])
    by (repeat split; exact rplanets_apart).
  exact (proj2 (solar_momentum_conserved 1 rplanets
                  [SolarSystem.KeySpace; SolarSystem.Frame (1 / 60);
                   SolarSystem.KeySpace; SolarSystem.Frame (1 / 60)]
                  Hrest Hapart)).
Defined.
End SolarExactWitnesses.



(** ** The sphere mesh *)

Section ListFacts.
Context {A : Type}.

Lemma foldl_push {B} (f : B -> list A) (xs : list B) (acc : list A) :
  foldl (fun acc x => acc ++ f x) acc xs = acc ++ concat (map f xs).
Proof.
  revert acc. induction xs as [|x xs IH]; intros acc; simpl.
  - rewrite app_nil_r. reflexivity.
  - rewrite IH, app_assoc. reflexivity.
Qed.

Lemma length_concat_uniform (n : nat) (ls : list (list A)) :
  Forall (fun l => length l = n) ls ->
  length (concat ls) = (n * length ls)%nat.
Proof.
  induction 1 as [|l ls Hl _ IH]; simpl; [lia|].
  rewrite length_app, IH, Hl. lia.
Qed.

Lemma drop_concat_uniform (n : nat) (ls : list (list A)) (k : nat) :
  Forall (fun l => length l = n) ls ->
  drop (n * k) (concat ls) = concat (drop k ls).
Proof.
  intros Hls. revert k.
  induction Hls as [|l ls Hl _ IH]; intros k; simpl.
  - rewrite !drop_nil. reflexivity.
  - destruct k as [|k]; simpl.
    + rewrite Nat.mul_0_r. reflexivity.
    + replace (n * S k)%nat with (length l + n * k)%nat by lia.
      rewrite drop_app_add. apply IH.
Qed.

Lemma record_concat_uniform (n : nat) (ls : list (list A)) (k : nat) :
  Forall (fun l => length l = n) ls ->
  take n (drop (n * k) (concat ls)) = default [] (ls !! k).
Proof.
  intros Hls. rewrite drop_concat_uniform by exact Hls.
  replace (ls !! k) with (drop k ls !! 0%nat)
    by (rewrite lookup_drop; f_equal; lia).
  assert (Hd : Forall (fun l => length l = n) (drop k ls))
    by (apply Forall_drop, Hls).
  destruct (drop k ls) as [|l rest]; simpl; [apply take_nil|].
  inversion Hd as [|? ? Hl _]; subst.
  rewrite take_app_length. reflexivity.
Qed.

Lemma lookup_concat_uniform (n : nat) (ls : list (list A)) (i j : nat) l x :
  Forall (fun l => length l = n) ls ->
  ls !! i = Some l -> l !! j = Some x ->
  concat ls !! (i * n + j)%nat = Some x.
Proof.
  intros Hls. revert i.
  induction Hls as [|l0 ls Hl0 _ IH]; intros i Hi Hj; [discriminate|].
  simpl. destruct i as [|i].
  - injection Hi as ->. simpl. apply lookup_app_l_Some. exact Hj.
  - simpl in Hi.
    rewrite lookup_app_r by lia.
    replace (S i * n + j - length l0)%nat with (i * n + j)%nat by lia.
    apply IH; assumption.
Qed.
End ListFacts.

Section MeshFacts.
Context `{Scalar T} `{Scalar D} (widen : T -> D) (narrow : D -> T).
Variables (cosf sinf : T -> T) (M_PI : D).
Implicit Types vertices : list T.
Implicit Types indices : list Z.

Lemma vertexRow_records radius sectors stacks vertices i :
  Mesh.vertexRow widen narrow cosf sinf M_PI radius sectors stacks vertices i
  = vertices
    ++ concat (map (sphereVertex widen narrow cosf sinf M_PI
                                 radius sectors stacks i)
                   (seqZ 0 (sectors + 1))).
Proof.
  unfold Mesh.vertexRow. generalize (seqZ 0 (sectors + 1)) as js.
  intros js. revert vertices.
  induction js as [|j js IH]; intros vertices; simpl.
  - rewrite app_nil_r. reflexivity.
  - rewrite IH, <- !app_assoc. reflexivity.
Qed.

Lemma sphereVertices_records radius sectors stacks vertices :
  Mesh.sphereVertices widen narrow cosf sinf M_PI radius sectors stacks
                      vertices
  = vertices
    ++ concat (sphereRecords widen narrow cosf sinf M_PI
                             radius sectors stacks).
Proof.
  unfold Mesh.sphereVertices, sphereRecords.
  generalize (seqZ 0 (stacks + 1)) as rows. intros rows. revert vertices.
  induction rows as [|i rows IH]; intros vertices; simpl.
  - rewrite app_nil_r. reflexivity.
  - rewrite IH, vertexRow_records, concat_app, <- app_assoc. reflexivity.
Qed.

Lemma sphereRecords_six radius sectors stacks :
  Forall (fun l => length l = 6)
         (sphereRecords widen narrow cosf sinf M_PI radius sectors stacks).
Proof.
  unfold sphereRecords. apply Forall_concat, Forall_map, Forall_true.
  intros i. apply Forall_map, Forall_true. intros j. reflexivity.
Qed.

Lemma length_sphereRecords radius sectors stacks :
  length (sphereRecords widen narrow cosf sinf M_PI radius sectors stacks)
  = (Z.to_nat (stacks + 1) * Z.to_nat (sectors + 1))%nat.
Proof.
  unfold sphereRecords.
  rewrite <- (length_seqZ 0 (stacks + 1)).
  generalize (seqZ 0 (stacks + 1)) as rows. intros rows.
  induction rows as [|i rows IH]; simpl; [reflexivity|].
  rewrite length_app, IH, length_map, length_seqZ. reflexivity.
Qed.

Lemma sphereRecords_lookup radius sectors stacks (i j : nat) :
  (Z.of_nat i <= stacks)%Z -> (Z.of_nat j <= sectors)%Z ->
  sphereRecords widen narrow cosf sinf M_PI radius sectors stacks
    !! (i * Z.to_nat (sectors + 1) + j)%nat
  = Some (sphereVertex widen narrow cosf sinf M_PI radius sectors stacks
                       (Z.of_nat i) (Z.of_nat j)).
Proof.
  intros Hi Hj. unfold sphereRecords.
  apply (lookup_concat_uniform _ _ _ _
           (map (sphereVertex widen narrow cosf sinf M_PI radius sectors
                              stacks (Z.of_nat i))
                (seqZ 0 (sectors + 1)))).
  - apply Forall_map, Forall_true. intros r.
    rewrite length_map, length_seqZ. reflexivity.
  - rewrite list_lookup_fmap,
      (proj2 (lookup_seqZ 0 (stacks + 1) i (Z.of_nat i))) by lia.
    reflexivity.
  - rewrite list_lookup_fmap,
      (proj2 (lookup_seqZ 0 (sectors + 1) j (Z.of_nat j))) by lia.
    reflexivity.
Qed.



Lemma vertexRecord_lookup radius sectors stacks (i j : nat) :
  (Z.of_nat i <= stacks)%Z -> (Z.of_nat j <= sectors)%Z ->
  vertexRecord
    (Mesh.sphereVertices widen narrow cosf sinf M_PI radius sectors stacks [])
    (i * Z.to_nat (sectors + 1) + j)
  = sphereVertex widen narrow cosf sinf M_PI radius sectors stacks
                 (Z.of_nat i) (Z.of_nat j).
Proof.
  intros Hi Hj. unfold vertexRecord.
  rewrite sphereVertices_records, app_nil_l.
  rewrite (record_concat_uniform 6) by apply sphereRecords_six.
  rewrite sphereRecords_lookup by assumption. reflexivity.
Qed.

(** *** The index loop *)

Lemma indexCells_length stacks i (js : list Z) :
  forall k1 k2 indices,
    length (snd (foldl (Mesh.indexCell stacks i) (k1, k2, indices) js))
    = (length indices
       + length js * ((if (i =? 0)%Z then 0 else 3)
                      + (if (i =? stacks - 1)%Z then 0 else 3)))%nat.
Proof.
  induction js as [|j js IH]; intros k1 k2 indices; simpl; [lia|].
  rewrite IH.
  destruct (i =? 0)%Z, (i =? stacks - 1)%Z; simpl;
    rewrite ?length_app; simpl; lia.
Qed.

Lemma indexCells_bound stacks i (bound : Z) (js : list Z) :
  forall k1 k2 indices,
    (0 <= k1)%Z -> (0 <= k2)%Z ->
    (k1 + Z.of_nat (length js) < bound)%Z ->
    (k2 + Z.of_nat (length js) < bound)%Z ->
    Forall (fun k => (0 <= k < bound)%Z) indices ->
    Forall (fun k => (0 <= k < bound)%Z)
           (snd (foldl (Mesh.indexCell stacks i) (k1, k2, indices) js)).
Proof.
  induction js as [|j js IH]; intros k1 k2 indices H1 H2 Hb1 Hb2 Hall;
    [exact Hall|].
  simpl. simpl length in Hb1, Hb2.
  apply IH; try lia.
  destruct (i =? 0)%Z, (i =? stacks - 1)%Z; simpl;
    rewrite ?Forall_app; repeat split; try exact Hall;
    repeat constructor; lia.
Qed.

Lemma length_sphereIndices sectors stacks indices :
  (0 <= sectors)%Z -> (1 <= stacks)%Z ->
  length (Mesh.sphereIndices sectors stacks indices)
  = (length indices + 6 * Z.to_nat sectors * Z.to_nat (stacks - 1))%nat.
Proof.
  intros Hs Hst. unfold Mesh.sphereIndices.
  assert (Hgen : forall (n : nat) indices, (Z.of_nat n <= stacks)%Z ->
    length (foldl (Mesh.indexRow sectors stacks) indices
                  (seqZ 0 (Z.of_nat n)))
    = (length indices
       + 3 * Z.to_nat sectors
         * ((if (0 <? Z.of_nat n)%Z then n - 1 else 0)
            + (if (Z.of_nat n =? stacks)%Z then n - 1 else n)))%nat).
  { intros n. induction n as [|n IHn]; intros ind Hn.
    { rewrite seqZ_nil by lia. cbn [foldl]. change (Z.of_nat 0) with 0%Z.
      destruct (0 <? 0)%Z, (0 =? stacks)%Z; lia. }
    rewrite seqZ_S, foldl_snoc. unfold Mesh.indexRow at 1.
    rewrite indexCells_length, length_seqZ, IHn by lia.
    rewrite Z.add_0_l.
    destruct (Z.eqb_spec (Z.of_nat n) 0),
      (Z.eqb_spec (Z.of_nat n) (stacks - 1)),
      (Z.ltb_spec 0 (Z.of_nat n)), (Z.eqb_spec (Z.of_nat n) stacks),
      (Z.ltb_spec 0 (Z.of_nat (S n))),
      (Z.eqb_spec (Z.of_nat (S n)) stacks);
      try lia; destruct n; nia. }
  pose proof (Hgen (Z.to_nat stacks) indices) as Hg.
  rewrite Z2Nat.id in Hg by lia. rewrite Hg by lia.
  destruct (Z.ltb_spec 0 stacks), (Z.eqb_spec stacks stacks); lia.
Qed.

Lemma sphereIndices_bound sectors stacks :
  Forall (fun k => (0 <= k < (stacks + 1) * (sectors + 1))%Z)
         (Mesh.sphereIndices sectors stacks []).
Proof.
  unfold Mesh.sphereIndices.
  assert (Hgen : forall rows indices,
    Forall (fun i => (0 <= i < stacks)%Z) rows ->
    Forall (fun k => (0 <= k < (stacks + 1) * (sectors + 1))%Z) indices ->
    Forall (fun k => (0 <= k < (stacks + 1) * (sectors + 1))%Z)
           (foldl (Mesh.indexRow sectors stacks) indices rows)).
  { induction rows as [|i rows IH]; intros indices Hrows Hall; [exact Hall|].
    inversion Hrows as [|? ? Hi Hrest]; subst. simpl. apply IH; [exact Hrest|].
    unfold Mesh.indexRow.
    destruct (Z.le_gt_cases sectors 0) as [Hs|Hs].
    { rewrite seqZ_nil by lia. exact Hall. }
    apply indexCells_bound; try exact Hall; rewrite ?length_seqZ; nia. }
  apply Hgen; [|constructor].
  apply Forall_forall. intros i Hi. apply elem_of_seqZ in Hi. lia.
Qed.
End MeshFacts.

Section MeshTheorems.
Context `{Scalar T} `{Scalar D} (widen : T -> D) (narrow : D -> T).
Variables (cosf sinf : T -> T) (M_PI : D).

(** X13. For [sectors >= 0] and [stacks >= 1], GenerateSphere appends
    [6 * (stacks + 1) * (sectors + 1)] floats to the vertex buffer and
    [6 * sectors * (stacks - 1)] indices, two triangles for every cell
    but one for the cells of the first and the last stack. *)
Theorem sphere_buffer_sizes (vertices : list T) (indices : list Z)
    (radius : T) (sectors stacks : Z)
    (Hsectors : (0 <= sectors)%Z) (Hstacks : (1 <= stacks)%Z) :
  Z.of_nat (length (fst (Mesh.GenerateSphere widen narrow cosf sinf M_PI
                           vertices indices radius sectors stacks)))
  = (Z.of_nat (length vertices) + 6 * (stacks + 1) * (sectors + 1))%Z
  /\
  Z.of_nat (length (snd (Mesh.GenerateSphere widen narrow cosf sinf M_PI
                           vertices indices radius sectors stacks)))
  = (Z.of_nat (length indices) + 6 * sectors * (stacks - 1))%Z.
Proof.
  unfold Mesh.GenerateSphere. cbn [fst snd]. split.
  - rewrite sphereVertices_records, length_app,
      (length_concat_uniform 6) by apply sphereRecords_six.
    rewrite length_sphereRecords. nia.
  - rewrite length_sphereIndices by assumption. nia.
Qed.

(** X14. Called on empty vectors, as main does, GenerateSphere emits only
    indices that are non-negative (the conversion to [unsigned int] keeps
    them) and that address a complete six-float record of the vertex
    buffer it emits, whatever the sector and stack counts. *)
Theorem sphere_indices_address_vertices (radius : T) (sectors stacks : Z) :
  Forall (fun k =>
            (0 <= k)%Z /\
            length (vertexRecord
                      (fst (Mesh.GenerateSphere widen narrow cosf sinf M_PI
                              [] [] radius sectors stacks))
                      (Z.to_nat k)) = 6%nat)
         (snd (Mesh.GenerateSphere widen narrow cosf sinf M_PI
                 [] [] radius sectors stacks)).
Proof.
  unfold Mesh.GenerateSphere. cbn [fst snd].
  destruct (Z.le_gt_cases stacks 0) as [Hstacks|Hstacks].
  { unfold Mesh.sphereIndices. rewrite seqZ_nil by exact Hstacks.
    constructor. }
  eapply Forall_impl; [apply sphereIndices_bound|].
  intros k [Hk0 Hk]. split; [exact Hk0|].
  assert (Hsectors : (0 <= sectors)%Z) by nia.
  unfold vertexRecord.
  rewrite length_take, length_drop, sphereVertices_records, app_nil_l,
    (length_concat_uniform 6) by apply sphereRecords_six.
  rewrite length_sphereRecords.
  assert (Hlt : (Z.to_nat k
                 < Z.to_nat (stacks + 1) * Z.to_nat (sectors + 1))%nat)
    by nia.
  lia.
Qed.
End MeshTheorems.

Section MeshExactFacts.
Local Open Scope R_scope.

Lemma sphereVertex_R radius sectors stacks i j :
  sphereVertex (fun x : R => x) (fun x : R => x) cos sin PI
               radius sectors stacks i j
  = let a := PI / 2 - IZR i * (PI / IZR stacks) in
    let b := IZR j * (2 * PI / IZR sectors) in
    [radius * cos a * cos b; radius * cos a * sin b; radius * sin a;
     radius * cos a * cos b * (1 / radius);
     radius * cos a * sin b * (1 / radius);
     radius * sin a * (1 / radius)].
Proof. reflexivity. Qed.


Lemma sphereMesh_record radius sectors stacks (i j : nat) :
  (Z.of_nat i <= stacks)%Z -> (Z.of_nat j <= sectors)%Z ->
  vertexRecord (fst (sphereMesh radius sectors stacks))
               (i * Z.to_nat (sectors + 1) + j)
  = sphereVertex (fun x : R => x) (fun x : R => x) cos sin PI
                 radius sectors stacks (Z.of_nat i) (Z.of_nat j).
Proof.
  intros Hi Hj. unfold sphereMesh, Mesh.GenerateSphere. cbn [fst].
  apply vertexRecord_lookup; assumption.
Qed.

Lemma sphereMesh_north_pole radius sectors stacks (j : nat) :
  (0 < stacks)%Z -> radius <> 0 -> (Z.of_nat j <= sectors)%Z ->
  vertexRecord (fst (sphereMesh radius sectors stacks))
               (0 * Z.to_nat (sectors + 1) + j)
  = [0; 0; radius; 0; 0; 1].
Proof.
  intros Hstacks Hradius Hj.
  rewrite sphereMesh_record by (simpl; lia).
  rewrite sphereVertex_R. cbv zeta. change (IZR (Z.of_nat 0)) with 0.
  replace (PI / 2 - 0 * (PI / IZR stacks)) with (PI / 2) by ring.
  rewrite cos_PI2, sin_PI2.
  repeat f_equal; try ring. field. exact Hradius.
Qed.

Lemma sphereMesh_south_pole radius sectors stacks (j : nat) :
  (0 < stacks)%Z -> radius <> 0 -> (Z.of_nat j <= sectors)%Z ->
  vertexRecord (fst (sphereMesh radius sectors stacks))
               (Z.to_nat stacks * Z.to_nat (sectors + 1) + j)
  = [0; 0; - radius; 0; 0; - 1].
Proof.
  intros Hstacks Hradius Hj.
  assert (Hst : IZR stacks <> 0) by (apply not_0_IZR; lia).
  rewrite sphereMesh_record by lia.
  rewrite sphereVertex_R. cbv zeta. rewrite Z2Nat.id by lia.
  replace (PI / 2 - IZR stacks * (PI / IZR stacks)) with (- (PI / 2))
    by (field; exact Hst).
  rewrite cos_neg, sin_neg, cos_PI2, sin_PI2.
  repeat f_equal; try ring. field. exact Hradius.
Qed.

Lemma sphereMesh_seam radius sectors stacks (i : nat) :
  (0 < sectors)%Z -> (Z.of_nat i <= stacks)%Z ->
  vertexRecord (fst (sphereMesh radius sectors stacks))
               (i * Z.to_nat (sectors + 1) + Z.to_nat sectors)
  = vertexRecord (fst (sphereMesh radius sectors stacks))
                 (i * Z.to_nat (sectors + 1) + 0).
Proof.
  intros Hsectors Hi.
  assert (Hs : IZR sectors <> 0) by (apply not_0_IZR; lia).
  rewrite !sphereMesh_record by (simpl; lia).
  rewrite !sphereVertex_R. cbv zeta. rewrite Z2Nat.id by lia.
  change (IZR (Z.of_nat 0)) with 0.
  replace (IZR sectors * (2 * PI / IZR sectors)) with (2 * PI)
    by (field; exact Hs).
  replace (0 * (2 * PI / IZR sectors)) with 0 by ring.
  rewrite cos_2PI, sin_2PI, cos_0, sin_0. reflexivity.
Qed.

(** X16. Over exact reals, for positive sector and stack counts and a
    radius other than zero: every vertex of the first stack is the pole
    [(0, 0, radius)] with normal [(0, 0, 1)], every vertex of the last
    stack is the opposite pole, and in every stack the vertex of the last
    sector repeats the vertex of sector 0 (the seam). *)
Theorem sphere_poles_and_seam radius sectors stacks (i j : nat)
    (Hsectors : (0 < sectors)%Z) (Hstacks : (0 < stacks)%Z)
    (Hradius : radius <> 0)
    (Hi : (Z.of_nat i <= stacks)%Z) (Hj : (Z.of_nat j <= sectors)%Z) :
  vertexRecord (fst (sphereMesh radius sectors stacks))
               (0 * Z.to_nat (sectors + 1) + j)
  = [0; 0; radius; 0; 0; 1]
  /\ vertexRecord (fst (sphereMesh radius sectors stacks))
                  (Z.to_nat stacks * Z.to_nat (sectors + 1) + j)
     = [0; 0; - radius; 0; 0; - 1]
  /\ vertexRecord (fst (sphereMesh radius sectors stacks))
                  (i * Z.to_nat (sectors + 1) + Z.to_nat sectors)
     = vertexRecord (fst (sphereMesh radius sectors stacks))
                    (i * Z.to_nat (sectors + 1) + 0).
Proof.
  split; [apply sphereMesh_north_pole; assumption|].
  split; [apply sphereMesh_south_pole; assumption|].
  apply sphereMesh_seam; assumption.
Qed.
End MeshExactFacts.

Section MeshWitnesses.
Local Open Scope R_scope.

(** [sphere_buffer_sizes] at the mesh of [main]: 36 sectors and 18
    stacks give 4218 floats and 3672 indices. *)
Lemma sphere_buffer_sizes_witness :
  Z.of_nat (length (fst (Mesh.GenerateSphere (fun x : R => x)
                           (fun x : R => x) cos sin PI [] [] 1 36 18)))
  = (Z.of_nat (length (@nil R)) + 6 * (18 + 1) * (36 + 1))%Z
  /\
  Z.of_nat (length (snd (Mesh.GenerateSphere (fun x : R => x)
                           (fun x : R => x) cos sin PI [] [] 1 36 18)))
  = (Z.of_nat (length (@nil Z)) + 6 * 36 * (18 - 1))%Z.
Proof.
  assert (Hsectors : (0 <= 36)%Z) by lia.
  assert (Hstacks : (1 <= 18)%Z) by lia.
  exact (sphere_buffer_sizes (fun x : R => x) (fun x : R => x)
           cos sin PI [] [] 1 36 18 Hsectors Hstacks).
Defined.


(** [sphere_poles_and_seam] at the mesh of [main]. *)
Lemma sphere_poles_and_seam_witness :
  vertexRecord (fst (sphereMesh 1 36 18))
               (Z.to_nat 18 * Z.to_nat (36 + 1) + 5)
  = [0; 0; - 1; 0; 0; - 1].
Proof.
  assert (Hradius : (1 : R) <> 0) by lra.
  assert (H36 : (0 < 36)%Z) by lia. assert (H18 : (0 < 18)%Z) by lia.
  assert (Hi : (Z.of_nat 3 <= 18)%Z) by lia.
  assert (Hj : (Z.of_nat 5 <= 36)%Z) by lia.
  exact (proj1 (proj2 (sphere_poles_and_seam 1 36 18 3 5 H36 H18 Hradius
                         Hi Hj))).
Defined.
End MeshWitnesses.
